(** * filecache: a file-persisted key/value cache, embedded in Rocq

    Shallow embedding of [filecache.go].  The Go code talks to three
    outside services, which are modelled here as follows.

    - The clock.  Every call of [time.Now()] in the source becomes an
      explicit argument of the embedded function (an instant, in
      nanoseconds, as an integer).  Loops that read the clock once per
      iteration receive one reading per iteration.
    - The JSON codec ([encoding/json]).  It is a parameter of the
      development (section variables): marshalling a payload, encoding and
      decoding a whole bucket, and unmarshalling into a target type.
    - The file system.  A tree of directories and regular files, with the
      system calls the source uses ([os.Open], [os.Create], [os.Remove],
      [os.MkdirAll], [filepath.Walk]) defined on it, and a fault oracle that
      lets any system call fail.

    Go's map iteration order is unspecified; the loops over a map take the
    order of the walk as an argument. *)

From Stdlib Require Import ZArith Ascii String.
From stdpp Require Import gmap strings list fin_maps.

Set Warnings "-register-all".
Set Default Proof Using "Type".
Open Scope string_scope.
Open Scope Z_scope.

(** ** Errors *)

Inductive syscall :=
  SysOpen | SysRead | SysCreate | SysWrite | SysRemove | SysLstat | SysReadDir | SysMkdir.

Inductive errno := ENOENT | ENOTDIR | EISDIR | ENOTEMPTY | EIO.

(** Go's [error] values: an [*os.PathError], an error of [encoding/json],
    an error wrapped by [fmt.Errorf("...: %w", err)], or a plain message. *)
Inductive error :=
  | PathError (op : syscall) (path : string) (no : errno)
  | JSONError (msg : string)
  | Errorf (msg : string) (wrapped : error)
  | ErrorString (msg : string).

(** [os.IsNotExist]: it looks through a [*PathError] only. *)
Definition os_IsNotExist (e : error) : bool :=
  match e with
  | PathError _ _ ENOENT => true
  | _ => false
  end.

(** ** Time *)

Abbreviation Time := Z (only parsing).
Abbreviation Duration := Z (only parsing).

(** [t.Add(d)] *)
Definition time_Add (t : Time) (d : Duration) : Time := t + d.

(** [t.After(u)]: whether [t] is strictly after [u]. *)
Definition time_After (t u : Time) : bool := u <? t.

(** ** Paths *)

Definition slash : ascii := "/"%char.

(** [components_from s cur]: the pieces of [cur ++ s] between separators,
    [cur] being the piece under construction. *)
Fixpoint components_from (s : string) (cur : string) : list string :=
  match s with
  | EmptyString => [cur]
  | String c s' =>
      if Ascii.eqb c slash then cur :: components_from s' ""
      else components_from s' (cur +:+ String c "")
  end.

Definition is_component (x : string) : bool :=
  negb (String.eqb x "") && negb (String.eqb x ".").

(** The directory names a path runs through.  Empty pieces (doubled or
    trailing separators) and ["."] name no step; paths are resolved from the
    root of the modelled tree. *)
Definition path_components (p : string) : list string :=
  List.filter is_component (components_from p "").

(** [filepath.Base]: the last element of the path. *)
Definition filepath_Base (p : string) : string :=
  List.last (path_components p) ".".

(** [filepath.Join(dir, elem)] for two elements: empty elements are ignored
    and the rest are joined by the separator.  Go then normalises the
    result lexically with [Clean]; the text is kept as joined here, and
    [path_components] drops the empty and ["."] pieces that [Clean]
    removes.  A [".."] piece is not resolved: it is taken for a name like
    another, so paths through [".."] are outside what this model
    describes. *)
Definition filepath_Join (dir elem : string) : string :=
  if String.eqb dir "" then elem
  else if String.eqb elem "" then dir
  else dir +:+ "/" +:+ elem.

(** [strings.HasSuffix(s, suffix)] *)
Definition strings_HasSuffix (s suffix : string) : bool :=
  let n := String.length s in
  let k := String.length suffix in
  (k <=? n)%nat && String.eqb (String.substring (n - k) k s) suffix.

(** ** The file system *)

Inductive node :=
  | File (content : string)
  | Dir (entries : list (string * node)).

Fixpoint assoc (x : string) (es : list (string * node)) : option node :=
  match es with
  | [] => None
  | (y, n) :: es' => if String.eqb x y then Some n else assoc x es'
  end.

(** Directory entries are kept in the lexical order of their names, the
    order in which a directory is read. *)
Fixpoint set_entry (x : string) (n : node) (es : list (string * node))
  : list (string * node) :=
  match es with
  | [] => [(x, n)]
  | (y, m) :: es' =>
      if String.eqb x y then (x, n) :: es'
      else if String.ltb x y then (x, n) :: (y, m) :: es'
      else (y, m) :: set_entry x n es'
  end.

Fixpoint del_entry (x : string) (es : list (string * node))
  : list (string * node) :=
  match es with
  | [] => []
  | (y, m) :: es' =>
      if String.eqb x y then es' else (y, m) :: del_entry x es'
  end.

Fixpoint lookup_path (p : list string) (n : node) : option node :=
  match p with
  | [] => Some n
  | x :: p' =>
      match n with
      | Dir es =>
          match assoc x es with
          | Some child => lookup_path p' child
          | None => None
          end
      | File _ => None
      end
  end.

(** Creates the regular file at [p], or replaces its content. *)
Fixpoint put_file (p : list string) (content : string) (n : node)
  : errno + node :=
  match p, n with
  | [], File _ => inr (File content)
  | [], Dir _ => inl EISDIR
  | _ :: _, File _ => inl ENOTDIR
  | x :: p', Dir es =>
      match assoc x es with
      | Some child =>
          match put_file p' content child with
          | inr child' => inr (Dir (set_entry x child' es))
          | inl e => inl e
          end
      | None =>
          match p' with
          | [] => inr (Dir (set_entry x (File content) es))
          | _ :: _ => inl ENOENT
          end
      end
  end.

(** Removes the regular file or the empty directory at [p]. *)
Fixpoint remove_path (p : list string) (n : node) : errno + node :=
  match p, n with
  | [], _ => inl EIO
  | _ :: _, File _ => inl ENOTDIR
  | x :: p', Dir es =>
      match assoc x es with
      | None => inl ENOENT
      | Some child =>
          match p' with
          | [] =>
              match child with
              | Dir (_ :: _) => inl ENOTEMPTY
              | _ => inr (Dir (del_entry x es))
              end
          | _ :: _ =>
              match remove_path p' child with
              | inr child' => inr (Dir (set_entry x child' es))
              | inl e => inl e
              end
          end
      end
  end.

(** Creates the directory at [p] and the missing directories above it. *)
Fixpoint mkdir_all (p : list string) (n : node) : errno + node :=
  match p, n with
  | _, File _ => inl ENOTDIR
  | [], Dir _ => inr n
  | x :: p', Dir es =>
      match mkdir_all p' (default (Dir []) (assoc x es)) with
      | inr child' => inr (Dir (set_entry x child' es))
      | inl e => inl e
      end
  end.

Fixpoint height (n : node) : nat :=
  match n with
  | File _ => O
  | Dir es => S (foldr (λ e h, Nat.max (height e.2) h) O es)
  end.

(** A name a directory entry can bear: not empty, not ["."], without a
    separator. *)
Fixpoint has_slash (s : string) : bool :=
  match s with
  | EmptyString => false
  | String c s' => Ascii.eqb c slash || has_slash s'
  end.

Definition valid_name (x : string) : bool :=
  is_component x && negb (has_slash x).

(** A well-formed tree: in every directory the names are valid and
    distinct. *)
Fixpoint wf_node (n : node) : Prop :=
  match n with
  | File _ => True
  | Dir es =>
      NoDup es.*1 ∧
      foldr (λ e P, valid_name e.1 = true ∧ wf_node e.2 ∧ P) True es
  end.

(** The sizes of all regular files in the tree, added up. *)
Fixpoint tree_size (n : node) : Z :=
  match n with
  | File content => Z.of_nat (String.length content)
  | Dir es => foldr (λ e total, tree_size e.2 + total) 0 es
  end.

(** The tree in which the entries of the directory at [p] are [g] of what
    they were. *)
Fixpoint map_dir (p : list string) (g : list (string * node) → list (string * node))
    (n : node) : node :=
  match p, n with
  | _, File _ => n
  | [], Dir es => Dir (g es)
  | x :: p', Dir es =>
      match assoc x es with
      | Some child => Dir (set_entry x (map_dir p' g child) es)
      | None => n
      end
  end.

(** The state of the file system: the tree, and the system calls that fail
    whatever the tree holds (permissions, a full disk, a device error). *)
Record FS := mkFS {
  tree : node;
  fault : syscall → string → bool;
}.

Definition no_fault : syscall → string → bool := λ _ _, false.

Definition with_root (fs : FS) (r : node) : FS :=
  {| tree := r; fault := fault fs |}.

Record FileInfo := mkFileInfo {
  fi_name : string;
  fi_node : node;
}.

Definition IsDir (i : FileInfo) : bool :=
  match fi_node i with Dir _ => true | File _ => false end.

(** [info.Size()]: the length in bytes of a regular file; the source never
    asks for the size of a directory. *)
Definition Size (i : FileInfo) : Z :=
  match fi_node i with
  | File c => Z.of_nat (String.length c)
  | Dir _ => 0
  end.

Definition Name (i : FileInfo) : string := fi_name i.

(** Why a path leads nowhere: a step is not there, or a step is a regular
    file. *)
Fixpoint missing (p : list string) (n : node) : errno :=
  match p, n with
  | [], _ => ENOENT
  | _ :: _, File _ => ENOTDIR
  | x :: p', Dir es =>
      match assoc x es with
      | Some child => missing p' child
      | None => ENOENT
      end
  end.

(** [os.Lstat].  The empty path names no file. *)
Definition os_Lstat (fs : FS) (p : string) : error + FileInfo :=
  if fault fs SysLstat p then inl (PathError SysLstat p EIO)
  else if String.eqb p "" then inl (PathError SysLstat p ENOENT)
  else match lookup_path (path_components p) (tree fs) with
       | Some n => inr (mkFileInfo (filepath_Base p) n)
       | None => inl (PathError SysLstat p (missing (path_components p) (tree fs)))
       end.

(** The names in the directory that [walk] has just examined. *)
Definition readDirNames (fs : FS) (p : string) : error + list string :=
  if fault fs SysReadDir p then inl (PathError SysReadDir p EIO)
  else match lookup_path (path_components p) (tree fs) with
       | Some (Dir es) => inr (es.*1)
       | Some (File _) => inl (PathError SysReadDir p ENOTDIR)
       | None => inl (PathError SysReadDir p (missing (path_components p) (tree fs)))
       end.

(** [os.Open]: the file or directory at the path.  It is not there
    ([ENOENT]), or a step of the path is a regular file ([ENOTDIR]). *)
Definition os_Open (fs : FS) (p : string) : error + node :=
  if fault fs SysOpen p then inl (PathError SysOpen p EIO)
  else if String.eqb p "" then inl (PathError SysOpen p ENOENT)
  else match lookup_path (path_components p) (tree fs) with
       | Some n => inr n
       | None => inl (PathError SysOpen p (missing (path_components p) (tree fs)))
       end.

(** Reading an open file to its end. *)
Definition read_all (fs : FS) (p : string) (n : node) : error + string :=
  if fault fs SysRead p then inl (PathError SysRead p EIO)
  else match n with
       | File c => inr c
       | Dir _ => inl (PathError SysRead p EISDIR)
       end.

(** [os.Create]: creates the file or truncates it. *)
Definition os_Create (fs : FS) (p : string) : error + FS :=
  if fault fs SysCreate p then inl (PathError SysCreate p EIO)
  else match put_file (path_components p) "" (tree fs) with
       | inr r => inr (with_root fs r)
       | inl e => inl (PathError SysCreate p e)
       end.

(** Writing the whole content to a file just created. *)
Definition write_all (fs : FS) (p : string) (content : string) : error + FS :=
  if fault fs SysWrite p then inl (PathError SysWrite p EIO)
  else match put_file (path_components p) content (tree fs) with
       | inr r => inr (with_root fs r)
       | inl e => inl (PathError SysWrite p e)
       end.

Definition os_Remove (fs : FS) (p : string) : error + FS :=
  if fault fs SysRemove p then inl (PathError SysRemove p EIO)
  else match remove_path (path_components p) (tree fs) with
       | inr r => inr (with_root fs r)
       | inl e => inl (PathError SysRemove p e)
       end.

Definition os_MkdirAll (fs : FS) (p : string) : error + FS :=
  if fault fs SysMkdir p then inl (PathError SysMkdir p EIO)
  else if String.eqb p "" then inl (PathError SysMkdir p ENOENT)
  else match mkdir_all (path_components p) (tree fs) with
       | inr r => inr (with_root fs r)
       | inl e => inl (PathError SysMkdir p e)
       end.

(** ** Walking a directory tree: [filepath.Walk]

    The function called at each file receives either the file's [FileInfo],
    or the error met at that path (with the [FileInfo] when there is one).
    The functions of this package never answer [SkipDir], which is left out. *)

Inductive walk_arg :=
  | Visit (info : FileInfo)
  | VisitErr (info : option FileInfo) (err : error).

Section Walk.
(** [A] is the state the walk function captures and updates. *)
Context {A : Type}.

Definition WalkFunc := string → walk_arg → FS * A → option error * (FS * A).

(** The loop of [walk] over the names read from a directory; [rec] walks
    one entry. *)
Fixpoint walk_names (rec : string → FileInfo → FS * A → option error * (FS * A))
    (fn : WalkFunc) (path : string) (names : list string) (st : FS * A)
  : option error * (FS * A) :=
  match names with
  | [] => (None, st)
  | name :: names' =>
      let filename := filepath_Join path name in
      let '(err, st') :=
        match os_Lstat st.1 filename with
        | inl err => fn filename (VisitErr None err) st
        | inr fileInfo => rec filename fileInfo st
        end in
      match err with
      | Some e => (Some e, st')
      | None => walk_names rec fn path names' st'
      end
  end.

Definition out_of_fuel : error := ErrorString "walk: tree deeper than expected".

Fixpoint walk (fuel : nat) (fn : WalkFunc) (path : string) (info : FileInfo)
    (st : FS * A) : option error * (FS * A) :=
  match fuel with
  | O => (Some out_of_fuel, st)
  | S fuel' =>
      if negb (IsDir info) then fn path (Visit info) st
      else
        let names := readDirNames st.1 path in
        let '(err1, st1) :=
          match names with
          | inl err => fn path (VisitErr (Some info) err) st
          | inr _ => fn path (Visit info) st
          end in
        match names, err1 with
        | inr ns, None => walk_names (walk fuel' fn) fn path ns st1
        | _, _ => (err1, st1)
        end
  end.

(** [filepath.Walk(root, fn)].  The recursion is as deep as the tree is
    high at the start, which bounds it as long as [fn] adds no
    directory. *)
Definition filepath_Walk (root : string) (fn : WalkFunc) (st : FS * A)
  : option error * (FS * A) :=
  match os_Lstat st.1 root with
  | inl err => fn root (VisitErr None err) st
  | inr info => walk (S (height (tree st.1))) fn root info st
  end.
End Walk.

(** A walk whose function leaves the file system alone amounts to a fold
    over the tree: the directory first, then its entries in order. *)
Fixpoint walk_fold {A : Type} (step : FileInfo → A → A) (name : string) (n : node)
    (acc : A) : A :=
  match n with
  | File _ => step (mkFileInfo name n) acc
  | Dir es =>
      fold_left (λ acc e, walk_fold step e.1 e.2 acc) es (step (mkFileInfo name n) acc)
  end.

(** [P] holds of every file and directory of the tree, with its name. *)
Fixpoint all_nodes (P : string → node → Prop) (name : string) (n : node) : Prop :=
  P name n ∧
  match n with
  | File _ => True
  | Dir es => foldr (λ e R, all_nodes P e.1 e.2 ∧ R) True es
  end.

(** The sizes of the regular files that are entries of the directory
    itself, added up. *)
Definition direct_files_size (n : node) : Z :=
  match n with
  | File _ => 0
  | Dir es =>
      foldr (λ e total,
               match e.2 with
               | File content => Z.of_nat (String.length content) + total
               | Dir _ => total
               end) 0 es
  end.

(** The tree without the entries named [xs] of the directory at [p]. *)
Definition delete_entries (p : list string) (xs : list string) (n : node) : node :=
  fold_left (λ n x, map_dir p (del_entry x) n) xs n.

(** ** Go's 64-bit integers *)

Definition wrap64 (z : Z) : Z := (z + 2 ^ 63) mod 2 ^ 64 - 2 ^ 63.

(** What the walk function of [GetTotalSize] does to [totalSize] at a
    file. *)
Definition add_size (info : FileInfo) (totalSize : Z) : Z :=
  if negb (IsDir info) then wrap64 (totalSize + Size info) else totalSize.

(** ** The cache *)

(** [var Ext = ".cache"]: a variable of the package, which its clients can
    assign.  [NewCacher], [RemoveBucket] and [RemoveAllBy] read it when they
    are called: they take its value then as [Ext].  [default_Ext] is the
    value it has unless one assigns it. *)
Definition default_Ext : string := ".cache".

(** Modelled from the spec: [ToPtr], the helper [Set] calls on the expiration
    time, whose definition is not among the sources.  The spec has [set]
    store [expiration = now + ttl], so [ToPtr] yields a pointer to its
    argument; a pointer that may be [nil] is an [option]. *)
Definition ToPtr {A : Type} (a : A) : option A := Some a.

Record Bucket := mkBucket {
  name : string;
  ttl : Duration;
}.

Definition NewBucket (name : string) (ttl : Duration) : Bucket :=
  {| name := name; ttl := ttl |}.

Definition Bucket_Name (b : Bucket) : string := name b.
Definition Bucket_TTL (b : Bucket) : Duration := ttl b.

(** The entries of the cache directory [RemoveAllBy] is to delete: the
    regular files whose name has the suffix [Ext] and passes the filter. *)
Definition removable (Ext : string) (filter : string → bool) (e : string * node) : bool :=
  match e.2 with
  | File _ => strings_HasSuffix e.1 Ext && filter e.1
  | Dir _ => false
  end.

(** Below a subdirectory of the cache directory, no file is one to delete. *)
Definition nothing_to_remove (Ext : string) (filter : string → bool) (name : string)
    (n : node) : Prop :=
  removable Ext filter (name, n) = false.

Definition subdirs_quiet (Ext : string) (filter : string → bool)
    (es : list (string * node)) : Prop :=
  ∀ x sub, (x, Dir sub) ∈ es → all_nodes (nothing_to_remove Ext filter) x (Dir sub).

Section Filecache.
(** The payloads, Go's [interface{}]. *)
Context {any : Type}.

(** The value of the package variable [Ext] at the time of the call. *)
Variable Ext : string.

Record cacheItem := mkItem {
  Value : any;
  Expiration : option Time;
}.

Record CacheStore := mkStore {
  filePath : string;
  data : gmap string cacheItem;
}.

Record Cacher := mkCacher {
  dir : string;
  stores : gmap string CacheStore;
  ext : string;
}.

(** [json.Marshal] of a payload. *)
Variable json_Marshal : any → error + string.
(** [json.NewEncoder(file).Encode(cs.data)]: the bytes written for a
    bucket. *)
Variable json_Encode : gmap string cacheItem → error + string.
(** [json.NewDecoder(file).Decode(&cs.data)]: the entries read from the
    bytes of a bucket file. *)
Variable json_Decode : string → error + gmap string cacheItem.

(** The state the operations run on: the cacher and the file system.  A
    [*CacheStore] is reachable through the registry only, so the store of
    a bucket is the registry's entry. *)
Definition State : Type := Cacher * FS.
Definition M (R : Type) : Type := State → R * State.

Definition ret {R} (r : R) : M R := λ st, (r, st).
Definition bind {R S} (m : M R) (k : R → M S) : M S :=
  λ st, let '(r, st') := m st in k r st'.

Notation "'let*' x ':=' m 'in' k" := (bind m (λ x, k))
  (at level 10, x name, m at level 100, k at level 200).

Definition on_fs {R} (f : FS → R * FS) : M R :=
  λ '(c, fs), let '(r, fs') := f fs in (r, (c, fs')).

Definition with_data (cs : CacheStore) (d : gmap string cacheItem) : CacheStore :=
  {| filePath := filePath cs; data := d |}.

Definition with_stores (c : Cacher) (m : gmap string CacheStore) : Cacher :=
  {| dir := dir c; stores := m; ext := ext c |}.

(** Writes through the pointer to the store of a bucket. *)
Definition store_set (name : string) (cs : CacheStore) : M unit :=
  λ '(c, fs), (tt, (with_stores c (<[name := cs]> (stores c)), fs)).

Definition NewCacher (dir : string) : FS → (Cacher * option error) * FS :=
  λ fs,
    let fs' := match os_MkdirAll fs dir with inr fs' => fs' | inl _ => fs end in
    (({| dir := dir; stores := ∅; ext := Ext |}, None), fs').

Definition NewCacherWithExt (dir ext : string) : FS → (Cacher * option error) * FS :=
  λ fs,
    let fs' := match os_MkdirAll fs dir with inr fs' => fs' | inl _ => fs end in
    (({| dir := dir; stores := ∅; ext := ext |}, None), fs').

Definition CacheStore_loadFromFile (cs : CacheStore) (fs : FS)
  : option error * CacheStore :=
  match os_Open fs (filePath cs) with
  | inl err =>
      if os_IsNotExist err then (None, cs)
      else (Some (Errorf "filecache: failed to open cache file" err), cs)
  | inr file =>
      match read_all fs (filePath cs) file with
      | inl err => (Some (Errorf "filecache: failed to decode cache data" err), cs)
      | inr bytes =>
          match json_Decode bytes with
          | inl err => (Some (Errorf "filecache: failed to decode cache data" err), cs)
          | inr m => (None, with_data cs (m ∪ data cs))
          end
      end
  end.

Definition CacheStore_saveToFile (cs : CacheStore) (fs : FS) : option error * FS :=
  match os_Create fs (filePath cs) with
  | inl err => (Some (Errorf "filecache: failed to create cache file" err), fs)
  | inr fs1 =>
      match json_Encode (data cs) with
      | inl err => (Some (Errorf "filecache: failed to encode cache data" err), fs1)
      | inr bytes =>
          match write_all fs1 (filePath cs) bytes with
          | inl err => (Some (Errorf "filecache: failed to encode cache data" err), fs1)
          | inr fs2 => (None, fs2)
          end
      end
  end.

(** The loop of [Close] over the registry: [order] is the order in which
    the iteration over the map produces the names of the buckets.  The
    first store that fails to persist ends the loop with its error. *)
Fixpoint close_loop (order : list string) (c : Cacher) (fs : FS) : option error * FS :=
  match order with
  | [] => (None, fs)
  | name :: order' =>
      match stores c !! name with
      | None => close_loop order' c fs
      | Some store =>
          match CacheStore_saveToFile store fs with
          | (Some err, fs') => (Some err, fs')
          | (None, fs') => close_loop order' c fs'
          end
      end
  end.

Definition Cacher_Close (order : list string) : M (option error) :=
  λ '(c, fs), let '(err, fs') := close_loop order c fs in (err, (c, fs')).

Definition Cacher_getStore (name : string) : M (error + CacheStore) :=
  λ '(c, fs),
    match stores c !! name with
    | Some store => (inr store, (c, fs))
    | None =>
        let store := {| filePath := filepath_Join (dir c) (name +:+ ".cache");
                        data := ∅ |} in
        match CacheStore_loadFromFile store fs with
        | (Some err, _) => (inl err, (c, fs))
        | (None, store) =>
            (inr store, (with_stores c (<[name := store]> (stores c)), fs))
        end
    end.

(** [item.Expiration != nil && time.Now().After( *item.Expiration)] *)
Definition expired (now : Time) (item : cacheItem) : bool :=
  match Expiration item with
  | Some e => time_After now e
  | None => false
  end.

Definition Cacher_Set (bucketName : string) (now : Time) (ttl : Duration)
    (key : string) (value : any) : M (option error) :=
  let* r := Cacher_getStore bucketName in
  match r with
  | inl err => ret (Some err)
  | inr store =>
      let item := {| Value := value; Expiration := ToPtr (time_Add now ttl) |} in
      let store := with_data store (<[key := item]> (data store)) in
      let* _ := store_set bucketName store in
      on_fs (CacheStore_saveToFile store)
  end.

Definition Cacher_Delete (bucketName : string) (key : string) : M (option error) :=
  let* r := Cacher_getStore bucketName in
  match r with
  | inl err => ret (Some err)
  | inr store =>
      let store := with_data store (delete key (data store)) in
      let* _ := store_set bucketName store in
      on_fs (CacheStore_saveToFile store)
  end.

Definition Cacher_EmptyBucket (bucketName : string) : M (option error) :=
  let* r := Cacher_getStore bucketName in
  match r with
  | inl err => ret (Some err)
  | inr store =>
      let store := with_data store ∅ in
      let* _ := store_set bucketName store in
      on_fs (CacheStore_saveToFile store)
  end.

Definition Cacher_RemoveBucket (bucketName : string) : M (option error) :=
  λ '(c, fs),
    let c' := match stores c !! bucketName with
              | Some _ => with_stores c (delete bucketName (stores c))
              | None => c
              end in
    let fs' := match os_Remove fs (filepath_Join (dir c) (bucketName +:+ Ext)) with
               | inr fs' => fs'
               | inl _ => fs
               end in
    (None, (c', fs')).

(** The loop of [CleanBucket]: the keys in the order of the walk, each
    with the clock read at its turn.  A key no longer in the map is not
    produced by the iteration. *)
Fixpoint clean_loop (sched : list (string * Time)) (d : gmap string cacheItem)
  : gmap string cacheItem :=
  match sched with
  | [] => d
  | (key, now) :: sched' =>
      match d !! key with
      | None => clean_loop sched' d
      | Some item =>
          if expired now item then clean_loop sched' (delete key d)
          else clean_loop sched' d
      end
  end.

Definition Cacher_CleanBucket (bucketName : string) (sched : list (string * Time))
  : M (option error) :=
  let* r := Cacher_getStore bucketName in
  match r with
  | inl err => ret (Some err)
  | inr store =>
      let store := with_data store (clean_loop sched (data store)) in
      let* _ := store_set bucketName store in
      on_fs (CacheStore_saveToFile store)
  end.

Definition Cacher_SetFrozen (bucketName : string) (key : string) (value : any)
  : M (option error) :=
  let* r := Cacher_getStore bucketName in
  match r with
  | inl err => ret (Some err)
  | inr store =>
      let item := {| Value := value; Expiration := None |} in
      let store := with_data store (<[key := item]> (data store)) in
      let* _ := store_set bucketName store in
      on_fs (CacheStore_saveToFile store)
  end.

(** *** Operations that decode into a type chosen by the caller *)

Section Typed.
(** The target type, its zero value ([var out T]), and [json.Unmarshal]
    into a [*T]: the value the pointer holds afterwards, and the error. *)
Context {T : Type}.
Variable zero : T.
Variable json_Unmarshal : string → T → option error * T.

Definition Cacher_Get (bucketName : string) (now : Time) (key : string) (out : T)
  : M (bool * option error * T) :=
  let* r := Cacher_getStore bucketName in
  match r with
  | inl err => ret (false, Some err, out)
  | inr store =>
      match data store !! key with
      | None => ret (false, None, out)
      | Some item =>
          if expired now item then
            let store := with_data store (delete key (data store)) in
            let* _ := store_set bucketName store in
            let* _ := on_fs (CacheStore_saveToFile store) in
            ret (false, None, out)
          else
            match json_Marshal (Value item) with
            | inl err => ret (false, Some err, out)
            | inr bytes =>
                let '(err, out') := json_Unmarshal bytes out in
                ret (true, err, out')
            end
      end
  end.

Definition Cacher_GetFrozen (bucketName : string) (key : string) (out : T)
  : M (bool * option error * T) :=
  let* r := Cacher_getStore bucketName in
  match r with
  | inl err => ret (false, Some err, out)
  | inr store =>
      match data store !! key with
      | None => ret (false, None, out)
      | Some item =>
          match json_Marshal (Value item) with
          | inl err => ret (false, Some err, out)
          | inr bytes =>
              let '(err, out') := json_Unmarshal bytes out in
              ret (true, err, out')
          end
      end
  end.

(** [json.Marshal(item.Value)] and then [json.Unmarshal(itemVal, &out)]
    into a fresh [out]. *)
Definition decode (item : cacheItem) : error + T :=
  match json_Marshal (Value item) with
  | inl err => inl err
  | inr itemVal =>
      match json_Unmarshal itemVal zero with
      | (Some err, _) => inl err
      | (None, out) => inr out
      end
  end.

Section Range.
(** What the visitor captures; it answers whether to go on. *)
Context {A : Type}.
Variable f : string → T → A → bool * A.

(** The loop of [Range].  [Some err]: the function returned [err] from
    inside the loop; [None]: the loop ended, by exhaustion or
    [break]. *)
Fixpoint range_loop (sched : list (string * Time))
    (d : gmap string cacheItem) (acc : A)
  : option error * gmap string cacheItem * A :=
  match sched with
  | [] => (None, d, acc)
  | (key, now) :: sched' =>
      match d !! key with
      | None => range_loop sched' d acc
      | Some item =>
          if expired now item then range_loop sched' (delete key d) acc
          else
            match decode item with
            | inl err => (Some err, d, acc)
            | inr out =>
                let '(continue, acc') := f key out acc in
                if continue then range_loop sched' d acc'
                else (None, d, acc')
            end
      end
  end.

Definition Range (bucketName : string) (sched : list (string * Time)) (acc : A)
  : M (option error * A) :=
  let* r := Cacher_getStore bucketName in
  match r with
  | inl err => ret (Some err, acc)
  | inr store =>
      let '(err, d, acc') := range_loop sched (data store) acc in
      let store := with_data store d in
      let* _ := store_set bucketName store in
      match err with
      | Some err => ret (Some err, acc')
      | None =>
          let* err := on_fs (CacheStore_saveToFile store) in
          ret (err, acc')
      end
  end.
End Range.

(** The store a [*CacheStore] obtained earlier points to now. *)
Definition deref (bucketName : string) (store : CacheStore) : M CacheStore :=
  λ '(c, fs), (default store (stores c !! bucketName), (c, fs)).

(** The result is [None] where Go returns a [nil] map. *)
Definition GetAll (bucketName : string) (sched : list (string * Time))
  : M (option (gmap string T) * option error) :=
  let* r := Cacher_getStore bucketName in
  match r with
  | inl err => ret (None, Some err)
  | inr store =>
      let* res :=
        Range (λ key value data, (true, <[key := value]> data))
              bucketName sched (∅ : gmap string T) in
      let '(err, data) := res in
      match err with
      | Some err => ret (None, Some err)
      | None =>
          let* store := deref bucketName store in
          let* err := on_fs (CacheStore_saveToFile store) in
          ret (Some data, err)
      end
  end.

(** The loop of [DeleteIf] over the keys in the order of the walk. *)
Fixpoint deleteIf_loop (cond : string → T → bool) (order : list string)
    (d : gmap string cacheItem) : option error * gmap string cacheItem :=
  match order with
  | [] => (None, d)
  | key :: order' =>
      match d !! key with
      | None => deleteIf_loop cond order' d
      | Some item =>
          match decode item with
          | inl err => (Some err, d)
          | inr out =>
              if cond key out then deleteIf_loop cond order' (delete key d)
              else deleteIf_loop cond order' d
          end
      end
  end.

Definition DeleteIf (bucketName : string) (order : list string)
    (cond : string → T → bool) : M (option error) :=
  let* r := Cacher_getStore bucketName in
  match r with
  | inl err => ret (Some err)
  | inr store =>
      let '(err, d) := deleteIf_loop cond order (data store) in
      let store := with_data store d in
      let* _ := store_set bucketName store in
      match err with
      | Some err => ret (Some err)
      | None => on_fs (CacheStore_saveToFile store)
      end
  end.

(** [value] is encodable, and decoding its encoding into a [T] gives
    [v]: the two are deep-equal through the codec. *)
Definition round_trips (value : any) (v : T) : Prop :=
  ∃ bytes, json_Marshal value = inr bytes ∧
           ∀ out, json_Unmarshal bytes out = (None, v).

(** What [DeleteIf] is to leave: the entries whose decoded value the
    predicate does not hold of. *)
Definition matches (cond : string → T → bool) (key : string) (item : cacheItem) : bool :=
  match decode item with
  | inr out => cond key out
  | inl _ => false
  end.

Definition without_matching (cond : string → T → bool)
    (d : gmap string cacheItem) : gmap string cacheItem :=
  filter (λ kv, matches cond kv.1 kv.2 = false) d.

(** Every entry of the map decodes into a [T]. *)
Definition all_decode (d : gmap string cacheItem) : Prop :=
  ∀ k item, d !! k = Some item → ∃ out, decode item = inr out.

(** *** What [Range] is to do, step by step

    The walk reaches the scheduled entries in turn.  An entry is live
    when the map holds it and it has not expired when the walk reaches
    it. *)
Definition is_live (d : gmap string cacheItem) (e : string * Time) : bool :=
  match d !! e.1 with
  | Some item => negb (expired e.2 item)
  | None => false
  end.

Definition is_expired (d : gmap string cacheItem) (e : string * Time) : bool :=
  match d !! e.1 with
  | Some item => expired e.2 item
  | None => false
  end.

(** The live entries in the order of the walk, decoded. *)
Definition live_entries (d : gmap string cacheItem) (sched : list (string * Time))
  : list (string * T) :=
  omap (λ e, if is_live d e then
               match d !! e.1 with
               | Some item =>
                   match decode item with
                   | inr out => Some (e.1, out)
                   | inl _ => None
                   end
               | None => None
               end
             else None) sched.

(** The visitor called on the decoded entries in turn until it signals
    stop: how many calls went on before the one that stopped, if one
    did, and what the visitor has captured. *)
Fixpoint visit {A} (f : string → T → A → bool * A) (l : list (string * T)) (acc : A)
  : option nat * A :=
  match l with
  | [] => (None, acc)
  | (key, out) :: l' =>
      let '(continue, acc') := f key out acc in
      if continue then
        let '(stop, acc'') := visit f l' acc' in (S <$> stop, acc'')
      else (Some O, acc')
  end.

(** The part of the walk up to the live entry where the visitor stopped,
    [n] live entries having gone before it. *)
Fixpoint upto_stop (d : gmap string cacheItem) (sched : list (string * Time)) (n : nat)
  : list (string * Time) :=
  match sched with
  | [] => []
  | e :: sched' =>
      if is_live d e then
        match n with
        | O => [e]
        | S n' => e :: upto_stop d sched' n'
        end
      else e :: upto_stop d sched' n
  end.

(** The map [m] without the entries of [d] found expired on the part
    [walked] of the walk. *)
Definition evict (d : gmap string cacheItem) (walked : list (string * Time))
    (m : gmap string cacheItem) : gmap string cacheItem :=
  fold_left (λ m e, if is_expired d e then delete e.1 m else m) walked m.

(** Every live entry of the walk decodes into a [T]. *)
Definition live_decode (d : gmap string cacheItem) (sched : list (string * Time)) : Prop :=
  ∀ k now item, (k, now) ∈ sched → d !! k = Some item →
                expired now item = false → ∃ out, decode item = inr out.
End Typed.

(** *** Operations on the whole directory *)

Definition removeAllBy_fn (c : Cacher) (filter : string → bool) : @WalkFunc unit :=
  λ _ arg st,
    match arg with
    | VisitErr _ err => (Some err, st)
    | Visit info =>
        if negb (IsDir info) then
          if negb (strings_HasSuffix (Name info) Ext) then (None, st)
          else if filter (Name info) then
            match os_Remove st.1 (filepath_Join (dir c) (Name info)) with
            | inl err => (Some (Errorf "filecache: failed to remove file" err), st)
            | inr fs' => (None, (fs', st.2))
            end
          else (None, st)
        else (None, st)
    end.

Definition Cacher_RemoveAllBy (filter : string → bool) : M (option error) :=
  λ '(c, fs),
    let '(err, (fs', _)) := filepath_Walk (dir c) (removeAllBy_fn c filter) (fs, tt) in
    (err, (with_stores c ∅, fs')).

(** The walk function of [GetTotalSize] captures [totalSize]. *)
Definition getTotalSize_fn : @WalkFunc Z :=
  λ _ arg st,
    match arg with
    | VisitErr _ err => (Some err, st)
    | Visit info =>
        if negb (IsDir info) then (None, (st.1, wrap64 (st.2 + Size info)))
        else (None, st)
    end.

Definition Cacher_GetTotalSize : M (Z * option error) :=
  λ '(c, fs),
    let '(err, (fs', totalSize)) := filepath_Walk (dir c) getTotalSize_fn (fs, 0) in
    match err with
    | Some err =>
        ((0, Some (Errorf "filecache: failed to walk the cache directory" err)), (c, fs'))
    | None => ((totalSize, None), (c, fs'))
    end.

(** *** Notions the properties are stated with *)

(** The backing file of the store holds the encoding of its map. *)
Definition persisted (cs : CacheStore) (fs : FS) : Prop :=
  ∃ bytes, json_Encode (data cs) = inr bytes ∧
           lookup_path (path_components (filePath cs)) (tree fs) = Some (File bytes).

(** The store of the bucket after a call that returned no error is the
    one the file holds. *)
Definition persisted_bucket (bucketName : string) (st : State) : Prop :=
  ∃ cs, stores st.1 !! bucketName = Some cs ∧ persisted cs st.2.

(** How a call that is to persist the store of a bucket ends: with an error
    met before any file was touched, or with the very result of
    [saveToFile] on the store the call leaves in the registry. *)
Definition persist_outcome (bucketName : string) (st : State) (r : option error)
    (st' : State) : Prop :=
  (∃ err, r = Some err ∧ st'.2 = st.2) ∨
  (∃ cs fs1, stores st'.1 !! bucketName = Some cs ∧
             CacheStore_saveToFile cs fs1 = (r, st'.2)).

(** The shape shared by [Set], [SetFrozen], [Delete], [EmptyBucket] and
    [CleanBucket]: resolve the store, change its map, persist. *)
Definition update_and_save (bucketName : string)
    (g : gmap string cacheItem → gmap string cacheItem)
  : M (option error) :=
  bind (Cacher_getStore bucketName) (λ r,
    match r with
    | inl err => ret (Some err)
    | inr store =>
        let store := with_data store (g (data store)) in
        bind (store_set bucketName store) (λ _, on_fs (CacheStore_saveToFile store))
    end).
(** The stores of the registry have backing files of their own. *)
Definition separate_files (c : Cacher) : Prop :=
  ∀ n1 n2 s1 s2, n1 ≠ n2 → stores c !! n1 = Some s1 → stores c !! n2 = Some s2 →
                 path_components (filePath s1) ≠ path_components (filePath s2).
(** An operation on a bucket has left the rest alone: the directory and the
    extension of the cacher, the other buckets of the registry, the faults
    of the file system, and every regular file but the bucket's own. *)
Definition elsewhere_untouched (bucketName : string) (st st' : State) : Prop :=
  dir st'.1 = dir st.1 ∧ ext st'.1 = ext st.1 ∧
  (∀ other, other ≠ bucketName → stores st'.1 !! other = stores st.1 !! other) ∧
  fault st'.2 = fault st.2 ∧
  (∀ q content,
     lookup_path q (tree st.2) = Some (File content) →
     (∀ cs, stores st'.1 !! bucketName = Some cs → q ≠ path_components (filePath cs)) →
     lookup_path q (tree st'.2) = Some (File content)).
End Filecache.

Arguments cacheItem : clear implicits.
Arguments CacheStore : clear implicits.
Arguments Cacher : clear implicits.
Arguments State : clear implicits.

(** ** A small instance, for examples

    Payloads are raw JSON texts (Go's [json.RawMessage]), which marshal to
    themselves and unmarshal to a copy of the input. *)
Module Example.
Definition RawMessage := string.

Definition Marshal (v : RawMessage) : error + string := inr v.

Definition Unmarshal (bytes : string) (out : RawMessage)
  : option error * RawMessage := (None, bytes).

(** One line for each entry: the key and the payload. *)
Definition Encode (d : gmap string (cacheItem RawMessage)) : error + string :=
  inr (foldr (λ kv acc, kv.1 +:+ " " +:+ Value kv.2 +:+ ";" +:+ acc) ""
             (map_to_list d)).

(** Recognises the encoding of a bucket without entries; the examples load
    no other file. *)
Definition Decode (bytes : string) : error + gmap string (cacheItem RawMessage) :=
  if String.eqb bytes "" then inr ∅
  else inl (JSONError "invalid character").

Definition fs0 : FS := {| tree := Dir [("d", Dir [])]; fault := no_fault |}.

Definition item (v : RawMessage) (e : option Z) : cacheItem RawMessage :=
  {| Value := v; Expiration := e |}.

(** A cacher whose bucket ["b"] is loaded and holds one entry that expires
    at instant 10. *)
Definition loaded : Cacher RawMessage :=
  {| dir := "d";
     stores := {[ "b" := {| filePath := "d/b.cache";
                            data := {[ "k" := item "1" (Some 10) ]} |} ]};
     ext := ".cache" |}.

(** A file system in which the cache directory is gone. *)
Definition no_dir : FS := {| tree := Dir []; fault := no_fault |}.

(** An empty cacher on the directory ["d"], and the state after
    [Set("b", 5, "k", "1")] at instant 0. *)
Definition c0 : Cacher RawMessage := {| dir := "d"; stores := ∅; ext := ".cache" |}.

Definition after_set : State RawMessage :=
  ({| dir := "d";
      stores := {[ "b" := {| filePath := "d/b.cache";
                             data := {[ "k" := item "1" (Some 5) ]} |} ]};
      ext := ".cache" |},
   {| tree := Dir [("d", Dir [("b.cache", File "k 1;")])]; fault := no_fault |}).

Definition after_setFrozen : State RawMessage :=
  ({| dir := "d";
      stores := {[ "b" := {| filePath := "d/b.cache";
                             data := {[ "k" := item "1" None ]} |} ]};
      ext := ".cache" |},
   {| tree := Dir [("d", Dir [("b.cache", File "k 1;")])]; fault := no_fault |}).

(** A bucket with an entry that expired at instant 10 and a frozen one. *)
Definition two_entries : gmap string (cacheItem RawMessage) :=
  {[ "k" := item "1" (Some 10); "f" := item "2" None ]}.

Definition loaded2 : Cacher RawMessage :=
  {| dir := "d";
     stores := {[ "b" := {| filePath := "d/b.cache"; data := two_entries |} ]};
     ext := ".cache" |}.

Definition only_frozen : State RawMessage :=
  ({| dir := "d";
      stores := {[ "b" := {| filePath := "d/b.cache";
                             data := {[ "f" := item "2" None ]} |} ]};
      ext := ".cache" |},
   {| tree := Dir [("d", Dir [("b.cache", File "f 2;")])]; fault := no_fault |}).

(** A cache directory with a two-byte file and, in a subdirectory, a
    five-byte file. *)
Definition cache_dir : node :=
  Dir [("a.cache", File "xy"); ("sub", Dir [("f", File "12345")])].

Definition nested : FS := {| tree := Dir [("d", cache_dir)]; fault := no_fault |}.

(** A cache directory with two cache files, another file, and a
    subdirectory that holds no cache file. *)
Definition mixed_dir : node :=
  Dir [("a.cache", File "1"); ("b.cache", File "22"); ("notes.txt", File "333");
       ("sub", Dir [("f", File "4444")])].

Definition mixed : FS := {| tree := Dir [("d", mixed_dir)]; fault := no_fault |}.

Definition only_b (filename : string) : bool := String.eqb filename "b.cache".

(** A cache file below a subdirectory of the cache directory. *)
Definition nested_only : FS :=
  {| tree := Dir [("d", Dir [("sub", Dir [("x.cache", File "1")])])];
     fault := no_fault |}.

(** The same, next to an empty directory of that name in the cache
    directory. *)
Definition nested_twin : FS :=
  {| tree := Dir [("d", Dir [("x.cache", Dir []);
                             ("y", Dir [("x.cache", File "1")])])];
     fault := no_fault |}.

Definition every_file (filename : string) : bool := true.

(** An encoder that refuses the payload ["{"], an incomplete JSON text, as
    [json.Marshal] refuses a [RawMessage] that is not valid JSON. *)
Definition Encode_checked (d : gmap string (cacheItem RawMessage)) : error + string :=
  if forallb (λ kv, negb (String.eqb (Value kv.2) "{")) (map_to_list d) then Encode d
  else inl (JSONError "unexpected end of JSON input").

(** A decoder that recognises, besides the empty bucket, the file that
    [Set("b", 5, "k", "1")] at instant 0 writes. *)
Definition Decode_k1 (bytes : string) : error + gmap string (cacheItem RawMessage) :=
  if String.eqb bytes "" then inr ∅
  else if String.eqb bytes "k 1;" then inr {[ "k" := item "1" (Some 5) ]}
  else inl (JSONError "invalid character").

(** Unmarshalling into a number: the text has to be made of digits. *)
Definition is_digit (a : ascii) : bool :=
  (48 <=? nat_of_ascii a)%nat && (nat_of_ascii a <=? 57)%nat.

Definition Unmarshal_number (bytes : string) (out : RawMessage)
  : option error * RawMessage :=
  if forallb is_digit (list_ascii_of_string bytes) then (None, bytes)
  else (Some (JSONError "cannot unmarshal string into a number"), out).


(** The file system after [Set("b", 5, "k", "1")], with the file of
    another bucket beside it, and the same when nothing can be removed. *)
Definition two_buckets : FS :=
  {| tree := Dir [("d", Dir [("a.cache", File "x 0;"); ("b.cache", File "k 1;")])];
     fault := no_fault |}.

Definition no_removal : FS :=
  {| tree := Dir [("d", Dir [("b.cache", File "k 1;")])];
     fault := λ sc _, match sc with SysRemove => true | _ => false end |}.

(** A bucket with two numbers, and a text between them in the order of
    the keys. *)
Definition numbers_and_text : Cacher RawMessage :=
  {| dir := "d";
     stores := {[ "b" := {| filePath := "d/b.cache";
                            data := {[ "a" := item "1" None; "m" := item "one" None;
                                       "z" := item "1" None ]} |} ]};
     ext := ".cache" |}.


End Example.

(** * Properties *)

(** Membership in a list with a known head. *)
Ltac elem_cons :=
  intros;
  repeat match goal with
    | H : _ ∈ [] |- _ => by apply elem_of_nil in H
    | H : _ ∈ _ :: _ |- _ => apply elem_of_cons in H as [H|H]
    | H : _ ∉ _ :: _ |- _ => apply not_elem_of_cons in H as [? ?]
    end;
  subst; try done;
  try (apply elem_of_cons; by auto);
  try (apply not_elem_of_cons; by auto).

(** ** The file system *)

Lemma assoc_set_entry x n es : assoc x (set_entry x n es) = Some n.
Proof.
  induction es as [|[y m] es IH]; simpl.
  - by rewrite String.eqb_refl.
  - destruct (String.eqb x y) eqn:E; simpl.
    + by rewrite String.eqb_refl.
    + destruct (String.ltb x y); simpl; rewrite ?String.eqb_refl, ?E; done.
Qed.

Lemma put_file_lookup p content n n' :
  put_file p content n = inr n' → lookup_path p n' = Some (File content).
Proof.
  revert n n'. induction p as [|x p IH]; intros [c|es] n'; simpl; try done.
  - by intros [= <-].
  - destruct (assoc x es) as [child|] eqn:Hx.
    + destruct (put_file p content child) as [e|child'] eqn:Hp; [done|].
      intros [= <-]. simpl. rewrite assoc_set_entry. eauto.
    + destruct p; [|done]. intros [= <-]. simpl. by rewrite assoc_set_entry.
Qed.

(** ** Paths *)

Lemma append_cons c (s t : string) : String c s +:+ t = String c (s +:+ t).
Proof. reflexivity. Qed.

Lemma append_nil_r (s : string) : s +:+ "" = s.
Proof. induction s as [|c s IH]; [done|]. by rewrite append_cons, IH. Qed.

Lemma append_snoc (s : string) c t : (s +:+ String c "") +:+ t = s +:+ String c t.
Proof. induction s as [|c' s IH]; [done|]. by rewrite !append_cons, IH. Qed.

Lemma components_from_no_slash name cur :
  has_slash name = false → components_from name cur = [cur +:+ name].
Proof.
  revert cur. induction name as [|c name IH]; intros cur; cbn [components_from has_slash].
  - by rewrite append_nil_r.
  - intros [Hc Hname]%orb_false_elim. rewrite Hc, IH by done.
    by rewrite append_snoc.
Qed.

Lemma components_from_app p s cur :
  components_from (p +:+ String slash s) cur =
  (components_from p cur ++ components_from s "")%list.
Proof.
  revert cur. induction p as [|c p IH]; intros cur; [done|].
  rewrite append_cons. cbn [components_from].
  destruct (Ascii.eqb c slash); by rewrite IH.
Qed.

(** The path of an entry of a directory resolves to the steps of the
    directory followed by the name of the entry. *)
Lemma path_components_Join p name :
  valid_name name = true →
  path_components (filepath_Join p name) = (path_components p ++ [name])%list.
Proof.
  intros [Hcomp Hslash%negb_true_iff]%andb_true_iff.
  assert (path_components name = [name]) as Hname.
  { unfold path_components. rewrite components_from_no_slash by done.
    change ("" +:+ name) with name. cbn [List.filter]. by rewrite Hcomp. }
  unfold filepath_Join. destruct (String.eqb_spec p "") as [->|Hp]; [done|].
  destruct (String.eqb_spec name "") as [->|Hn]; [done|].
  change (p +:+ "/" +:+ name) with (p +:+ String slash name).
  unfold path_components in *.
  by rewrite components_from_app, List.filter_app, Hname.
Qed.

(** ** Trees *)

Lemma assoc_del_entry_ne x y es : x ≠ y → assoc y (del_entry x es) = assoc y es.
Proof.
  intros Hne. induction es as [|[z m] es IH]; simpl; [done|].
  destruct (String.eqb_spec x z) as [->|Hxz]; simpl.
  - by destruct (String.eqb_spec y z) as [->|].
  - by rewrite IH.
Qed.

Lemma assoc_NoDup x child es :
  NoDup es.*1 → (x, child) ∈ es → assoc x es = Some child.
Proof.
  induction es as [|[y m] es IH]; intros Hnd Hin; [elem_cons|].
  rewrite fmap_cons in Hnd. apply NoDup_cons in Hnd as [Hy Hnd]. simpl.
  apply elem_of_cons in Hin as [[= -> ->]|Hin].
  - by rewrite String.eqb_refl.
  - destruct (String.eqb_spec x y) as [->|]; [|by apply IH].
    exfalso. apply Hy. apply list_elem_of_fmap. by exists (y, child).
Qed.

Lemma lookup_path_app p q n :
  lookup_path (p ++ q) n = lookup_path p n ≫= lookup_path q.
Proof.
  revert n. induction p as [|x p IH]; intros n; simpl; [done|].
  destruct n as [c|es]; [done|]. destruct (assoc x es); [apply IH|done].
Qed.

Lemma assoc_height x child es :
  assoc x es = Some child →
  (height child ≤ foldr (λ e h, Nat.max (height e.2) h) O es)%nat.
Proof.
  induction es as [|[y m] es IH]; simpl; [done|].
  destruct (String.eqb x y).
  - intros [= ->]. lia.
  - intros H. apply IH in H. lia.
Qed.

Lemma lookup_path_height p n child :
  lookup_path p n = Some child → (height child ≤ height n)%nat.
Proof.
  revert n. induction p as [|x p IH]; intros n; simpl.
  - by intros [= ->].
  - destruct n as [c|es]; [done|]. destruct (assoc x es) as [m|] eqn:Hx; [|done].
    intros H. apply IH in H. apply assoc_height in Hx. simpl. lia.
Qed.

Lemma filepath_Base_Join p name :
  valid_name name = true → filepath_Base (filepath_Join p name) = name.
Proof.
  intros H. unfold filepath_Base. rewrite path_components_Join by done.
  apply List.last_last.
Qed.

Lemma valid_name_nonempty name : valid_name name = true → name ≠ "".
Proof. by intros Hv ->. Qed.

Lemma filepath_Join_nonempty p name :
  name ≠ "" → String.eqb (filepath_Join p name) "" = false.
Proof.
  intros Hname. apply String.eqb_neq. unfold filepath_Join.
  destruct (String.eqb_spec p "") as [->|Hp]; [done|].
  destruct (String.eqb_spec name "") as [->|_]; [done|]. by destruct p.
Qed.

Lemma node_induction (P : node → Prop) :
  (∀ content, P (File content)) →
  (∀ es, Forall (λ e, P e.2) es → P (Dir es)) →
  ∀ n, P n.
Proof.
  intros Hfile Hdir. fix IH 1. intros [content|es]; [apply Hfile|apply Hdir].
  induction es as [|e es IHes]; constructor; [apply IH|apply IHes].
Qed.

Lemma wf_node_entry x child es :
  wf_node (Dir es) → (x, child) ∈ es →
  valid_name x = true ∧ wf_node child ∧ assoc x es = Some child.
Proof.
  intros Hwf Hin. cbn [wf_node] in Hwf. destruct Hwf as [Hnd Hall].
  split; [|split]; [| |by apply assoc_NoDup].
  - clear Hnd. induction es as [|e es IH]; [elem_cons|]. cbn [foldr] in Hall.
    destruct Hall as (Hv & _ & Hall). apply elem_of_cons in Hin as [<-|Hin]; auto.
  - clear Hnd. induction es as [|e es IH]; [elem_cons|]. cbn [foldr] in Hall.
    destruct Hall as (_ & Hw & Hall). apply elem_of_cons in Hin as [<-|Hin]; auto.
Qed.

Lemma all_nodes_entry P name x child es :
  all_nodes P name (Dir es) → (x, child) ∈ es → all_nodes P x child.
Proof.
  intros Hall Hin. cbn [all_nodes] in Hall. destruct Hall as [_ Hall].
  induction es as [|e es IH]; [elem_cons|]. cbn [foldr] in Hall.
  destruct Hall as [He Hall]. apply elem_of_cons in Hin as [<-|Hin]; auto.
Qed.

Lemma entry_height x (child : node) es :
  (x, child) ∈ es → (height child < height (Dir es))%nat.
Proof.
  intros Hin. simpl. induction es as [|e es IH]; [elem_cons|]. simpl.
  apply elem_of_cons in Hin as [<-|Hin]; [simpl; lia|]. apply IH in Hin. lia.
Qed.

(** ** Walks that leave the file system alone *)

Section ReadOnlyWalk.
Context {A : Type}.
Variable fn : @WalkFunc A.
Variable fs : FS.
Variable step : FileInfo → A → A.
Variable P : string → node → Prop.

Hypothesis no_faults : ∀ sc p, fault fs sc p = false.
Hypothesis fn_reads : ∀ path name n acc,
  P name n → fn path (Visit (mkFileInfo name n)) (fs, acc) = (None, (fs, step (mkFileInfo name n) acc)).

Lemma walk_names_read_only fuel path es l acc :
  (∀ path name n acc,
     (height n < fuel)%nat → wf_node n → all_nodes P name n →
     lookup_path (path_components path) (tree fs) = Some n →
     walk fuel fn path (mkFileInfo name n) (fs, acc) = (None, (fs, walk_fold step name n acc))) →
  lookup_path (path_components path) (tree fs) = Some (Dir es) →
  (∀ x child, (x, child) ∈ l →
              valid_name x = true ∧ wf_node child ∧ assoc x es = Some child ∧
              all_nodes P x child ∧ (height child < fuel)%nat) →
  walk_names (walk fuel fn) fn path l.*1 (fs, acc) =
  (None, (fs, fold_left (λ acc e, walk_fold step e.1 e.2 acc) l acc)).
Proof using no_faults.
  intros IH Hdir. revert acc. induction l as [|[x child] l IHl]; intros acc Hl; [done|].
  destruct (Hl x child) as (Hv & Hwf & Hx & Hall & Hh); [elem_cons|].
  rewrite fmap_cons. cbn [walk_names fst snd]. unfold os_Lstat.
  rewrite no_faults, filepath_Join_nonempty by (by apply valid_name_nonempty).
  rewrite path_components_Join, lookup_path_app, Hdir by done.
  cbn [mbind option_bind lookup_path]. rewrite Hx, filepath_Base_Join by done.
  rewrite IH; [|done|done|done|].
  2:{ rewrite path_components_Join, lookup_path_app, Hdir by done.
      cbn [mbind option_bind lookup_path]. by rewrite Hx. }
  apply IHl. intros x' child' Hin. apply Hl. elem_cons.
Qed.

Lemma walk_read_only fuel path name n acc :
  (height n < fuel)%nat → wf_node n → all_nodes P name n →
  lookup_path (path_components path) (tree fs) = Some n →
  walk fuel fn path (mkFileInfo name n) (fs, acc) = (None, (fs, walk_fold step name n acc)).
Proof using no_faults fn_reads.
  revert path name n acc. induction fuel as [|fuel IH]; intros path name n acc Hh Hwf Hall Hn;
    [lia|].
  assert (P name n) as HP by (destruct n; cbn [all_nodes] in Hall; by destruct Hall).
  destruct n as [content|es]; cbn [walk IsDir fi_node negb walk_fold].
  - by apply fn_reads.
  - unfold readDirNames. cbn [fst]. rewrite no_faults, Hn, fn_reads by done.
    apply (walk_names_read_only fuel path es es); [exact IH|done|].
    intros x child Hin. destruct (wf_node_entry x child es Hwf Hin) as (? & ? & ?).
    repeat split; try done.
    + by eapply all_nodes_entry.
    + apply entry_height in Hin. lia.
Qed.
End ReadOnlyWalk.

(** A walk function that leaves the file system as it is makes a walk that
    does. *)
Section FsPreserving.
Context {A : Type}.
Variable fn : @WalkFunc A.
Hypothesis fn_fs : ∀ path arg st, (fn path arg st).2.1 = st.1.

Lemma walk_names_fs rec path names st :
  (∀ path info st, (rec path info st).2.1 = st.1) →
  (walk_names rec fn path names st).2.1 = st.1.
Proof using fn_fs.
  intros Hrec. revert st. induction names as [|name names IH]; intros st; [done|].
  cbn [walk_names].
  destruct (os_Lstat st.1 (filepath_Join path name)) as [err|info].
  - pose proof (fn_fs (filepath_Join path name) (VisitErr None err) st) as Hfn.
    destruct (fn _ _ st) as [[e|] st']; [done|]. by rewrite IH.
  - pose proof (Hrec (filepath_Join path name) info st) as Hfn.
    destruct (rec _ info st) as [[e|] st']; [done|]. by rewrite IH.
Qed.

Lemma walk_fs fuel path info st : (walk fuel fn path info st).2.1 = st.1.
Proof using fn_fs.
  revert path info st. induction fuel as [|fuel IH]; intros path info st; [done|].
  cbn [walk]. destruct (negb (IsDir info)); [apply fn_fs|].
  destruct (readDirNames st.1 path) as [err|names].
  - pose proof (fn_fs path (VisitErr (Some info) err) st) as Hfn.
    by destruct (fn _ _ st) as [e st'].
  - pose proof (fn_fs path (Visit info) st) as Hfn.
    destruct (fn _ _ st) as [[e|] st']; [done|].
    by rewrite walk_names_fs.
Qed.

Lemma filepath_Walk_fs root st : (filepath_Walk root fn st).2.1 = st.1.
Proof using fn_fs.
  unfold filepath_Walk. destruct (os_Lstat st.1 root); [apply fn_fs|apply walk_fs].
Qed.
End FsPreserving.

(** ** Deleting entries of a directory *)

Lemma remove_path_entry p x content es r :
  lookup_path p r = Some (Dir es) →
  assoc x es = Some (File content) →
  remove_path (p ++ [x]) r = inr (map_dir p (del_entry x) r).
Proof.
  revert r. induction p as [|y p IH]; intros r Hdir Hx.
  - simpl in Hdir. injection Hdir as ->. simpl. by rewrite Hx.
  - destruct r as [c|es0]; [done|]. simpl in Hdir.
    destruct (assoc y es0) as [child|] eqn:Hy; [|done].
    pose proof (IH child Hdir Hx) as IHc.
    cbn [app remove_path map_dir]. rewrite Hy.
    destruct (p ++ [x])%list as [|z q] eqn:Hq; [by destruct p|].
    by rewrite IHc.
Qed.

Lemma remove_path_absent p x es r :
  lookup_path p r = Some (Dir es) →
  assoc x es = None →
  remove_path (p ++ [x]) r = inl ENOENT.
Proof.
  revert r. induction p as [|y p IH]; intros r Hdir Hx.
  - simpl in Hdir. injection Hdir as ->. simpl. by rewrite Hx.
  - destruct r as [c|es0]; [done|]. simpl in Hdir.
    destruct (assoc y es0) as [child|] eqn:Hy; [|done].
    pose proof (IH child Hdir Hx) as IHc.
    cbn [app remove_path]. rewrite Hy.
    destruct (p ++ [x])%list as [|z q] eqn:Hq; [by destruct p|].
    by rewrite IHc.
Qed.

(** An entry that a directory does not hold is not there. *)
Lemma missing_entry p x es r :
  lookup_path p r = Some (Dir es) →
  assoc x es = None →
  lookup_path (p ++ [x]) r = None ∧ missing (p ++ [x]) r = ENOENT.
Proof.
  revert r. induction p as [|y p IH]; intros r Hdir Hx.
  - simpl in Hdir. injection Hdir as ->. simpl. by rewrite Hx.
  - destruct r as [c|es0]; [done|]. simpl in Hdir.
    destruct (assoc y es0) as [child|] eqn:Hy; [|done].
    cbn [app lookup_path missing]. rewrite Hy. by apply IH.
Qed.

Lemma bucket_path_nonempty d name :
  String.eqb (filepath_Join d (name +:+ ".cache")) "" = false.
Proof. apply filepath_Join_nonempty. by destruct name. Qed.

Lemma lookup_map_dir p g es r :
  lookup_path p r = Some (Dir es) →
  lookup_path p (map_dir p g r) = Some (Dir (g es)).
Proof.
  revert r. induction p as [|y p IH]; intros r Hdir.
  - simpl in Hdir. by injection Hdir as ->.
  - destruct r as [c|es0]; [done|]. simpl in Hdir.
    destruct (assoc y es0) as [child|] eqn:Hy; [|done].
    cbn [map_dir lookup_path]. rewrite Hy. cbn [lookup_path].
    rewrite assoc_set_entry. by apply IH.
Qed.

Lemma lookup_delete_entries p xs es r :
  lookup_path p r = Some (Dir es) →
  lookup_path p (delete_entries p xs r) =
  Some (Dir (fold_left (λ es x, del_entry x es) xs es)).
Proof.
  revert es r. induction xs as [|x xs IH]; intros es r Hdir; [done|].
  cbn [delete_entries fold_left]. apply (IH (del_entry x es)).
  by apply lookup_map_dir.
Qed.

Lemma del_entry_middle x n (pre post : list (string * node)) :
  x ∉ pre.*1 → del_entry x (pre ++ (x, n) :: post) = (pre ++ post)%list.
Proof.
  induction pre as [|[y m] pre IH]; intros Hx; simpl.
  - by rewrite String.eqb_refl.
  - rewrite fmap_cons in Hx. apply not_elem_of_cons in Hx as [Hne Hx]. simpl in Hne.
    destruct (String.eqb_spec x y) as [->|_]; [done|]. by rewrite IH.
Qed.

(** Deleting the entries a predicate selects, one by one, filters the
    directory. *)
Lemma fold_del_entry_filter (sel : string * node → bool) (pre l : list (string * node)) :
  NoDup (pre ++ l)%list.*1 →
  fold_left (λ es x, del_entry x es) (List.filter sel l).*1 (pre ++ l)%list =
  (pre ++ List.filter (λ e, negb (sel e)) l)%list.
Proof.
  revert pre. induction l as [|[x n] l IH]; intros pre Hnd; [done|].
  cbn [List.filter]. destruct (sel (x, n)) eqn:Hsel; cbn [negb].
  - rewrite fmap_cons. cbn [fold_left fst]. rewrite del_entry_middle.
    + apply IH. rewrite fmap_app in *. rewrite fmap_cons in Hnd.
      apply NoDup_app in Hnd as (Hpre & Hdisj & Hl). apply NoDup_cons in Hl as [_ Hl].
      apply NoDup_app. repeat split; [done| |done].
      intros y Hy Hy'. apply (Hdisj y Hy). elem_cons.
    + rewrite fmap_app, fmap_cons in Hnd. apply NoDup_app in Hnd as (_ & Hdisj & _).
      intros Hin. apply (Hdisj x Hin). elem_cons.
  - replace (pre ++ (x, n) :: l)%list with ((pre ++ [(x, n)]) ++ l)%list
      by (by rewrite <-app_assoc).
    rewrite IH by (by rewrite <-app_assoc). by rewrite <-app_assoc.
Qed.

(** ** 64-bit sums *)

Lemma wrap64_small z : - 2 ^ 63 ≤ z < 2 ^ 63 → wrap64 z = z.
Proof.
  intros H. unfold wrap64.
  assert (2 ^ 64 = 2 * 2 ^ 63) as Hpow by reflexivity.
  rewrite Z.mod_small; lia.
Qed.

Lemma wrap64_add_l a b : wrap64 (wrap64 a + b) = wrap64 (a + b).
Proof.
  unfold wrap64. f_equal.
  replace ((a + 2 ^ 63) mod 2 ^ 64 - 2 ^ 63 + b + 2 ^ 63)
    with ((a + 2 ^ 63) mod 2 ^ 64 + b) by lia.
  rewrite Zplus_mod_idemp_l. f_equal. lia.
Qed.

Lemma wrap64_idemp z : wrap64 (wrap64 z) = wrap64 z.
Proof.
  transitivity (wrap64 (wrap64 z + 0)); [f_equal; lia|].
  rewrite wrap64_add_l. f_equal. lia.
Qed.

Lemma tree_size_nonneg n : 0 ≤ tree_size n.
Proof.
  induction n as [content|es IH] using node_induction; simpl; [lia|].
  induction IH as [|e es He _ IHes]; simpl; lia.
Qed.

(** From a total that fits 64 bits, the fold of [add_size] over a tree adds
    the sizes of its files, in 64-bit arithmetic. *)
Lemma walk_fold_add_size name n acc :
  wrap64 acc = acc →
  walk_fold add_size name n acc = wrap64 (acc + tree_size n).
Proof.
  revert name acc. induction n as [content|es IH] using node_induction;
    intros name acc Hacc.
  - reflexivity.
  - cbn [walk_fold tree_size]. unfold add_size at 2. cbn [IsDir fi_node negb].
    clear name. revert acc Hacc.
    induction IH as [|e es He _ IHes]; intros acc Hacc; cbn [fold_left foldr].
    + by rewrite Z.add_0_r.
    + rewrite He by done. rewrite IHes by apply wrap64_idemp.
      rewrite wrap64_add_l. f_equal. lia.
Qed.

(** ** Files a system call leaves alone *)

Lemma assoc_set_entry_ne x y n es : x ≠ y → assoc y (set_entry x n es) = assoc y es.
Proof.
  intros Hne. induction es as [|[z m] es IH]; simpl.
  - by destruct (String.eqb_spec y x) as [->|].
  - destruct (String.eqb_spec x z) as [->|Hxz]; simpl.
    + destruct (String.eqb_spec y z) as [->|]; done.
    + destruct (String.ltb x z); simpl.
      * by destruct (String.eqb_spec y x) as [->|].
      * by rewrite IH.
Qed.

(** Writing the file at [p] leaves every other regular file as it is. *)
Lemma put_file_other p content r r' q c :
  put_file p content r = inr r' →
  lookup_path q r = Some (File c) → q ≠ p →
  lookup_path q r' = Some (File c).
Proof.
  revert r r' q. induction p as [|x p IH]; intros [c0|es] r' q; simpl; try done.
  - intros _. destruct q; [done|]. done.
  - destruct (assoc x es) as [child|] eqn:Hx.
    + destruct (put_file p content child) as [e|child'] eqn:Hp; [done|].
      intros [= <-]. destruct q as [|y q]; [done|]. simpl.
      destruct (String.eqb_spec x y) as [<-|Hne].
      * rewrite Hx, assoc_set_entry. intros Hq Hneq.
        apply (IH child child' q Hp Hq). congruence.
      * by rewrite assoc_set_entry_ne.
    + destruct p; [|done]. intros [= <-]. destruct q as [|y q]; [done|]. simpl.
      destruct (String.eqb_spec x y) as [<-|Hne].
      * by rewrite Hx.
      * by rewrite assoc_set_entry_ne.
Qed.

(** Removing the file or the empty directory at [p] leaves every other
    regular file as it is. *)
Lemma remove_path_other p r r' q c :
  remove_path p r = inr r' →
  lookup_path q r = Some (File c) → q ≠ p →
  lookup_path q r' = Some (File c).
Proof.
  revert r r' q. induction p as [|x p IH]; intros [c0|es] r' q; simpl; try done.
  destruct (assoc x es) as [child|] eqn:Hx; [|done].
  destruct p as [|x' p].
  - intros Hrm. destruct q as [|y q]; [done|]. simpl.
    destruct (String.eqb_spec x y) as [<-|Hne].
    + rewrite Hx. destruct child as [c1|[|e sub]]; [| |done].
      * destruct q; [congruence|done].
      * destruct q; done.
    + assert (r' = Dir (del_entry x es)) as ->
        by (destruct child as [c1|[|e sub]]; congruence).
      simpl. by rewrite assoc_del_entry_ne.
  - destruct (remove_path (x' :: p) child) as [e|child'] eqn:Hp; [done|].
    intros [= <-]. destruct q as [|y q]; [done|]. simpl.
    destruct (String.eqb_spec x y) as [<-|Hne].
    + rewrite Hx, assoc_set_entry. intros Hq Hneq.
      apply (IH child child' q Hp Hq). congruence.
    + by rewrite assoc_set_entry_ne.
Qed.

(** A regular file can be rewritten. *)
Lemma put_file_exists p old content r :
  lookup_path p r = Some (File old) → ∃ r', put_file p content r = inr r'.
Proof.
  revert r. induction p as [|x p IH]; intros [c0|es]; simpl; try done.
  - eauto.
  - destruct (assoc x es) as [child|]; [|done]. intros Hp.
    destruct (IH child Hp) as [child' ->]. eauto.
Qed.

Lemma assoc_elem_of x child es : assoc x es = Some child → (x, child) ∈ es.
Proof.
  induction es as [|[y m] es IH]; simpl; [done|].
  destruct (String.eqb_spec x y) as [->|_].
  - intros [= ->]. by apply elem_of_cons; left.
  - intros H. apply elem_of_cons; right. by apply IH.
Qed.

Lemma assoc_not_elem_of x es : x ∉ es.*1 → assoc x es = None.
Proof.
  induction es as [|[y m] es IH]; [done|].
  rewrite fmap_cons. intros [Hne Hx]%not_elem_of_cons. simpl in Hne. simpl.
  destruct (String.eqb_spec x y) as [->|_]; [done|]. by apply IH.
Qed.

Lemma assoc_del_entry x es : NoDup es.*1 → assoc x (del_entry x es) = None.
Proof.
  induction es as [|[y m] es IH]; [done|].
  rewrite fmap_cons. intros [Hy Hnd]%NoDup_cons. simpl in Hy. simpl.
  destruct (String.eqb_spec x y) as [->|Hne]; simpl.
  - by apply assoc_not_elem_of.
  - destruct (String.eqb_spec x y) as [->|_]; [done|]. by apply IH.
Qed.

(** [MkdirAll] keeps what the path already leads to, and every regular
    file; afterwards the path leads to a directory. *)
Lemma mkdir_all_keeps p r r' n :
  mkdir_all p r = inr r' → lookup_path p r = Some n → lookup_path p r' = Some n.
Proof.
  revert r r'. induction p as [|x p IH]; intros [c0|es] r'; simpl; try done.
  - by intros [= <-].
  - destruct (assoc x es) as [child|] eqn:Hx; [|by intros ? ?].
    cbn [from_option id].
    destruct (mkdir_all p child) as [e|child'] eqn:Hp; [done|].
    intros [= <-] Hn. cbn [lookup_path]. rewrite assoc_set_entry. eauto.
Qed.

Lemma mkdir_all_other p r r' q content :
  mkdir_all p r = inr r' →
  lookup_path q r = Some (File content) → lookup_path q r' = Some (File content).
Proof.
  revert r r' q. induction p as [|x p IH]; intros [c0|es] r' q; simpl; try done.
  - by intros [= <-].
  - destruct (mkdir_all p (default (Dir []) (assoc x es))) as [e|child'] eqn:Hp; [done|].
    intros [= <-]. destruct q as [|y q]; [done|]. simpl.
    destruct (String.eqb_spec x y) as [<-|Hne].
    + rewrite assoc_set_entry. destruct (assoc x es) as [child|]; [|done].
      cbn [from_option id] in Hp. eauto.
    + by rewrite assoc_set_entry_ne.
Qed.

Lemma mkdir_all_dir p r r' :
  mkdir_all p r = inr r' → ∃ es, lookup_path p r' = Some (Dir es).
Proof.
  revert r r'. induction p as [|x p IH]; intros [c0|es] r'; simpl; try done.
  - intros [= <-]. eauto.
  - destruct (mkdir_all p (default (Dir []) (assoc x es))) as [e|child'] eqn:Hp; [done|].
    intros [= <-]. cbn [lookup_path]. rewrite assoc_set_entry. eauto.
Qed.

(** [MkdirAll] succeeds unless a step of the path is a regular file. *)
Lemma mkdir_all_succeeds p r :
  (∀ q content, q `prefix_of` p → lookup_path q r ≠ Some (File content)) →
  ∃ r', mkdir_all p r = inr r'.
Proof.
  revert r. induction p as [|x p IH]; intros [c0|es] Hfree.
  - by destruct (Hfree [] c0).
  - simpl. eauto.
  - by destruct (Hfree [] c0); [apply prefix_nil|].
  - simpl. destruct (IH (default (Dir []) (assoc x es))) as [child' ->]; [|eauto].
    intros q content Hq. destruct (assoc x es) as [child|] eqn:Hx; cbn [default].
    + intros Hlk. apply (Hfree (x :: q) content); [by apply prefix_cons|].
      simpl. by rewrite Hx.
    + by destruct q.
Qed.

(** ** Walks that keep an invariant of the file system *)

Section WalkInvariant.
Context {A : Type}.
Variable fn : @WalkFunc A.
Variable Inv : FS → Prop.
Hypothesis fn_inv : ∀ path arg st, Inv st.1 → Inv (fn path arg st).2.1.

Lemma walk_names_inv rec path names st :
  (∀ path info st, Inv st.1 → Inv (rec path info st).2.1) →
  Inv st.1 → Inv (walk_names rec fn path names st).2.1.
Proof using fn_inv.
  intros Hrec. revert st. induction names as [|name names IH]; intros st Hst; [done|].
  cbn [walk_names].
  destruct (os_Lstat st.1 (filepath_Join path name)) as [err|info].
  - pose proof (fn_inv (filepath_Join path name) (VisitErr None err) st Hst) as Hfn.
    destruct (fn _ _ st) as [[e|] st']; [done|]. by apply IH.
  - pose proof (Hrec (filepath_Join path name) info st Hst) as Hfn.
    destruct (rec _ info st) as [[e|] st']; [done|]. by apply IH.
Qed.

Lemma walk_inv fuel path info st : Inv st.1 → Inv (walk fuel fn path info st).2.1.
Proof using fn_inv.
  revert path info st. induction fuel as [|fuel IH]; intros path info st Hst; [done|].
  cbn [walk]. destruct (negb (IsDir info)); [by apply fn_inv|].
  destruct (readDirNames st.1 path) as [err|names].
  - pose proof (fn_inv path (VisitErr (Some info) err) st Hst) as Hfn.
    by destruct (fn _ _ st) as [e st'].
  - pose proof (fn_inv path (Visit info) st Hst) as Hfn.
    destruct (fn _ _ st) as [[e|] st']; [done|].
    by apply walk_names_inv.
Qed.

Lemma filepath_Walk_inv root st : Inv st.1 → Inv (filepath_Walk root fn st).2.1.
Proof using fn_inv.
  intros Hst. unfold filepath_Walk.
  destruct (os_Lstat st.1 root); [by apply fn_inv|by apply walk_inv].
Qed.
End WalkInvariant.

(** Writing a file that is an entry of the directory at [p], or is to
    become one. *)
Lemma put_file_entry p x content es r :
  lookup_path p r = Some (Dir es) →
  (∀ sub, assoc x es ≠ Some (Dir sub)) →
  put_file (p ++ [x]) content r = inr (map_dir p (set_entry x (File content)) r).
Proof.
  revert r. induction p as [|y p IH]; intros r Hdir Hx.
  - simpl in Hdir. injection Hdir as ->. simpl.
    destruct (assoc x es) as [[c|sub]|] eqn:Ha; [done| |done]. by destruct (Hx sub).
  - destruct r as [c|es0]; [done|]. simpl in Hdir.
    destruct (assoc y es0) as [child|] eqn:Hy; [|done].
    pose proof (IH child Hdir Hx) as IHc.
    cbn [app put_file map_dir]. rewrite Hy. by rewrite IHc.
Qed.

Section Properties.
Context {any : Type}.
Variable Ext : string.
Variable json_Marshal : any → error + string.
Variable json_Encode : gmap string (cacheItem any) → error + string.
Variable json_Decode : string → error + gmap string (cacheItem any).

Local Abbreviation getStore := (Cacher_getStore json_Decode).
Local Abbreviation saveToFile := (CacheStore_saveToFile json_Encode).
Local Abbreviation persisted := (persisted json_Encode).
Local Abbreviation persisted_bucket := (persisted_bucket json_Encode).

(** ** Persisting *)

Lemma saveToFile_persisted cs fs fs' :
  saveToFile cs fs = (None, fs') → persisted cs fs'.
Proof.
  unfold CacheStore_saveToFile.
  destruct (os_Create fs (filePath cs)) as [e|fs1]; [done|].
  destruct (json_Encode (data cs)) as [e|bytes] eqn:Henc; [done|].
  unfold write_all.
  destruct (fault fs1 SysWrite (filePath cs)); [done|].
  destruct (put_file _ bytes (tree fs1)) as [e|r] eqn:Hput; [done|].
  intros [= <-]. exists bytes. split; [done|].
  by apply put_file_lookup in Hput.
Qed.

(** The store [getStore] returns is the one registered afterwards, and the
    file system is as before. *)
Lemma getStore_registered name c fs store c' fs' :
  getStore name (c, fs) = (inr store, (c', fs')) →
  stores c' !! name = Some store ∧ fs' = fs ∧ dir c' = dir c ∧ ext c' = ext c ∧
  (∀ other, other ≠ name → stores c' !! other = stores c !! other).
Proof.
  unfold Cacher_getStore.
  destruct (stores c !! name) as [s|] eqn:Hs.
  - intros [= <- <- <-]. done.
  - destruct (CacheStore_loadFromFile _ _ _) as [[e|] s]; [done|].
    intros [= <- <- <-]. simpl. rewrite lookup_insert_eq.
    repeat split; try done. intros other Hne. by rewrite lookup_insert_ne.
Qed.

Lemma getStore_hit name c fs store :
  stores c !! name = Some store →
  getStore name (c, fs) = (inr store, (c, fs)).
Proof. unfold Cacher_getStore. by intros ->. Qed.

Local Abbreviation upd_save := (update_and_save json_Encode json_Decode).

Lemma update_and_save_run bucketName g c fs :
  upd_save bucketName g (c, fs) =
  match getStore bucketName (c, fs) with
  | (inl err, st) => (Some err, st)
  | (inr store, (c1, fs1)) =>
      let store' := with_data store (g (data store)) in
      let '(r, fs') := saveToFile store' fs1 in
      (r, (with_stores c1 (<[bucketName := store']> (stores c1)), fs'))
  end.
Proof.
  unfold update_and_save, bind.
  destruct (getStore bucketName (c, fs)) as [[err|store] [c1 fs1]]; [done|].
  simpl. by destruct (saveToFile _ fs1).
Qed.

Lemma getStore_fs name st : (getStore name st).2.2 = st.2.
Proof.
  destruct st as [c fs]. unfold Cacher_getStore.
  destruct (stores c !! name); [done|].
  by destruct (CacheStore_loadFromFile _ _ _) as [[e|] s].
Qed.

(** A call that returns no error has persisted the store it leaves. *)
Lemma persist_outcome_success bucketName st st' :
  persist_outcome json_Encode bucketName st None st' → persisted_bucket bucketName st'.
Proof.
  intros [(err & ? & _)|(cs & fs1 & Hcs & Hsave)]; [done|].
  exists cs. split; [done|]. by eapply saveToFile_persisted.
Qed.

Lemma update_and_save_outcome bucketName g st r st' :
  upd_save bucketName g st = (r, st') → persist_outcome json_Encode bucketName st r st'.
Proof.
  destruct st as [c fs]. rewrite update_and_save_run.
  pose proof (getStore_fs bucketName (c, fs)) as Hfs.
  destruct (getStore bucketName (c, fs)) as [[err|store] [c1 fs1]]; simpl in Hfs.
  - intros [= <- <-]. left. eauto.
  - cbv zeta. destruct (saveToFile _ fs1) as [r' fs'] eqn:Hsave.
    intros [= <- <-]. right. eexists _, fs1. split; [apply lookup_insert_eq|done].
Qed.

Lemma Set_is_update bucketName now ttl key value :
  Cacher_Set json_Encode json_Decode bucketName now ttl key value =
  upd_save bucketName
    (insert key {| Value := value; Expiration := ToPtr (time_Add now ttl) |}).
Proof. reflexivity. Qed.

Lemma SetFrozen_is_update bucketName key value :
  Cacher_SetFrozen json_Encode json_Decode bucketName key value =
  upd_save bucketName (insert key {| Value := value; Expiration := None |}).
Proof. reflexivity. Qed.

Lemma Delete_is_update bucketName key :
  Cacher_Delete json_Encode json_Decode bucketName key =
  upd_save bucketName (delete key).
Proof. reflexivity. Qed.

Lemma EmptyBucket_is_update bucketName :
  Cacher_EmptyBucket json_Encode json_Decode bucketName =
  upd_save bucketName (λ _, ∅).
Proof. reflexivity. Qed.

Lemma CleanBucket_is_update bucketName sched :
  Cacher_CleanBucket json_Encode json_Decode bucketName sched =
  upd_save bucketName (clean_loop sched).
Proof. reflexivity. Qed.

(** ** The backing file of a store *)

(** Whatever the [ext] of the cacher, a store that [getStore] creates has
    the path [dir/name.cache]. *)
Lemma getStore_path name c fs store st' :
  stores c !! name = None →
  getStore name (c, fs) = (inr store, st') →
  filePath store = filepath_Join (dir c) (name +:+ ".cache").
Proof.
  unfold Cacher_getStore. intros ->.
  unfold CacheStore_loadFromFile. cbn [filePath].
  destruct (os_Open _ _) as [err|file].
  - destruct (os_IsNotExist err); [|done]. by intros [= <- _].
  - destruct (read_all _ _ _) as [err|bytes]; [done|].
    destruct (json_Decode bytes); [done|]. by intros [= <- _].
Qed.

(** ** The size of the cache directory *)

Lemma getTotalSize_fn_reads (fs : FS) path name n acc :
  getTotalSize_fn path (Visit (mkFileInfo name n)) (fs, acc) =
  (None, (fs, add_size (mkFileInfo name n) acc)).
Proof. unfold getTotalSize_fn, add_size. by destruct (negb _). Qed.

Lemma getTotalSize_fn_fs path arg st : (getTotalSize_fn path arg st).2.1 = st.1.
Proof.
  unfold getTotalSize_fn. destruct arg as [info|info err]; [|done].
  by destruct (negb (IsDir info)).
Qed.

(** C9 (amended).  [GetTotalSize] changes neither the cacher nor the file
    system, whatever it returns.  When the path of the cache directory is
    not empty and leads to a well-formed tree, and no system call fails, it
    returns the sum of the sizes of all regular files in the tree under the
    cache directory, the files that are entries of the directory and those
    of its subdirectories at any depth, whatever their suffix, added up in
    signed 64-bit arithmetic: the sum itself when it is below 2^63, the sum
    wrapped around modulo 2^64 otherwise.  On an empty directory it
    returns 0. *)
Theorem getTotalSize_sums_tree :
  (∀ (c : Cacher any) (fs : FS), (Cacher_GetTotalSize (c, fs)).2 = (c, fs)) ∧
  (∀ (c : Cacher any) (fs : FS) (n : node),
     dir c ≠ "" →
     (∀ sc p, fault fs sc p = false) →
     lookup_path (path_components (dir c)) (tree fs) = Some n →
     wf_node n →
     (Cacher_GetTotalSize (c, fs)).1 = (wrap64 (tree_size n), None) ∧
     (tree_size n < 2 ^ 63 → (Cacher_GetTotalSize (c, fs)).1 = (tree_size n, None)) ∧
     (n = Dir [] → (Cacher_GetTotalSize (c, fs)).1 = (0, None))).
Proof.
  split.
  - intros c fs. unfold Cacher_GetTotalSize.
    pose proof (filepath_Walk_fs getTotalSize_fn getTotalSize_fn_fs (dir c) (fs, 0)) as Hfs.
    destruct (filepath_Walk _ _ _) as [[err|] [fs' total]]; simpl in Hfs; by subst.
  - intros c fs n Hdir Hfault Hn Hwf.
    assert ((Cacher_GetTotalSize (c, fs)).1 = (wrap64 (tree_size n), None)) as Hrun.
    { unfold Cacher_GetTotalSize, filepath_Walk, os_Lstat. cbn [fst].
      rewrite Hfault, (proj2 (String.eqb_neq _ _) Hdir), Hn.
      rewrite (walk_read_only getTotalSize_fn fs add_size (λ _ _, True) Hfault).
      - by rewrite walk_fold_add_size.
      - intros. apply getTotalSize_fn_reads.
      - apply lookup_path_height in Hn. lia.
      - done.
      - clear. generalize (filepath_Base (dir c)).
        induction n as [content|es IH] using node_induction; intros name; [done|].
        split; [done|]. induction IH as [|e es He _ IHes]; simpl; auto.
      - done. }
    split; [done|]. split.
    + intros Hfit. rewrite Hrun, wrap64_small; [done|].
      pose proof (tree_size_nonneg n). lia.
    + intros ->. by rewrite Hrun.
Qed.

(** ** Removing cache files in bulk *)

Lemma walk_fold_id {A} name n (acc : A) : walk_fold (λ _ a, a) name n acc = acc.
Proof.
  revert name acc. induction n as [content|es IH] using node_induction;
    intros name acc; [done|].
  cbn [walk_fold]. clear name. revert acc.
  induction IH as [|e es He _ IHes]; intros acc; [done|].
  cbn [fold_left]. by rewrite He.
Qed.

Lemma removeAllBy_fn_quiet (c : Cacher any) flt fs path name n :
  nothing_to_remove Ext flt name n →
  removeAllBy_fn Ext c flt path (Visit (mkFileInfo name n)) (fs, tt) = (None, (fs, tt)).
Proof.
  unfold nothing_to_remove, removable, removeAllBy_fn. cbn [fst snd].
  destruct n as [content|sub]; cbn [IsDir Name fi_node fi_name negb]; [|done].
  destruct (strings_HasSuffix name Ext); cbn [negb andb]; [|done]. by intros ->.
Qed.

Lemma walk_file {A} fuel (fn : @WalkFunc A) path info st :
  IsDir info = false → walk (S fuel) fn path info st = fn path (Visit info) st.
Proof. intros H. cbn [walk]. by rewrite H. Qed.

Lemma walk_dir {A} fuel (fn : @WalkFunc A) path info st names st1 :
  IsDir info = true →
  readDirNames st.1 path = inr names →
  fn path (Visit info) st = (None, st1) →
  walk (S fuel) fn path info st = walk_names (walk fuel fn) fn path names st1.
Proof. intros Hdir Hnames Hfn. cbn [walk]. by rewrite Hdir, Hnames, Hfn. Qed.

Lemma removeAllBy_fn_file (c : Cacher any) flt path x content st :
  removeAllBy_fn Ext c flt path (Visit (mkFileInfo x (File content))) st =
  if removable Ext flt (x, File content) then
    match os_Remove st.1 (filepath_Join (dir c) x) with
    | inl err => (Some (Errorf "filecache: failed to remove file" err), st)
    | inr fs' => (None, (fs', st.2))
    end
  else (None, st).
Proof.
  unfold removeAllBy_fn, removable. cbn [IsDir Name fi_node fi_name negb fst snd].
  destruct (strings_HasSuffix x Ext); [|done]. by destruct (flt x).
Qed.

(** The loop of the walk over the names read from the cache directory.
    [r] is the tree so far, in which the directory holds [es]. *)
Lemma removeAllBy_names (c : Cacher any) flt fs fuel l es r :
  (∀ sc p, fault fs sc p = false) →
  lookup_path (path_components (dir c)) r = Some (Dir es) →
  NoDup l.*1 →
  (∀ x child, (x, child) ∈ l →
     valid_name x = true ∧ wf_node child ∧ assoc x es = Some child ∧
     (height child < fuel)%nat ∧
     (∀ sub, child = Dir sub → all_nodes (nothing_to_remove Ext flt) x child)) →
  walk_names (walk fuel (removeAllBy_fn Ext c flt)) (removeAllBy_fn Ext c flt) (dir c) l.*1
             (with_root fs r, tt) =
  (None,
   (with_root fs (delete_entries (path_components (dir c))
                    (List.filter (removable Ext flt) l).*1 r), tt)).
Proof.
  intros Hfault. revert es r.
  induction l as [|[x child] l IH]; intros es r Hdir Hnd Hl; [done|].
  rewrite fmap_cons in Hnd. apply NoDup_cons in Hnd as [Hx Hnd]. cbn [fst] in Hx.
  destruct (Hl x child) as (Hv & Hwf & Hassoc & Hh & Hquiet); [elem_cons|].
  assert (lookup_path (path_components (filepath_Join (dir c) x)) r = Some child) as Hchild.
  { rewrite path_components_Join, lookup_path_app, Hdir by done.
    cbn [mbind option_bind lookup_path]. by rewrite Hassoc. }
  rewrite fmap_cons. cbn [walk_names fst snd]. unfold os_Lstat.
  cbn [with_root tree fault].
  rewrite Hfault, filepath_Join_nonempty by (by apply valid_name_nonempty).
  rewrite Hchild, filepath_Base_Join by done.
  destruct child as [content|sub].
  - (* a regular file *)
    destruct fuel as [|fuel]; [simpl in Hh; lia|].
    rewrite walk_file, removeAllBy_fn_file by done. cbn [List.filter fst].
    destruct (removable Ext flt (x, File content)).
    + unfold os_Remove. cbn [with_root tree fault].
      rewrite Hfault, path_components_Join by done.
      rewrite (remove_path_entry _ x content es r Hdir Hassoc).
      rewrite fmap_cons. cbn [delete_entries fold_left fst].
      apply (IH (del_entry x es)); [by apply lookup_map_dir|done|].
      intros x' child' Hin. destruct (Hl x' child') as (? & ? & ? & ? & ?); [elem_cons|].
      repeat split; try done. rewrite assoc_del_entry_ne; [done|].
      intros ->. apply Hx. apply list_elem_of_fmap. by exists (x', child').
    + apply (IH es); [done|done|]. intros x' child' Hin. apply Hl. elem_cons.
  - (* a subdirectory with nothing to delete *)
    rewrite (walk_read_only (removeAllBy_fn Ext c flt) (with_root fs r) (λ _ a, a)
               (nothing_to_remove Ext flt)); [| | |done|done| |done].
    + cbn [List.filter]. unfold removable at 1. cbn [snd]. rewrite walk_fold_id.
      apply (IH es); [done|done|]. intros x' child' Hin. apply Hl. elem_cons.
    + done.
    + intros path name n [] Hn. by apply removeAllBy_fn_quiet.
    + by eapply Hquiet.
Qed.

(** X1.  [RemoveAllBy] empties the registry of stores in every case, and
    returns the error of the walk when there is one.  On a cache directory
    whose path is not empty and in which no file to delete lies below a
    subdirectory, and when no system call fails, it deletes exactly the
    regular files of the directory whose name has the suffix [Ext] of the
    moment and passes the filter; the directory holds the other entries, as
    they were. *)
Theorem removeAllBy_deletes_and_clears :
  (∀ flt (c : Cacher any) fs,
     let r := Cacher_RemoveAllBy Ext flt (c, fs) in
     stores r.2.1 = ∅ ∧ dir r.2.1 = dir c ∧ ext r.2.1 = ext c ∧
     r.1 = (filepath_Walk (dir c) (removeAllBy_fn Ext c flt) (fs, tt)).1) ∧
  (∀ flt (c : Cacher any) fs es,
     dir c ≠ "" →
     (∀ sc p, fault fs sc p = false) →
     lookup_path (path_components (dir c)) (tree fs) = Some (Dir es) →
     wf_node (Dir es) →
     subdirs_quiet Ext flt es →
     let removed := (List.filter (removable Ext flt) es).*1 in
     let tree' := delete_entries (path_components (dir c)) removed (tree fs) in
     Cacher_RemoveAllBy Ext flt (c, fs) = (None, (with_stores c ∅, with_root fs tree')) ∧
     lookup_path (path_components (dir c)) tree' =
     Some (Dir (List.filter (λ e, negb (removable Ext flt e)) es))).
Proof.
  split.
  - intros flt c fs. unfold Cacher_RemoveAllBy.
    by destruct (filepath_Walk _ _ _) as [err [fs' []]].
  - intros flt c fs es Hpath Hfault Hdir Hwf Hquiet removed tree'. split.
    + unfold Cacher_RemoveAllBy, filepath_Walk, os_Lstat. cbn [fst].
      rewrite Hfault, (proj2 (String.eqb_neq _ _) Hpath), Hdir.
      rewrite (walk_dir _ _ _ _ _ es.*1 (fs, tt)); [|done| |].
      2:{ unfold readDirNames. cbn [fst]. by rewrite Hfault, Hdir. }
      2:{ by apply removeAllBy_fn_quiet. }
      pose proof (removeAllBy_names c flt fs (height (tree fs)) es es (tree fs)
                    Hfault Hdir) as Hloop.
      replace (with_root fs (tree fs)) with fs in Hloop by (by destruct fs).
      rewrite Hloop; [done| |].
      * by destruct Hwf.
      * intros x child Hin.
        destruct (wf_node_entry x child es Hwf Hin) as (? & ? & ?).
        repeat split; try done.
        -- apply entry_height in Hin. apply lookup_path_height in Hdir. lia.
        -- intros sub ->. by apply Hquiet.
    + subst tree' removed. rewrite (lookup_delete_entries _ _ es) by done.
      do 2 f_equal. apply (fold_del_entry_filter (removable Ext flt) [] es).
      by destruct Hwf.
Qed.

(** ** Other files *)

(** Persisting a store leaves every regular file but its own as it is,
    whether it succeeds or fails. *)
Lemma saveToFile_other cs fs q content :
  lookup_path q (tree fs) = Some (File content) →
  q ≠ path_components (filePath cs) →
  lookup_path q (tree (saveToFile cs fs).2) = Some (File content).
Proof.
  intros Hq Hne. unfold CacheStore_saveToFile, os_Create.
  destruct (fault fs SysCreate (filePath cs)); [done|].
  destruct (put_file _ "" (tree fs)) as [e|r1] eqn:Hc; [done|].
  pose proof (put_file_other _ _ _ _ q content Hc Hq Hne) as Hq1.
  destruct (json_Encode (data cs)) as [e|bytes]; [done|].
  unfold write_all. cbn [with_root tree fault].
  destruct (fault fs SysWrite (filePath cs)); [done|].
  destruct (put_file _ bytes r1) as [e|r2] eqn:Hw; [done|].
  apply (put_file_other _ _ _ _ q content Hw Hq1 Hne).
Qed.

(** ** [Close] *)

Lemma close_loop_persists order (c : Cacher any) fs fs' :
  NoDup order →
  separate_files c →
  close_loop json_Encode order c fs = (None, fs') →
  (∀ name s, name ∈ order → stores c !! name = Some s → persisted s fs') ∧
  (∀ s0, persisted s0 fs →
         (∀ name s, name ∈ order → stores c !! name = Some s →
                    path_components (filePath s0) ≠ path_components (filePath s)) →
         persisted s0 fs').
Proof.
  intros Hnd Hpaths. revert fs.
  induction Hnd as [|name order Hnotin Hnd IH]; intros fs; cbn [close_loop].
  - intros [= <-]. split; [elem_cons|done].
  - destruct (stores c !! name) as [store|] eqn:Hs.
    + destruct (saveToFile store fs) as [[err|] fs1] eqn:Hsave; [done|].
      intros Hloop. destruct (IH fs1 Hloop) as [Hin Hkeep]. split.
      * intros name' s Hname' Hs'. apply elem_of_cons in Hname' as [->|Hname'].
        -- rewrite Hs in Hs'. injection Hs' as <-. apply Hkeep.
           ++ by eapply saveToFile_persisted.
           ++ intros name2 s2 Hin2 Hs2. apply (Hpaths name name2); [|done|done].
              by intros ->.
        -- by eapply Hin.
      * intros s0 (bytes & Henc & Hfile) Hfree. apply Hkeep.
        -- exists bytes. split; [done|].
           pose proof (saveToFile_other store fs _ bytes Hfile) as Hother.
           rewrite Hsave in Hother. apply Hother.
           apply (Hfree name store); [by apply elem_of_cons; left|done].
        -- intros name2 s2 Hin2. apply Hfree. by apply elem_of_cons; right.
    + intros Hloop. destruct (IH fs Hloop) as [Hin Hkeep]. split.
      * intros name' s Hname' Hs'. apply elem_of_cons in Hname' as [->|Hname'];
          [congruence|by eapply Hin].
      * intros s0 Hs0 Hfree. apply Hkeep; [done|].
        intros name2 s2 Hin2. apply Hfree. by apply elem_of_cons; right.
Qed.

Lemma close_loop_error order (c : Cacher any) fs err fs' :
  close_loop json_Encode order c fs = (Some err, fs') →
  ∃ name s fs1, name ∈ order ∧ stores c !! name = Some s ∧
                saveToFile s fs1 = (Some err, fs').
Proof.
  revert fs. induction order as [|name order IH]; intros fs; cbn [close_loop]; [done|].
  destruct (stores c !! name) as [store|] eqn:Hs.
  - destruct (saveToFile store fs) as [[err1|] fs1] eqn:Hsave.
    + intros [= <- <-]. exists name, store, fs.
      split; [by apply elem_of_cons; left|done].
    + intros Hloop. destruct (IH fs1 Hloop) as (n & s & fs2 & Hin & Hrest).
      exists n, s, fs2. split; [by apply elem_of_cons; right|done].
  - intros Hloop. destruct (IH fs Hloop) as (n & s & fs2 & Hin & Hrest).
    exists n, s, fs2. split; [by apply elem_of_cons; right|done].
Qed.

(** X2.  [Close] persists the stores of the registry one after the other
    and leaves the registry as it is.  When it returns no error and the
    stores have backing files of their own, the file of every registered
    bucket holds the encoding of its map.  An error it returns is the one
    [saveToFile] gave for a registered store, at which the loop stopped: the
    stores that come later in the iteration have not been written. *)
Theorem close_persists_every_store order (c : Cacher any) fs :
  order ≡ₚ (map_to_list (stores c)).*1 →
  let r := Cacher_Close json_Encode order (c, fs) in
  r.2.1 = c ∧
  (r.1 = None → separate_files c →
   ∀ name s, stores c !! name = Some s → persisted s r.2.2) ∧
  (∀ err, r.1 = Some err →
     ∃ name s fs1, stores c !! name = Some s ∧ saveToFile s fs1 = (Some err, r.2.2)).
Proof.
  intros Hperm r. subst r. unfold Cacher_Close.
  destruct (close_loop json_Encode order c fs) as [[err|] fs'] eqn:Hloop; cbn [fst snd].
  - split; [done|]. split; [done|]. intros err' [= <-].
    destruct (close_loop_error _ _ _ _ _ Hloop) as (n & s & fs1 & _ & Hs & Hsave).
    by exists n, s, fs1.
  - split; [done|]. split; [|done]. intros _ Hsep name s Hs.
    assert (NoDup order) as Hnd by (rewrite Hperm; apply NoDup_fst_map_to_list).
    destruct (close_loop_persists order c fs fs' Hnd Hsep Hloop) as [Hin _].
    apply (Hin name s); [|done]. rewrite Hperm. apply list_elem_of_fmap.
    exists (name, s). split; [done|]. by apply elem_of_map_to_list.
Qed.

(** ** [RemoveBucket] *)

(** X3.  [RemoveBucket] returns no error in every case.  Afterwards the
    bucket is not in the registry, the other buckets are, and every regular
    file but the one it removes, [dir/name] with the suffix [Ext] of the
    moment, is as it was.  When the cache directory holds no entry of that
    name, or holds a regular file that can be removed, the file is gone
    afterwards; and when [Ext] is [".cache"], the suffix [getStore] appends,
    the next access to the bucket starts from an empty map. *)
Theorem removeBucket_forgets_bucket bucketName (c : Cacher any) fs :
  let path := filepath_Join (dir c) (bucketName +:+ Ext) in
  let r := Cacher_RemoveBucket Ext bucketName (c, fs) in
  r.1 = None ∧
  stores r.2.1 !! bucketName = None ∧
  (∀ other, other ≠ bucketName → stores r.2.1 !! other = stores c !! other) ∧
  (∀ q content, lookup_path q (tree fs) = Some (File content) →
                q ≠ path_components path →
                lookup_path q (tree r.2.2) = Some (File content)) ∧
  (∀ es, wf_node (Dir es) →
         lookup_path (path_components (dir c)) (tree fs) = Some (Dir es) →
         valid_name (bucketName +:+ Ext) = true →
         assoc (bucketName +:+ Ext) es = None ∨
         ((∃ content, assoc (bucketName +:+ Ext) es = Some (File content)) ∧
          fault fs SysRemove path = false) →
         lookup_path (path_components path) (tree r.2.2) = None ∧
         (Ext = ".cache" →
          fault fs SysOpen path = false →
          (getStore bucketName r.2).1 = inr {| filePath := path; data := ∅ |})).
Proof.
  intros path r. subst r path. unfold Cacher_RemoveBucket. cbn [fst snd].
  set (path := filepath_Join (dir c) (bucketName +:+ Ext)).
  set (c' := match stores c !! bucketName with
             | Some _ => with_stores c (delete bucketName (stores c))
             | None => c
             end).
  set (fs' := match os_Remove fs path with inr fs' => fs' | inl _ => fs end).
  assert (stores c' !! bucketName = None) as Hgone_reg.
  { subst c'. destruct (stores c !! bucketName) eqn:Hs; [|done]. apply lookup_delete_eq. }
  assert (dir c' = dir c) as Hdir by (subst c'; by destruct (stores c !! bucketName)).
  assert (fault fs' = fault fs) as Hfault.
  { subst fs'. unfold os_Remove. destruct (fault fs SysRemove path); [done|].
    by destruct (remove_path _ _). }
  split; [done|]. split; [done|]. split; [|split].
  - intros other Hne. subst c'. destruct (stores c !! bucketName); [|done].
    cbn [stores with_stores]. by rewrite lookup_delete_ne.
  - intros q content Hq Hne. subst fs'. unfold os_Remove.
    destruct (fault fs SysRemove path); [done|].
    destruct (remove_path _ _) as [e|r'] eqn:Hrm; [done|].
    cbn [with_root tree]. by eapply remove_path_other.
  - intros es Hwf Hd Hvalid Hentry.
    assert (path_components path =
            (path_components (dir c) ++ [bucketName +:+ Ext])%list) as Hpc
      by (by apply path_components_Join).
    assert (∃ es', lookup_path (path_components (dir c)) (tree fs') = Some (Dir es') ∧
                   assoc (bucketName +:+ Ext) es' = None) as (es' & Hd' & Hx').
    { subst fs'. unfold os_Remove. destruct Hentry as [Hnone|[[content Hfile] Hrm]].
      - exists es. destruct (fault fs SysRemove path); [done|].
        by rewrite Hpc, (remove_path_absent _ _ es _ Hd Hnone).
      - exists (del_entry (bucketName +:+ Ext) es).
        rewrite Hrm, Hpc, (remove_path_entry _ _ content es _ Hd Hfile).
        cbn [with_root tree]. split; [by apply lookup_map_dir|].
        apply assoc_del_entry. by destruct Hwf. }
    destruct (missing_entry _ _ es' _ Hd' Hx') as [Hgone Hmissing].
    split; [by rewrite Hpc|]. intros HExt Hopen.
    unfold Cacher_getStore. rewrite Hgone_reg, Hdir.
    assert (filepath_Join (dir c) (bucketName +:+ ".cache") = path) as ->
      by (subst path; by rewrite HExt).
    unfold CacheStore_loadFromFile, os_Open. cbn [filePath].
    rewrite Hfault, Hopen, Hpc, Hgone, Hmissing.
    subst path. by rewrite HExt, bucket_path_nonempty.
Qed.

(** ** What [RemoveAllBy] leaves *)

Lemma removeAllBy_fn_spares (c : Cacher any) flt q content :
  (∀ name, strings_HasSuffix name Ext = true → flt name = true →
           q ≠ path_components (filepath_Join (dir c) name)) →
  ∀ path arg (st : FS * unit),
    lookup_path q (tree st.1) = Some (File content) →
    lookup_path q (tree (removeAllBy_fn Ext c flt path arg st).2.1) = Some (File content).
Proof.
  intros Hsafe path arg st Hq. unfold removeAllBy_fn.
  destruct arg as [info|info err]; [|done].
  destruct (negb (IsDir info)); [|done].
  destruct (strings_HasSuffix (Name info) Ext) eqn:Hsuffix; [|done]. cbn [negb].
  destruct (flt (Name info)) eqn:Hflt; [|done].
  unfold os_Remove. destruct (fault st.1 SysRemove _); [done|].
  destruct (remove_path _ _) as [e|r'] eqn:Hrm; [done|].
  cbn [fst snd with_root tree]. eapply remove_path_other; eauto.
Qed.

(** X4.  Whatever the shape of the directory and whichever system calls
    fail, [RemoveAllBy] removes nothing but entries of the cache directory
    whose name has the cache-file suffix and passes the filter: a regular
    file at any other place is there afterwards, with its content. *)
Theorem removeAllBy_spares_other_files flt (c : Cacher any) fs q content :
  lookup_path q (tree fs) = Some (File content) →
  (∀ name, strings_HasSuffix name Ext = true → flt name = true →
           q ≠ path_components (filepath_Join (dir c) name)) →
  lookup_path q (tree (Cacher_RemoveAllBy Ext flt (c, fs)).2.2) = Some (File content).
Proof.
  intros Hq Hsafe. unfold Cacher_RemoveAllBy.
  pose proof (filepath_Walk_inv (removeAllBy_fn Ext c flt)
                (λ fs', lookup_path q (tree fs') = Some (File content))
                (removeAllBy_fn_spares c flt q content Hsafe) (dir c) (fs, tt) Hq) as Hinv.
  by destruct (filepath_Walk _ _ _) as [err [fs' []]].
Qed.

(** ** A cache directory that cannot be read *)

(** X5.  When the cache directory cannot be examined (it does not exist,
    say), [GetTotalSize] returns 0 with the error of the walk wrapped, not a
    size; [RemoveAllBy] returns that error as it is and empties the registry
    all the same.  Neither touches the file system. *)
Theorem unreadable_directory_is_reported flt (c : Cacher any) fs err :
  os_Lstat fs (dir c) = inl err →
  Cacher_GetTotalSize (c, fs) =
  ((0, Some (Errorf "filecache: failed to walk the cache directory" err)), (c, fs)) ∧
  Cacher_RemoveAllBy Ext flt (c, fs) = (Some err, (with_stores c ∅, fs)).
Proof.
  intros Hstat. unfold Cacher_GetTotalSize, Cacher_RemoveAllBy, filepath_Walk.
  cbn [fst]. by rewrite Hstat.
Qed.

(** ** A map that cannot be encoded *)

(** X6.  [saveToFile] truncates the backing file before it encodes the map.
    When [Set] stores a payload with which the map cannot be encoded, the
    caller gets the encoding error, the entry is in the map in memory all
    the same, and the file, which held the bucket as persisted last, is
    left empty. *)
Theorem failed_encode_empties_file bucketName now ttl key value
    (c : Cacher any) fs store old err :
  stores c !! bucketName = Some store →
  lookup_path (path_components (filePath store)) (tree fs) = Some (File old) →
  fault fs SysCreate (filePath store) = false →
  let store' :=
    with_data store (<[key := {| Value := value; Expiration := Some (now + ttl) |}]>
                       (data store)) in
  json_Encode (data store') = inl err →
  ∃ fs',
    Cacher_Set json_Encode json_Decode bucketName now ttl key value (c, fs) =
    (Some (Errorf "filecache: failed to encode cache data" err),
     (with_stores c (<[bucketName := store']> (stores c)), fs')) ∧
    lookup_path (path_components (filePath store)) (tree fs') = Some (File "").
Proof.
  intros Hs Hfile Hfault store' Henc.
  destruct (put_file_exists _ old "" _ Hfile) as [r1 Hput].
  exists (with_root fs r1). split.
  - rewrite Set_is_update, update_and_save_run, (getStore_hit _ _ _ _ Hs). cbv zeta.
    unfold CacheStore_saveToFile, os_Create. cbn [filePath with_data].
    unfold time_Add, ToPtr. fold store'. by rewrite Hfault, Hput, Henc.
  - cbn [with_root tree]. by eapply put_file_lookup.
Qed.

(** ** Loading what was persisted *)

(** A store that has been persisted is the one [getStore] loads for a
    cacher that has not resolved the bucket yet, when decoding inverts the
    encoding of its map. *)
Lemma getStore_loads_persisted name (c : Cacher any) fs cs :
  stores c !! name = None →
  filePath cs = filepath_Join (dir c) (name +:+ ".cache") →
  persisted cs fs →
  fault fs SysOpen (filePath cs) = false →
  fault fs SysRead (filePath cs) = false →
  (∀ bytes, json_Encode (data cs) = inr bytes → json_Decode bytes = inr (data cs)) →
  getStore name (c, fs) = (inr cs, (with_stores c (<[name := cs]> (stores c)), fs)).
Proof.
  intros Hs Hpath (bytes & Henc & Hfile) Hopen Hread Hcodec.
  unfold Cacher_getStore. rewrite Hs.
  unfold CacheStore_loadFromFile, os_Open, read_all. cbn [filePath data].
  rewrite bucket_path_nonempty, <-Hpath, Hopen, Hfile, Hread, (Hcodec _ Henc).
  unfold with_data. cbn [filePath data]. rewrite (right_id_L ∅ (∪)).
  by destruct cs.
Qed.

(** ** Creating a cacher *)

(** X7.  [NewCacher] and [NewCacherWithExt] return a cacher with an empty
    registry and never an error, also when the directory could not be
    created.  Creating the directory removes or rewrites no regular file and
    keeps a directory that is already there, with its content.  When the
    call is not refused and no step of the path is a regular file, the
    cache directory exists afterwards. *)
Theorem newCacher_creates_directory (d e : string) fs :
  let r := @NewCacherWithExt any d e fs in
  @NewCacher any Ext d fs = @NewCacherWithExt any d Ext fs ∧
  r.1 = ({| dir := d; stores := ∅; ext := e |}, None) ∧
  (∀ q content, lookup_path q (tree fs) = Some (File content) →
                lookup_path q (tree r.2) = Some (File content)) ∧
  (∀ n, lookup_path (path_components d) (tree fs) = Some n →
        lookup_path (path_components d) (tree r.2) = Some n) ∧
  (fault fs SysMkdir d = false →
   (∀ q content, q `prefix_of` path_components d →
                 lookup_path q (tree fs) ≠ Some (File content)) →
   ∃ es, lookup_path (path_components d) (tree r.2) = Some (Dir es)).
Proof.
  intros r. subst r. unfold NewCacher, NewCacherWithExt, os_MkdirAll. cbn [fst snd].
  split; [done|]. split; [done|].
  destruct (fault fs SysMkdir d).
  { split; [done|]. split; done. }
  destruct (String.eqb_spec d "") as [->|Hd].
  { split; [done|]. split; [done|]. intros _ Hfree.
    destruct (tree fs) as [content|es] eqn:Htree; [|by exists es].
    destruct (Hfree [] content); [apply prefix_nil|done]. }
  destruct (mkdir_all (path_components d) (tree fs)) as [err|r'] eqn:Hmk; cbn [with_root tree].
  - split; [done|]. split; [done|]. intros _ Hfree.
    destruct (mkdir_all_succeeds _ _ Hfree) as [r' Hr']. congruence.
  - split; [|split].
    + intros q content Hq. by eapply mkdir_all_other.
    + intros n Hn. by eapply mkdir_all_keeps.
    + intros _ _. by eapply mkdir_all_dir.
Qed.

(** X8.  [RemoveBucket] drops the result of removing the file, [dir/name]
    with the suffix [Ext] of the moment.  When the removal fails (the
    directory is read-only, say) for a bucket whose map is the one its file
    [dir/name.cache] holds, the call returns no error all the same, and
    the bucket is back at the next access, loaded from the file with all
    its entries: the state is then what it was before [RemoveBucket]. *)
Theorem removeBucket_failure_is_silent bucketName (c : Cacher any) fs cs err :
  let path := filepath_Join (dir c) (bucketName +:+ ".cache") in
  stores c !! bucketName = Some cs →
  filePath cs = path →
  persisted cs fs →
  os_Remove fs (filepath_Join (dir c) (bucketName +:+ Ext)) = inl err →
  fault fs SysOpen path = false →
  fault fs SysRead path = false →
  (∀ bytes, json_Encode (data cs) = inr bytes → json_Decode bytes = inr (data cs)) →
  let st' := (with_stores c (delete bucketName (stores c)), fs) in
  Cacher_RemoveBucket Ext bucketName (c, fs) = (None, st') ∧
  stores st'.1 !! bucketName = None ∧
  getStore bucketName st' = (inr cs, (c, fs)).
Proof.
  intros path Hs Hpath Hpers Hrm Hopen Hread Hcodec st'. subst st' path.
  split; [|split].
  - unfold Cacher_RemoveBucket. by rewrite Hs, Hrm.
  - apply lookup_delete_eq.
  - rewrite <-Hpath in Hopen, Hread.
    rewrite (getStore_loads_persisted bucketName _ fs cs); try done.
    + cbn [stores with_stores]. rewrite insert_delete_eq, insert_id by done.
      by destruct c.
    + apply lookup_delete_eq.
Qed.

(** ** The size of a bucket file *)

Lemma GetTotalSize_run (c : Cacher any) fs n :
  dir c ≠ "" →
  (∀ sc p, fault fs sc p = false) →
  lookup_path (path_components (dir c)) (tree fs) = Some n →
  wf_node n →
  Cacher_GetTotalSize (c, fs) = ((wrap64 (tree_size n), None), (c, fs)).
Proof.
  intros Hpath Hfault Hn Hwf.
  unfold Cacher_GetTotalSize, filepath_Walk, os_Lstat. cbn [fst].
  rewrite Hfault, (proj2 (String.eqb_neq _ _) Hpath), Hn.
  rewrite (walk_read_only getTotalSize_fn fs add_size (λ _ _, True) Hfault).
  - by rewrite walk_fold_add_size.
  - intros. apply getTotalSize_fn_reads.
  - apply lookup_path_height in Hn. lia.
  - done.
  - clear. generalize (filepath_Base (dir c)).
    induction n as [content|es IH] using node_induction; intros name; [done|].
    split; [done|]. induction IH as [|e es He _ IHes]; simpl; auto.
  - done.
Qed.

(** X9.  The first [Set] on a bucket of an empty cache directory whose path
    is not the empty one, when no system call fails, loads nothing, creates
    the file [dir/name.cache] with the encoding of the one-entry map, and
    returns no error; the directory then holds that file only, and
    [GetTotalSize] returns its length in bytes (in 64-bit arithmetic). *)
Theorem total_size_after_first_set bucketName now ttl key value
    (c : Cacher any) fs bytes :
  dir c ≠ "" →
  (∀ sc p, fault fs sc p = false) →
  lookup_path (path_components (dir c)) (tree fs) = Some (Dir []) →
  valid_name (bucketName +:+ ".cache") = true →
  stores c !! bucketName = None →
  json_Encode {[ key := {| Value := value; Expiration := Some (now + ttl) |} ]} = inr bytes →
  ∃ st',
    Cacher_Set json_Encode json_Decode bucketName now ttl key value (c, fs) = (None, st') ∧
    lookup_path (path_components (dir c)) (tree st'.2) =
    Some (Dir [(bucketName +:+ ".cache", File bytes)]) ∧
    (Cacher_GetTotalSize st').1 = (wrap64 (Z.of_nat (String.length bytes)), None).
Proof.
  intros Hpath Hfault Hdir Hvalid Hnew Henc.
  set (x := bucketName +:+ ".cache") in *.
  set (comps := path_components (dir c)) in *.
  assert (path_components (filepath_Join (dir c) x) = (comps ++ [x])%list) as Hpc
    by (by apply path_components_Join).
  set (store0 := {| filePath := filepath_Join (dir c) x;
                    data := (∅ : gmap string (cacheItem any)) |}).
  assert (getStore bucketName (c, fs) =
          (inr store0, (with_stores c (<[bucketName := store0]> (stores c)), fs))) as Hget.
  { unfold Cacher_getStore. rewrite Hnew. fold x.
    unfold CacheStore_loadFromFile, os_Open. cbn [filePath].
    destruct (missing_entry comps x [] (tree fs) Hdir eq_refl) as [Hlk Hmissing].
    rewrite Hfault, filepath_Join_nonempty by (by apply valid_name_nonempty).
    by rewrite Hpc, Hlk, Hmissing. }
  set (tree1 := map_dir comps (set_entry x (File "")) (tree fs)).
  set (tree2 := map_dir comps (set_entry x (File bytes)) tree1).
  assert (lookup_path comps tree1 = Some (Dir [(x, File "")])) as Hdir1
    by (subst tree1; by rewrite (lookup_map_dir comps _ []) by done).
  assert (lookup_path comps tree2 = Some (Dir [(x, File bytes)])) as Hdir2.
  { subst tree2. rewrite (lookup_map_dir comps _ [(x, File "")]) by done.
    cbn [set_entry]. by rewrite String.eqb_refl. }
  exists (with_stores c (<[bucketName := with_data store0
                             {[ key := {| Value := value; Expiration := Some (now + ttl) |} ]}]>
                           (<[bucketName := store0]> (stores c))),
          with_root fs tree2).
  split; [|split].
  - rewrite Set_is_update, update_and_save_run, Hget. cbv zeta.
    unfold CacheStore_saveToFile, os_Create, write_all, ToPtr, time_Add.
    cbn [filePath data with_data store0].
    rewrite Hfault, Hpc, (put_file_entry comps x "" [] (tree fs) Hdir) by done.
    fold tree1. rewrite insert_empty, Henc. cbn [with_root tree fault].
    rewrite Hfault, (put_file_entry comps x bytes [(x, File "")] tree1 Hdir1).
    + done.
    + intros sub. cbn [assoc]. by rewrite String.eqb_refl.
  - done.
  - cbn [fst snd].
    rewrite (GetTotalSize_run _ (with_root fs tree2) (Dir [(x, File bytes)])).
    + cbn [fst tree_size foldr snd]. do 2 f_equal. lia.
    + done.
    + done.
    + done.
    + cbn [wf_node foldr fst snd]. repeat split; try done.
      rewrite fmap_cons. apply NoDup_singleton.
Qed.

(** ** Decoding a payload *)


Section TypedProperties.
Context {T : Type}.
Variable zero : T.
Variable json_Unmarshal : string → T → option error * T.

Local Abbreviation Get := (Cacher_Get json_Marshal json_Encode json_Decode json_Unmarshal).
Local Abbreviation GetFrozen :=
  (Cacher_GetFrozen json_Marshal json_Decode json_Unmarshal).
Local Abbreviation decode := (decode json_Marshal zero json_Unmarshal).

Lemma Range_run {A} (f : string → T → A → bool * A) bucketName sched acc c fs :
  Range json_Marshal json_Encode json_Decode zero json_Unmarshal f
        bucketName sched acc (c, fs) =
  match getStore bucketName (c, fs) with
  | (inl err, st) => ((Some err, acc), st)
  | (inr store, (c1, fs1)) =>
      let '(err, d, acc') :=
        range_loop json_Marshal zero json_Unmarshal f sched (data store) acc in
      let store' := with_data store d in
      let c' := with_stores c1 (<[bucketName := store']> (stores c1)) in
      match err with
      | Some err => ((Some err, acc'), (c', fs1))
      | None => let '(r, fs') := saveToFile store' fs1 in ((r, acc'), (c', fs'))
      end
  end.
Proof.
  unfold Range, bind.
  destruct (getStore bucketName (c, fs)) as [[err|store] [c1 fs1]]; [done|].
  destruct (range_loop _ _ _ _ _ _ _) as [[[err|] d] acc']; simpl; [done|].
  by destruct (saveToFile _ fs1).
Qed.

Lemma DeleteIf_run bucketName order cond c fs :
  DeleteIf json_Marshal json_Encode json_Decode zero json_Unmarshal
           bucketName order cond (c, fs) =
  match getStore bucketName (c, fs) with
  | (inl err, st) => (Some err, st)
  | (inr store, (c1, fs1)) =>
      let '(err, d) :=
        deleteIf_loop json_Marshal zero json_Unmarshal cond order (data store) in
      let store' := with_data store d in
      let c' := with_stores c1 (<[bucketName := store']> (stores c1)) in
      match err with
      | Some err => (Some err, (c', fs1))
      | None => let '(r, fs') := saveToFile store' fs1 in (r, (c', fs'))
      end
  end.
Proof.
  unfold DeleteIf, bind.
  destruct (getStore bucketName (c, fs)) as [[err|store] [c1 fs1]]; [done|].
  destruct (deleteIf_loop _ _ _ _ _ _) as [[err|] d]; simpl; [done|].
  by destruct (saveToFile _ fs1).
Qed.

Lemma Get_run bucketName now key out c fs :
  Get bucketName now key out (c, fs) =
  match getStore bucketName (c, fs) with
  | (inl err, st) => ((false, Some err, out), st)
  | (inr store, (c1, fs1)) =>
      match data store !! key with
      | None => ((false, None, out), (c1, fs1))
      | Some item =>
          if expired now item then
            let store' := with_data store (delete key (data store)) in
            ((false, None, out),
             (with_stores c1 (<[bucketName := store']> (stores c1)),
              (saveToFile store' fs1).2))
          else
            match json_Marshal (Value item) with
            | inl err => ((false, Some err, out), (c1, fs1))
            | inr bytes =>
                ((true, (json_Unmarshal bytes out).1, (json_Unmarshal bytes out).2),
                 (c1, fs1))
            end
      end
  end.
Proof.
  unfold Cacher_Get, bind.
  destruct (getStore bucketName (c, fs)) as [[err|store] [c1 fs1]]; [done|].
  destruct (data store !! key) as [item|]; [|done].
  destruct (expired now item).
  - simpl. by destruct (saveToFile _ fs1).
  - destruct (json_Marshal (Value item)); [done|].
    by destruct (json_Unmarshal _ out).
Qed.

Lemma GetFrozen_run bucketName key out c fs :
  GetFrozen bucketName key out (c, fs) =
  match getStore bucketName (c, fs) with
  | (inl err, st) => ((false, Some err, out), st)
  | (inr store, st1) =>
      match data store !! key with
      | None => ((false, None, out), st1)
      | Some item =>
          match json_Marshal (Value item) with
          | inl err => ((false, Some err, out), st1)
          | inr bytes =>
              ((true, (json_Unmarshal bytes out).1, (json_Unmarshal bytes out).2), st1)
          end
      end
  end.
Proof.
  unfold Cacher_GetFrozen, bind.
  destruct (getStore bucketName (c, fs)) as [[err|store] st1]; [done|].
  destruct (data store !! key) as [item|]; [|done].
  destruct (json_Marshal (Value item)); [done|].
  by destruct (json_Unmarshal _ out).
Qed.

(** ** Persist failures and what the caller sees *)

Lemma DeleteIf_outcome bucketName order cond st r st' :
  DeleteIf json_Marshal json_Encode json_Decode zero json_Unmarshal
           bucketName order cond st = (r, st') →
  persist_outcome json_Encode bucketName st r st'.
Proof.
  destruct st as [c fs]. rewrite DeleteIf_run.
  pose proof (getStore_fs bucketName (c, fs)) as Hfs.
  destruct (getStore bucketName (c, fs)) as [[err|store] [c1 fs1]]; simpl in Hfs.
  - intros [= <- <-]. left. eauto.
  - destruct (deleteIf_loop _ _ _ _ _ _) as [[err|] d]; cbv zeta.
    + intros [= <- <-]. left. eauto.
    + destruct (saveToFile _ fs1) as [r' fs'] eqn:Hsave.
      intros [= <- <-]. right. eexists _, fs1. split; [apply lookup_insert_eq|done].
Qed.

Lemma Range_outcome {A} (f : string → T → A → bool * A) bucketName sched acc st r acc' st' :
  Range json_Marshal json_Encode json_Decode zero json_Unmarshal f
        bucketName sched acc st = ((r, acc'), st') →
  persist_outcome json_Encode bucketName st r st'.
Proof.
  destruct st as [c fs]. rewrite Range_run.
  pose proof (getStore_fs bucketName (c, fs)) as Hfs.
  destruct (getStore bucketName (c, fs)) as [[err|store] [c1 fs1]]; simpl in Hfs.
  - intros [= <- _ <-]. left. eauto.
  - destruct (range_loop _ _ _ _ _ _ _) as [[[err|] d] acc'']; cbv zeta.
    + intros [= <- _ <-]. left. eauto.
    + destruct (saveToFile _ fs1) as [r' fs'] eqn:Hsave.
      intros [= <- _ <-]. right. eexists _, fs1. split; [apply lookup_insert_eq|done].
Qed.

(** [GetAll] persists twice, in [Range] and once more by itself; its
    result is that of the first persist when it failed, of the second
    otherwise. *)
Lemma GetAll_outcome bucketName sched m st r st' :
  GetAll json_Marshal json_Encode json_Decode zero json_Unmarshal
         bucketName sched st = ((m, r), st') →
  persist_outcome json_Encode bucketName st r st'.
Proof.
  destruct st as [c fs]. unfold GetAll, bind at 1.
  pose proof (getStore_fs bucketName (c, fs)) as Hfs.
  destruct (getStore bucketName (c, fs)) as [[err|store] [c1 fs1]] eqn:Hget;
    simpl in Hfs.
  { intros [= _ <- <-]. left. eauto. }
  apply getStore_registered in Hget as (Hs & _). unfold bind at 1.
  rewrite Range_run, (getStore_hit _ _ _ _ Hs).
  destruct (range_loop _ _ _ _ _ _ _) as [[[err|] d] acc']; cbv zeta.
  { intros [= _ <- <-]. left. eauto. }
  destruct (saveToFile _ fs1) as [[err|] fs2] eqn:Hsave1.
  { intros [= _ <- <-]. right. eexists _, fs1. split; [apply lookup_insert_eq|done]. }
  unfold bind, deref, on_fs. cbn [stores with_stores]. rewrite lookup_insert_eq.
  cbn [default]. destruct (saveToFile _ fs2) as [r' fs3] eqn:Hsave2.
  intros [= _ <- <-]. right. eexists _, fs2. split; [apply lookup_insert_eq|done].
Qed.

(** C1 (amended).  [Set], [SetFrozen], [Delete], [EmptyBucket],
    [CleanBucket], [DeleteIf], [Range] and [GetAll] end either with an error
    met before any file was touched, or with the very result of persisting
    the map they leave in the store of the bucket: a failed persist is what
    the caller gets, and no error is returned only when that map has been
    written to the backing file.  The eviction of an expired entry by [Get]
    is the exception: the entry is deleted from the map, the result of the
    persist is dropped, and the call returns found = false with no
    error. *)
Theorem mutations_persist_or_fail (bucketName : string) (st st' : State any)
    (r : option error) :
  let reported :=
    persist_outcome json_Encode bucketName st r st' ∧
    (r = None → persisted_bucket bucketName st') in
  (∀ now ttl key value,
     Cacher_Set json_Encode json_Decode bucketName now ttl key value st = (r, st') →
     reported) ∧
  (∀ key value,
     Cacher_SetFrozen json_Encode json_Decode bucketName key value st = (r, st') →
     reported) ∧
  (∀ key,
     Cacher_Delete json_Encode json_Decode bucketName key st = (r, st') →
     reported) ∧
  (Cacher_EmptyBucket json_Encode json_Decode bucketName st = (r, st') →
     reported) ∧
  (∀ sched,
     Cacher_CleanBucket json_Encode json_Decode bucketName sched st = (r, st') →
     reported) ∧
  (∀ order cond,
     DeleteIf json_Marshal json_Encode json_Decode zero json_Unmarshal
              bucketName order cond st = (r, st') →
     reported) ∧
  (∀ A (f : string → T → A → bool * A) sched acc acc',
     Range json_Marshal json_Encode json_Decode zero json_Unmarshal f
           bucketName sched acc st = ((r, acc'), st') →
     reported) ∧
  (∀ sched m,
     GetAll json_Marshal json_Encode json_Decode zero json_Unmarshal
            bucketName sched st = ((m, r), st') →
     reported) ∧
  (∀ now key out store c1 fs1 item,
     getStore bucketName st = (inr store, (c1, fs1)) →
     data store !! key = Some item →
     expired now item = true →
     let store' := with_data store (delete key (data store)) in
     Get bucketName now key out st =
     ((false, None, out),
      (with_stores c1 (<[bucketName := store']> (stores c1)),
       (saveToFile store' fs1).2))).
Proof.
  assert (persist_outcome json_Encode bucketName st r st' →
          persist_outcome json_Encode bucketName st r st' ∧
          (r = None → persisted_bucket bucketName st')) as Hrep.
  { intros H. split; [done|]. intros ->. by eapply persist_outcome_success. }
  intros reported. subst reported.
  split; [|split; [|split; [|split; [|split; [|split; [|split; [|split]]]]]]].
  - intros now ttl key value. rewrite Set_is_update. intros H.
    by apply Hrep, (update_and_save_outcome _ _ _ _ _ H).
  - intros key value. rewrite SetFrozen_is_update. intros H.
    by apply Hrep, (update_and_save_outcome _ _ _ _ _ H).
  - intros key. rewrite Delete_is_update. intros H.
    by apply Hrep, (update_and_save_outcome _ _ _ _ _ H).
  - rewrite EmptyBucket_is_update. intros H.
    by apply Hrep, (update_and_save_outcome _ _ _ _ _ H).
  - intros sched. rewrite CleanBucket_is_update. intros H.
    by apply Hrep, (update_and_save_outcome _ _ _ _ _ H).
  - intros order cond H. by apply Hrep, (DeleteIf_outcome _ _ _ _ _ _ H).
  - intros A f sched acc acc' H. by apply Hrep, (Range_outcome _ _ _ _ _ _ _ _ H).
  - intros sched m H. by apply Hrep, (GetAll_outcome _ _ _ _ _ _ H).
  - intros now key out store c1 fs1 item Hget Hitem Hexp.
    destruct st as [c fs]. rewrite Get_run, Hget, Hitem, Hexp. done.
Qed.

(** ** Reading an entry *)

(** The state a successful [Set] leaves: the bucket is registered and
    its map holds the entry. *)
Lemma update_and_save_state bucketName g st r st' :
  upd_save bucketName g st = (r, st') →
  (∃ err, r = Some err ∧ getStore bucketName st = (inl err, st')) ∨
  ∃ store c1 fs1,
    getStore bucketName st = (inr store, (c1, fs1)) ∧
    st'.1 = with_stores c1 (<[bucketName := with_data store (g (data store))]> (stores c1)) ∧
    (r, st'.2) = saveToFile (with_data store (g (data store))) fs1.
Proof.
  destruct st as [c fs]. rewrite update_and_save_run.
  destruct (getStore bucketName (c, fs)) as [[err|store] [c1 fs1]] eqn:Hget.
  - intros [= <- <-]. left. eauto.
  - simpl. destruct (saveToFile _ fs1) as [r' fs'] eqn:Hsave.
    intros [= <- <-]. right. exists store, c1, fs1. simpl. by rewrite Hsave.
Qed.

Lemma Set_entry bucketName now ttl key value st st' :
  Cacher_Set json_Encode json_Decode bucketName now ttl key value st = (None, st') →
  ∃ store,
    stores st'.1 !! bucketName = Some store ∧
    data store !! key = Some {| Value := value; Expiration := Some (now + ttl) |}.
Proof.
  rewrite Set_is_update. intros H.
  apply update_and_save_state in H as [(err & ? & _)|(store & c1 & fs1 & _ & -> & _)];
    [done|].
  eexists. split; simpl; [apply lookup_insert_eq|]. simpl. apply lookup_insert_eq.
Qed.

Lemma SetFrozen_entry bucketName key value st st' :
  Cacher_SetFrozen json_Encode json_Decode bucketName key value st = (None, st') →
  ∃ store,
    stores st'.1 !! bucketName = Some store ∧
    data store !! key = Some {| Value := value; Expiration := None |}.
Proof.
  rewrite SetFrozen_is_update. intros H.
  apply update_and_save_state in H as [(err & ? & _)|(store & c1 & fs1 & _ & -> & _)];
    [done|].
  eexists. split; simpl; [apply lookup_insert_eq|]. simpl. apply lookup_insert_eq.
Qed.

(** [Get] on an entry that has not expired: the decoded value, and
    nothing changes. *)
Lemma Get_live bucketName now key out c fs store item v :
  stores c !! bucketName = Some store →
  data store !! key = Some item →
  expired now item = false →
  round_trips json_Marshal json_Unmarshal (Value item) v →
  Get bucketName now key out (c, fs) = ((true, None, v), (c, fs)).
Proof.
  intros Hs Hk He (bytes & Hm & Hu).
  rewrite Get_run, (getStore_hit _ _ _ _ Hs), Hk, He, Hm, Hu. done.
Qed.

Lemma GetFrozen_found bucketName key out c fs store item v :
  stores c !! bucketName = Some store →
  data store !! key = Some item →
  round_trips json_Marshal json_Unmarshal (Value item) v →
  GetFrozen bucketName key out (c, fs) = ((true, None, v), (c, fs)).
Proof.
  intros Hs Hk (bytes & Hm & Hu).
  rewrite GetFrozen_run, (getStore_hit _ _ _ _ Hs), Hk, Hm, Hu. done.
Qed.

(** C4.  After [Set] of [value] with a positive [ttl] has succeeded, a
    [Get] of the key before the ttl has run out (at once, in
    particular) returns found = true, no error, and the value decoded in
    the shape of the caller, equal to the one stored. *)
Theorem set_then_get_round_trip bucketName now ttl key value (v : T)
    st st' now' fs' out :
  0 < ttl →
  0 ≤ now' - now < ttl →
  round_trips json_Marshal json_Unmarshal value v →
  Cacher_Set json_Encode json_Decode bucketName now ttl key value st = (None, st') →
  Get bucketName now' key out (st'.1, fs') = ((true, None, v), (st'.1, fs')).
Proof.
  intros Httl Hnow Hrt Hset.
  apply Set_entry in Hset as (store & Hs & Hk).
  eapply Get_live; eauto.
  unfold expired, time_After; simpl. apply Z.ltb_ge. lia.
Qed.

(** An entry without expiration is never found expired: the loops of
    [CleanBucket] and [Range] leave it in the map. *)
Lemma clean_loop_keeps_frozen sched (d : gmap string (cacheItem any)) key value :
  d !! key = Some {| Value := value; Expiration := None |} →
  clean_loop sched d !! key = Some {| Value := value; Expiration := None |}.
Proof.
  revert d. induction sched as [|[k now] sched IH]; intros d Hkey; [done|].
  cbn [clean_loop]. destruct (d !! k) as [item|] eqn:Hk; [|by apply IH].
  destruct (expired now item) eqn:Hexp; [|by apply IH].
  apply IH. rewrite lookup_delete_ne; [done|].
  intros ->. rewrite Hkey in Hk. injection Hk as <-. discriminate Hexp.
Qed.

Lemma range_loop_keeps_frozen {A} (f : string → T → A → bool * A) sched
    (d : gmap string (cacheItem any)) acc key value :
  d !! key = Some {| Value := value; Expiration := None |} →
  (range_loop json_Marshal zero json_Unmarshal f sched d acc).1.2 !! key =
  Some {| Value := value; Expiration := None |}.
Proof.
  revert d acc. induction sched as [|[k now] sched IH]; intros d acc Hkey; [done|].
  cbn [range_loop]. destruct (d !! k) as [item|] eqn:Hk; [|by apply IH].
  destruct (expired now item) eqn:Hexp.
  - apply IH. rewrite lookup_delete_ne; [done|].
    intros ->. rewrite Hkey in Hk. injection Hk as <-. discriminate Hexp.
  - destruct (decode item) as [err|out]; [done|].
    destruct (f k out acc) as [[|] acc']; [by apply IH|done].
Qed.

(** C8.  An entry stored by [SetFrozen] has no expiration; [Get], at any
    instant, and [GetFrozen] both return found = true with the stored
    value, and leave the cacher and the file system as they are, so the
    entry is still there for the next call.  Nor do the other walks that
    evict expired entries, [CleanBucket] and [Range], take it out of the
    bucket, whatever the clock reads. *)
Theorem frozen_never_expires bucketName key value (v : T) st st' :
  round_trips json_Marshal json_Unmarshal value v →
  Cacher_SetFrozen json_Encode json_Decode bucketName key value st = (None, st') →
  let frozen := {| Value := value; Expiration := None |} in
  let holds (st : State any) :=
    ∃ store, stores st.1 !! bucketName = Some store ∧ data store !! key = Some frozen in
  holds st' ∧
  (∀ now fs' out,
     Get bucketName now key out (st'.1, fs') = ((true, None, v), (st'.1, fs'))) ∧
  (∀ fs' out,
     GetFrozen bucketName key out (st'.1, fs') = ((true, None, v), (st'.1, fs'))) ∧
  (∀ sched fs',
     holds (Cacher_CleanBucket json_Encode json_Decode bucketName sched (st'.1, fs')).2) ∧
  (∀ A (f : string → T → A → bool * A) sched acc fs',
     holds (Range json_Marshal json_Encode json_Decode zero json_Unmarshal f
                  bucketName sched acc (st'.1, fs')).2).
Proof.
  intros Hrt Hset frozen holds.
  apply SetFrozen_entry in Hset as (store & Hs & Hk).
  split; [by exists store|]. split; [|split; [|split]].
  - intros. eapply Get_live; eauto.
  - intros. eapply GetFrozen_found; eauto.
  - intros sched fs'. rewrite CleanBucket_is_update, update_and_save_run.
    rewrite (getStore_hit _ _ _ _ Hs). cbv zeta.
    destruct (saveToFile _ fs') as [r fs2]. eexists.
    split; [apply lookup_insert_eq|]. by apply clean_loop_keeps_frozen.
  - intros A f sched acc fs'. rewrite Range_run, (getStore_hit _ _ _ _ Hs).
    pose proof (range_loop_keeps_frozen f sched (data store) acc key value Hk) as Hkeep.
    destruct (range_loop _ _ _ _ _ _ _) as [[[err|] d] acc']; cbv zeta.
    + eexists. split; [apply lookup_insert_eq|done].
    + destruct (saveToFile _ fs') as [r fs2]. eexists.
      split; [apply lookup_insert_eq|done].
Qed.

(** C10.  [GetFrozen] reads no clock and writes nothing: whatever the
    expiration of the entry, and so when it lies strictly in the past,
    it returns found = true with the decoded value; the store keeps the
    entry and the file system is as before. *)
Theorem getFrozen_ignores_expiration bucketName key out st store st1
    (now e : Time) value (v : T) :
  getStore bucketName st = (inr store, st1) →
  data store !! key = Some {| Value := value; Expiration := Some e |} →
  e < now →
  round_trips json_Marshal json_Unmarshal value v →
  GetFrozen bucketName key out st = ((true, None, v), st1) ∧
  st1.2 = st.2 ∧
  (∃ store', stores st1.1 !! bucketName = Some store' ∧
             data store' !! key = Some {| Value := value; Expiration := Some e |}) ∧
  expired now {| Value := value; Expiration := Some e |} = true.
Proof.
  intros Hget Hk He (bytes & Hm & Hu).
  destruct st as [c fs], st1 as [c1 fs1].
  rewrite GetFrozen_run, Hget, Hk. simpl. rewrite Hm, Hu.
  apply getStore_registered in Hget as (Hs & -> & _).
  repeat split; eauto.
  unfold expired, time_After; simpl. by apply Z.ltb_lt.
Qed.

(** ** Entries that are not in the map are not visited *)

Lemma range_loop_absent_key {A} (f g : string → T → A → bool * A) key sched d acc :
  d !! key = None →
  (∀ k x a, k ≠ key → f k x a = g k x a) →
  range_loop json_Marshal zero json_Unmarshal f sched d acc =
  range_loop json_Marshal zero json_Unmarshal g sched d acc.
Proof.
  intros Hd Hfg. revert d acc Hd.
  induction sched as [|[k now] sched IH]; intros d acc Hd; simpl; [done|].
  destruct (d !! k) as [item|] eqn:Hk; [|by apply IH].
  assert (k ≠ key) as Hne by (intros ->; congruence).
  destruct (expired now item).
  - apply IH. by rewrite lookup_delete_ne.
  - destruct (decode item) as [err|x]; [done|].
    rewrite (Hfg _ _ _ Hne). destruct (g k x acc) as [[|] acc']; [|done].
    by apply IH.
Qed.

Lemma range_loop_collect_absent key sched d (acc : gmap string T) :
  d !! key = None →
  acc !! key = None →
  (range_loop json_Marshal zero json_Unmarshal
     (λ key value data, (true, <[key := value]> data)) sched d acc).2 !! key = None.
Proof.
  revert d acc. induction sched as [|[k now] sched IH]; intros d acc Hd Hacc;
    simpl; [done|].
  destruct (d !! k) as [item|] eqn:Hk; [|by apply IH].
  assert (k ≠ key) as Hne by (intros ->; congruence).
  destruct (expired now item).
  - apply IH; [|done]. by rewrite lookup_delete_ne.
  - destruct (decode item) as [err|x]; [done|].
    apply IH; [done|]. by rewrite lookup_insert_ne.
Qed.

Lemma GetAll_absent_key bucketName key sched c fs store m r st' :
  stores c !! bucketName = Some store →
  data store !! key = None →
  GetAll json_Marshal json_Encode json_Decode zero json_Unmarshal
         bucketName sched (c, fs) = ((Some m, r), st') →
  m !! key = None.
Proof.
  intros Hs Hk. unfold GetAll, bind at 1.
  rewrite (getStore_hit _ _ _ _ Hs). unfold bind at 1.
  rewrite Range_run, (getStore_hit _ _ _ _ Hs).
  pose proof (range_loop_collect_absent key sched (data store) ∅ Hk
                (lookup_empty _)) as Habs.
  destruct (range_loop _ _ _ _ _ _ _) as [[[err|] d] acc']; simpl in *; [done|].
  destruct (saveToFile _ fs) as [[err|] fs1]; simpl; [done|].
  unfold bind, deref, on_fs. simpl.
  destruct (saveToFile _ fs1) as [r' fs2]. by intros [= <- _ _].
Qed.

Lemma Range_absent_key {A} (f g : string → T → A → bool * A)
    bucketName key sched acc c fs store :
  stores c !! bucketName = Some store →
  data store !! key = None →
  (∀ k x a, k ≠ key → f k x a = g k x a) →
  Range json_Marshal json_Encode json_Decode zero json_Unmarshal f
        bucketName sched acc (c, fs) =
  Range json_Marshal json_Encode json_Decode zero json_Unmarshal g
        bucketName sched acc (c, fs).
Proof.
  intros Hs Hk Hfg. rewrite !Range_run, (getStore_hit _ _ _ _ Hs).
  by rewrite (range_loop_absent_key f g key sched (data store) acc Hk Hfg).
Qed.

(** C3 (amended).  For an entry set with [ttl = d], a later [Get] returns
    (true, V) as long as the time elapsed since the [Set] is at most [d],
    the instant of expiration included, and (false, _) once it is more
    than [d].  After such an expired [Get] the key is no longer in the
    map: [GetAll] does not return it and [Range] does not call the
    visitor on it (visitors that differ on that key only run alike). *)
Theorem ttl_expiry bucketName now d key value (v : T) st st' :
  round_trips json_Marshal json_Unmarshal value v →
  Cacher_Set json_Encode json_Decode bucketName now d key value st = (None, st') →
  (∀ now' fs' out,
     now' - now ≤ d →
     Get bucketName now' key out (st'.1, fs') = ((true, None, v), (st'.1, fs'))) ∧
  (∀ now' fs' out,
     d < now' - now →
     ∃ st2,
       Get bucketName now' key out (st'.1, fs') = ((false, None, out), st2) ∧
       (∀ sched fs3 m r st3,
          GetAll json_Marshal json_Encode json_Decode zero json_Unmarshal
                 bucketName sched (st2.1, fs3) = ((Some m, r), st3) →
          m !! key = None) ∧
       (∀ A (f g : string → T → A → bool * A) sched acc fs3,
          (∀ k x a, k ≠ key → f k x a = g k x a) →
          Range json_Marshal json_Encode json_Decode zero json_Unmarshal f
                bucketName sched acc (st2.1, fs3) =
          Range json_Marshal json_Encode json_Decode zero json_Unmarshal g
                bucketName sched acc (st2.1, fs3))).
Proof.
  intros Hrt Hset.
  apply Set_entry in Hset as (store & Hs & Hk).
  split; intros now' fs' out Hel.
  - eapply Get_live; eauto.
    unfold expired, time_After; simpl. apply Z.ltb_ge. lia.
  - rewrite Get_run, (getStore_hit _ _ _ _ Hs), Hk.
    assert (expired now' {| Value := value; Expiration := Some (now + d) |} = true)
      as -> by (unfold expired, time_After; simpl; apply Z.ltb_lt; lia).
    eexists. split; [done|]. simpl.
    split.
    + intros sched fs3 m r st3. eapply GetAll_absent_key.
      * simpl. apply lookup_insert_eq.
      * simpl. apply lookup_delete_eq.
    + intros A f g sched acc fs3 Hfg. eapply Range_absent_key; [| |done].
      * simpl. apply lookup_insert_eq.
      * simpl. apply lookup_delete_eq.
Qed.

(** ** [DeleteIf] *)

Local Abbreviation decodable := (all_decode json_Marshal zero json_Unmarshal).
Local Abbreviation matching := (matches json_Marshal zero json_Unmarshal).

Lemma all_decode_delete k d : decodable d → decodable (delete k d).
Proof.
  intros H k' item Hk'. apply lookup_delete_Some in Hk' as [_ Hk']. eauto.
Qed.

(** The loop leaves the keys it has not been given, and filters the
    others. *)
Lemma deleteIf_loop_spec cond order d :
  NoDup order →
  decodable d →
  ∃ d', deleteIf_loop json_Marshal zero json_Unmarshal cond order d = (None, d') ∧
        ∀ k, (k ∈ order →
              d' !! k = match d !! k with
                        | Some item => if matching cond k item then None else Some item
                        | None => None
                        end) ∧
             (k ∉ order → d' !! k = d !! k).
Proof.
  intros Hnd. revert d.
  induction Hnd as [|key order Hnotin Hnd IH]; intros d Hdec; simpl.
  - exists d. split; [done|]. intros k. split; [elem_cons|done].
  - destruct (d !! key) as [item|] eqn:Hkey.
    + destruct (Hdec _ _ Hkey) as [out Hout]. rewrite Hout.
      assert (matching cond key item = cond key out) as Hm
        by (unfold matches; by rewrite Hout).
      destruct (cond key out) eqn:Hc.
      * destruct (IH (delete key d) (all_decode_delete _ _ Hdec)) as (d' & -> & Hd').
        exists d'. split; [done|]. intros k.
        destruct (Hd' k) as [Hin Hout']. destruct (decide (k = key)) as [->|Hne].
        -- split; [|elem_cons]. intros _.
           by rewrite Hout', lookup_delete_eq, Hkey, Hm.
        -- rewrite lookup_delete_ne in Hin, Hout' by done.
           split; intros; [apply Hin|apply Hout']; elem_cons.
      * destruct (IH d Hdec) as (d' & -> & Hd').
        exists d'. split; [done|]. intros k.
        destruct (Hd' k) as [Hin Hout']. destruct (decide (k = key)) as [->|Hne].
        -- split; [|elem_cons]. intros _. by rewrite Hout', Hkey, Hm.
        -- split; intros; [apply Hin|apply Hout']; elem_cons.
    + destruct (IH d Hdec) as (d' & -> & Hd').
      exists d'. split; [done|]. intros k.
      destruct (Hd' k) as [Hin Hout']. destruct (decide (k = key)) as [->|Hne].
      -- split; [|elem_cons]. intros _. by rewrite Hout', Hkey.
      -- split; intros; [apply Hin|apply Hout']; elem_cons.
Qed.

Lemma lookup_without_matching cond d k :
  without_matching json_Marshal zero json_Unmarshal cond d !! k =
  match d !! k with
  | Some item => if matching cond k item then None else Some item
  | None => None
  end.
Proof.
  unfold without_matching.
  destruct (d !! k) as [item|] eqn:Hk.
  - destruct (matching cond k item) eqn:Hm.
    + apply map_lookup_filter_None. right. intros item' Hk' Hm'. simpl in Hm'.
      congruence.
    + apply map_lookup_filter_Some. done.
  - apply map_lookup_filter_None. by left.
Qed.

Lemma deleteIf_loop_all cond order d :
  order ≡ₚ (map_to_list d).*1 →
  decodable d →
  deleteIf_loop json_Marshal zero json_Unmarshal cond order d =
  (None, without_matching json_Marshal zero json_Unmarshal cond d).
Proof.
  intros Hperm Hdec.
  assert (NoDup order) as Hnd.
  { rewrite Hperm. apply NoDup_fst_map_to_list. }
  destruct (deleteIf_loop_spec cond order d Hnd Hdec) as (d' & -> & Hd').
  f_equal. apply map_eq. intros k. rewrite lookup_without_matching.
  destruct (Hd' k) as [Hin Hout]. destruct (decide (k ∈ order)) as [Hk|Hk]; [auto|].
  rewrite Hout by done. destruct (d !! k) as [item|] eqn:Hlk; [|done].
  exfalso. apply Hk. rewrite Hperm. apply list_elem_of_fmap.
  exists (k, item). split; [done|]. by apply elem_of_map_to_list.
Qed.

(** C7 (amended).  When every entry of the bucket decodes into the type of
    the caller, [DeleteIf] walks every entry of the bucket, whatever its
    expiration (it reads no clock, so expired and frozen entries are
    walked like the others), deletes exactly those the predicate holds
    of, leaves the others as they are, and persists the map: it returns
    what [saveToFile] returns. *)
Theorem deleteIf_removes_exactly_matching bucketName order cond st store c1 fs1 :
  getStore bucketName st = (inr store, (c1, fs1)) →
  order ≡ₚ (map_to_list (data store)).*1 →
  decodable (data store) →
  let store' :=
    with_data store (without_matching json_Marshal zero json_Unmarshal cond (data store)) in
  DeleteIf json_Marshal json_Encode json_Decode zero json_Unmarshal
           bucketName order cond st =
  ((saveToFile store' fs1).1,
   (with_stores c1 (<[bucketName := store']> (stores c1)), (saveToFile store' fs1).2)) ∧
  (∀ k item, data store !! k = Some item →
             matching cond k item = true → data store' !! k = None) ∧
  (∀ k item, data store !! k = Some item →
             matching cond k item = false → data store' !! k = Some item) ∧
  (∀ k, data store !! k = None → data store' !! k = None) ∧
  ((saveToFile store' fs1).1 = None → persisted store' (saveToFile store' fs1).2).
Proof.
  intros Hget Hperm Hdec store'. destruct st as [c fs].
  split; [|split; [|split; [|split]]].
  - rewrite DeleteIf_run, Hget, (deleteIf_loop_all _ _ _ Hperm Hdec).
    cbv zeta. fold store'. by destruct (saveToFile store' fs1).
  - intros k item Hk Hm. simpl. by rewrite lookup_without_matching, Hk, Hm.
  - intros k item Hk Hm. simpl. by rewrite lookup_without_matching, Hk, Hm.
  - intros k Hk. simpl. by rewrite lookup_without_matching, Hk.
  - destruct (saveToFile store' fs1) as [r fs'] eqn:Hsave. simpl. intros ->.
    by eapply saveToFile_persisted.
Qed.

(** ** [Range] *)

Local Abbreviation live_list := (live_entries json_Marshal zero json_Unmarshal).
Local Abbreviation live_decoding := (live_decode json_Marshal zero json_Unmarshal).

Lemma live_decode_tail d e sched :
  live_decoding d (e :: sched) → live_decoding d sched.
Proof. intros H k now item Hin. apply H. by apply elem_of_cons; right. Qed.

Lemma live_entries_cons_dead (d : gmap string (cacheItem any)) e sched :
  is_live d e = false → live_list d (e :: sched) = live_list d sched.
Proof. intros H. unfold live_entries. cbn [omap list_omap]. by rewrite H. Qed.

Lemma live_entries_cons_live (d : gmap string (cacheItem any)) e item out sched :
  d !! e.1 = Some item → expired e.2 item = false → decode item = inr out →
  live_list d (e :: sched) = (e.1, out) :: live_list d sched.
Proof.
  intros Hk He Hd. unfold live_entries, is_live. cbn [omap list_omap].
  by rewrite Hk, He, Hd.
Qed.

Lemma upto_stop_cons_dead (d : gmap string (cacheItem any)) e sched n :
  is_live d e = false → upto_stop d (e :: sched) n = e :: upto_stop d sched n.
Proof. intros H. cbn [upto_stop]. by rewrite H. Qed.

Lemma upto_stop_cons_live (d : gmap string (cacheItem any)) e sched n :
  is_live d e = true →
  upto_stop d (e :: sched) n =
  match n with O => [e] | S n' => e :: upto_stop d sched n' end.
Proof. intros H. cbn [upto_stop]. by rewrite H. Qed.

Lemma evict_cons (d : gmap string (cacheItem any)) e walked m :
  evict d (e :: walked) m =
  evict d walked (if is_expired d e then delete e.1 m else m).
Proof. reflexivity. Qed.

(** The loop of [Range] against the steps of the walk.  [d0] is the map
    at the start; the running map [d] agrees with it on the keys still
    to come. *)
Lemma range_loop_spec {A} (f : string → T → A → bool * A) sched d0 d acc :
  NoDup sched.*1 →
  (∀ e, e ∈ sched → d !! e.1 = d0 !! e.1) →
  live_decoding d0 sched →
  range_loop json_Marshal zero json_Unmarshal f sched d acc =
  (None,
   evict d0 (match (visit f (live_list d0 sched) acc).1 with
             | Some n => upto_stop d0 sched n
             | None => sched
             end) d,
   (visit f (live_list d0 sched) acc).2).
Proof.
  revert d acc. induction sched as [|[k now] sched IH]; intros d acc Hnd Hagree Hdec.
  { done. }
  rewrite fmap_cons in Hnd. apply NoDup_cons in Hnd as [Hk Hnd]. cbn [fst] in Hk.
  assert (d !! k = d0 !! k) as Hlk by (apply (Hagree (k, now)); elem_cons).
  assert (∀ e, e ∈ sched → d !! e.1 = d0 !! e.1) as Hagree'
    by (intros e He; apply Hagree; elem_cons).
  pose proof (live_decode_tail _ _ _ Hdec) as Hdec'.
  cbn [range_loop]. rewrite Hlk.
  destruct (d0 !! k) as [item|] eqn:Hk0.
  - destruct (expired now item) eqn:Hexp.
    + (* expired: evicted *)
      assert (is_live d0 (k, now) = false) as Hlive
        by (unfold is_live; cbn [fst snd]; by rewrite Hk0, Hexp).
      assert (is_expired d0 (k, now) = true) as Hex
        by (unfold is_expired; cbn [fst snd]; by rewrite Hk0).
      rewrite (live_entries_cons_dead _ _ _ Hlive).
      rewrite IH; [|done| |done].
      2:{ intros e He. destruct (decide (k = e.1)) as [Heq|Hne].
          - exfalso. apply Hk. rewrite Heq. apply list_elem_of_fmap. eauto.
          - rewrite (lookup_delete_ne d k e.1 Hne). by apply Hagree'. }
      f_equal. f_equal.
      destruct (visit f (live_list d0 sched) acc).1 as [n|];
        rewrite ?(upto_stop_cons_dead _ _ _ _ Hlive), evict_cons, Hex; done.
    + (* live: decoded and passed to the visitor *)
      assert (is_live d0 (k, now) = true) as Hlive
        by (unfold is_live; cbn [fst snd]; by rewrite Hk0, Hexp).
      assert (is_expired d0 (k, now) = false) as Hex
        by (unfold is_expired; cbn [fst snd]; by rewrite Hk0).
      destruct (Hdec k now item) as [out Hout]; [elem_cons|done|done|].
      rewrite Hout.
      rewrite (live_entries_cons_live d0 (k, now) item out sched Hk0 Hexp Hout).
      cbn [visit fst snd].
      destruct (f k out acc) as [[|] acc'].
      * rewrite IH by done.
        destruct (visit f (live_list d0 sched) acc') as [[n|] acc''];
          cbn [fst snd fmap option_fmap option_map];
          rewrite ?(upto_stop_cons_live _ _ _ _ Hlive), evict_cons, Hex; done.
      * cbn [fst snd].
        by rewrite (upto_stop_cons_live _ _ _ _ Hlive), evict_cons, Hex.
  - (* not in the map: not produced *)
    assert (is_live d0 (k, now) = false) as Hlive
      by (unfold is_live; cbn [fst snd]; by rewrite Hk0).
    assert (is_expired d0 (k, now) = false) as Hex
      by (unfold is_expired; cbn [fst snd]; by rewrite Hk0).
    rewrite (live_entries_cons_dead _ _ _ Hlive).
    rewrite IH by done. f_equal. f_equal.
    destruct (visit f (live_list d0 sched) acc).1 as [n|];
      rewrite ?(upto_stop_cons_dead _ _ _ _ Hlive), evict_cons, Hex; done.
Qed.






(** ** Keys that are not in the map *)

Lemma Get_missing bucketName now key out c fs store :
  stores c !! bucketName = Some store →
  data store !! key = None →
  Get bucketName now key out (c, fs) = ((false, None, out), (c, fs)).
Proof. intros Hs Hk. by rewrite Get_run, (getStore_hit _ _ _ _ Hs), Hk. Qed.

Lemma GetFrozen_missing bucketName key out c fs store :
  stores c !! bucketName = Some store →
  data store !! key = None →
  GetFrozen bucketName key out (c, fs) = ((false, None, out), (c, fs)).
Proof. intros Hs Hk. by rewrite GetFrozen_run, (getStore_hit _ _ _ _ Hs), Hk. Qed.

Lemma range_loop_empty {A} (f : string → T → A → bool * A) sched acc :
  range_loop json_Marshal zero json_Unmarshal f sched ∅ acc = (None, ∅, acc).
Proof.
  induction sched as [|[k now] sched IH]; [done|].
  cbn [range_loop]. by rewrite lookup_empty.
Qed.

(** ** Memory and disk after a failed persist *)

(** X10.  [Set] changes the map in memory before it persists it and does not
    undo the change when persisting fails: once the bucket has been
    resolved, whatever [Set] returns (it returns what [saveToFile] returns),
    the entry is in the map, and [Get], until the ttl has run out, and
    [GetFrozen] return the value. *)
Theorem set_is_kept_when_persist_fails bucketName now ttl key value (v : T)
    st store c1 fs1 r st' :
  getStore bucketName st = (inr store, (c1, fs1)) →
  round_trips json_Marshal json_Unmarshal value v →
  Cacher_Set json_Encode json_Decode bucketName now ttl key value st = (r, st') →
  let store' :=
    with_data store (<[key := {| Value := value; Expiration := Some (now + ttl) |}]>
                       (data store)) in
  (r, st'.2) = saveToFile store' fs1 ∧
  stores st'.1 !! bucketName = Some store' ∧
  (∀ now' fs' out,
     now' - now ≤ ttl →
     Get bucketName now' key out (st'.1, fs') = ((true, None, v), (st'.1, fs'))) ∧
  (∀ fs' out,
     GetFrozen bucketName key out (st'.1, fs') = ((true, None, v), (st'.1, fs'))).
Proof.
  intros Hget Hrt Hset store'. rewrite Set_is_update in Hset.
  apply update_and_save_state in Hset as [(err & _ & Hfail)|(s & c2 & fs2 & Hget' & Hc & Hsave)].
  { rewrite Hget in Hfail. done. }
  rewrite Hget in Hget'. injection Hget' as <- <- <-.
  assert (stores st'.1 !! bucketName = Some store') as Hs
    by (rewrite Hc; apply lookup_insert_eq).
  assert (data store' !! key = Some {| Value := value; Expiration := Some (now + ttl) |})
    as Hk by apply lookup_insert_eq.
  split; [done|]. split; [done|]. split.
  - intros now' fs' out Hnow. eapply Get_live; eauto.
    unfold expired, time_After; simpl. apply Z.ltb_ge. lia.
  - intros fs' out. eapply GetFrozen_found; eauto.
Qed.

(** X11.  After [Delete], whatever it returns once the bucket has been
    resolved, the key is not in the bucket: [Get] and [GetFrozen] return
    found = false with no error and leave [out] as it was.  The other
    entries of the bucket are as before.  [Delete] of a key that is not
    there changes nothing in the map and persists it all the same. *)
Theorem delete_removes_the_key_only bucketName key st store c1 fs1 r st' :
  getStore bucketName st = (inr store, (c1, fs1)) →
  Cacher_Delete json_Encode json_Decode bucketName key st = (r, st') →
  ∃ store',
    stores st'.1 !! bucketName = Some store' ∧
    (r, st'.2) = saveToFile store' fs1 ∧
    (∀ now fs' out,
       Get bucketName now key out (st'.1, fs') = ((false, None, out), (st'.1, fs'))) ∧
    (∀ fs' out,
       GetFrozen bucketName key out (st'.1, fs') = ((false, None, out), (st'.1, fs'))) ∧
    (∀ k, k ≠ key → data store' !! k = data store !! k) ∧
    (data store !! key = None → data store' = data store).
Proof.
  intros Hget Hdel. rewrite Delete_is_update in Hdel.
  apply update_and_save_state in Hdel as [(err & _ & Hfail)|(s & c2 & fs2 & Hget' & Hc & Hsave)].
  { rewrite Hget in Hfail. done. }
  rewrite Hget in Hget'. injection Hget' as <- <- <-.
  exists (with_data store (delete key (data store))).
  assert (stores st'.1 !! bucketName = Some (with_data store (delete key (data store))))
    as Hs by (rewrite Hc; apply lookup_insert_eq).
  split; [done|]. split; [done|]. split; [|split; [|split]].
  - intros now fs' out. eapply Get_missing; [done|]. apply lookup_delete_eq.
  - intros fs' out. eapply GetFrozen_missing; [done|]. apply lookup_delete_eq.
  - intros k Hne. cbn [data with_data]. by rewrite lookup_delete_ne.
  - intros Hnone. cbn [data with_data]. by apply delete_id.
Qed.

(** X12.  After [EmptyBucket], whatever it returns once the bucket has been
    resolved, the bucket holds no entry: [Get] and [GetFrozen] find no key,
    [Range] does not call the visitor, and the map [GetAll] returns is
    empty. *)
Theorem emptyBucket_leaves_no_entry bucketName st store c1 fs1 r st' :
  getStore bucketName st = (inr store, (c1, fs1)) →
  Cacher_EmptyBucket json_Encode json_Decode bucketName st = (r, st') →
  stores st'.1 !! bucketName = Some (with_data store ∅) ∧
  (r, st'.2) = saveToFile (with_data store ∅) fs1 ∧
  (∀ now key fs' out,
     Get bucketName now key out (st'.1, fs') = ((false, None, out), (st'.1, fs'))) ∧
  (∀ key fs' out,
     GetFrozen bucketName key out (st'.1, fs') = ((false, None, out), (st'.1, fs'))) ∧
  (∀ A (f : string → T → A → bool * A) sched acc fs',
     (Range json_Marshal json_Encode json_Decode zero json_Unmarshal f
            bucketName sched acc (st'.1, fs')).1.2 = acc) ∧
  (∀ sched fs' m r' st2,
     GetAll json_Marshal json_Encode json_Decode zero json_Unmarshal
            bucketName sched (st'.1, fs') = ((Some m, r'), st2) →
     m = ∅).
Proof.
  intros Hget Hempty. rewrite EmptyBucket_is_update in Hempty.
  apply update_and_save_state in Hempty
    as [(err & _ & Hfail)|(s & c2 & fs2 & Hget' & Hc & Hsave)].
  { rewrite Hget in Hfail. done. }
  rewrite Hget in Hget'. injection Hget' as <- <- <-.
  assert (stores st'.1 !! bucketName = Some (with_data store ∅)) as Hs
    by (rewrite Hc; apply lookup_insert_eq).
  split; [done|]. split; [done|]. split; [|split; [|split]].
  - intros now key fs' out. eapply Get_missing; [done|]. apply lookup_empty.
  - intros key fs' out. eapply GetFrozen_missing; [done|]. apply lookup_empty.
  - intros A f sched acc fs'. rewrite Range_run, (getStore_hit _ _ _ _ Hs).
    cbn [data with_data]. rewrite range_loop_empty.
    by destruct (saveToFile _ fs').
  - intros sched fs' m r' st2. unfold GetAll, bind at 1.
    rewrite (getStore_hit _ _ _ _ Hs). unfold bind at 1.
    rewrite Range_run, (getStore_hit _ _ _ _ Hs).
    cbn [data with_data]. rewrite range_loop_empty.
    destruct (saveToFile _ fs') as [[err|] fs2]; [done|].
    unfold bind, deref, on_fs. destruct (saveToFile _ fs2) as [r2 fs3].
    by intros [= <- _ _].
Qed.

(** X13.  A [Get] that finds the entry expired takes it out of the map: a
    [GetFrozen] of the key, which would have returned the value before,
    finds nothing afterwards.  The other entries of the bucket stay, and
    the file system is what persisting the new map has made of it. *)
Theorem expired_get_evicts_for_getFrozen bucketName now key out st store c1 fs1 item :
  getStore bucketName st = (inr store, (c1, fs1)) →
  data store !! key = Some item →
  expired now item = true →
  let store' := with_data store (delete key (data store)) in
  ∃ c2,
    Get bucketName now key out st = ((false, None, out), (c2, (saveToFile store' fs1).2)) ∧
    stores c2 !! bucketName = Some store' ∧
    (∀ fs' out',
       GetFrozen bucketName key out' (c2, fs') = ((false, None, out'), (c2, fs'))) ∧
    (∀ k, k ≠ key → data store' !! k = data store !! k).
Proof.
  intros Hget Hk Hexp store'. destruct st as [c fs].
  exists (with_stores c1 (<[bucketName := store']> (stores c1))).
  assert (stores (with_stores c1 (<[bucketName := store']> (stores c1))) !! bucketName =
          Some store') as Hs by apply lookup_insert_eq.
  split; [by rewrite Get_run, Hget, Hk, Hexp|]. split; [done|]. split.
  - intros fs' out'. eapply GetFrozen_missing; [done|]. apply lookup_delete_eq.
  - intros k Hne. subst store'. cbn [data with_data]. by rewrite lookup_delete_ne.
Qed.

(** ** [CleanBucket] *)

(** The loop of [CleanBucket]: an entry on the walk goes when it is found
    expired, and stays otherwise. *)
Lemma clean_loop_spec sched (d : gmap string (cacheItem any)) k :
  NoDup sched.*1 →
  (∀ now item, (k, now) ∈ sched → d !! k = Some item →
               clean_loop sched d !! k = if expired now item then None else Some item) ∧
  (k ∉ sched.*1 → clean_loop sched d !! k = d !! k) ∧
  (d !! k = None → clean_loop sched d !! k = None).
Proof.
  revert d. induction sched as [|[k0 now0] sched IH]; intros d Hnd.
  { split; [elem_cons|]. done. }
  rewrite fmap_cons in Hnd. apply NoDup_cons in Hnd as [Hk0 Hnd]. cbn [fst] in Hk0.
  assert (∀ now, (k, now) ∈ sched → k ≠ k0) as Hother.
  { intros now Hin ->. apply Hk0. apply list_elem_of_fmap. by exists (k0, now). }
  cbn [clean_loop].
  destruct (d !! k0) as [item0|] eqn:Hd0; [destruct (expired now0 item0) eqn:Hexp|].
  - destruct (IH (delete k0 d) Hnd) as (Hin & Hout & Hnone).
    split; [|split].
    + intros now item [[= -> ->]|Hsched]%elem_of_cons Hk.
      * rewrite Hd0 in Hk. injection Hk as <-. rewrite Hexp.
        apply Hnone, lookup_delete_eq.
      * apply Hin; [done|]. rewrite lookup_delete_ne; [done|].
        intros Heq. by apply (Hother now Hsched).
    + rewrite fmap_cons. intros [Hne Hk]%not_elem_of_cons. cbn [fst] in Hne.
      rewrite Hout by done. by rewrite lookup_delete_ne.
    + intros Hk. apply Hnone. destruct (decide (k0 = k)) as [->|Hne];
        [apply lookup_delete_eq|by rewrite lookup_delete_ne].
  - destruct (IH d Hnd) as (Hin & Hout & Hnone).
    split; [|split].
    + intros now item [[= -> ->]|Hsched]%elem_of_cons Hk.
      * rewrite Hd0 in Hk. injection Hk as <-. rewrite Hexp, Hout; done.
      * by apply Hin.
    + rewrite fmap_cons. intros [Hne Hk]%not_elem_of_cons. by apply Hout.
    + done.
  - destruct (IH d Hnd) as (Hin & Hout & Hnone).
    split; [|split].
    + intros now item [[= -> ->]|Hsched]%elem_of_cons Hk; [congruence|by apply Hin].
    + rewrite fmap_cons. intros [Hne Hk]%not_elem_of_cons. by apply Hout.
    + done.
Qed.

(** X14.  [CleanBucket] walks the entries of the bucket and, whatever it
    returns once the bucket has been resolved, leaves in the map exactly
    the entries it did not find expired when the walk reached them: an
    entry whose expiration lies strictly before the clock read at its turn
    is deleted, every other entry (a frozen one, notably) is kept as it
    was, and nothing is added.  It returns what persisting that map
    returns. *)
Theorem cleanBucket_removes_exactly_expired bucketName sched st store c1 fs1 r st' :
  getStore bucketName st = (inr store, (c1, fs1)) →
  sched.*1 ≡ₚ (map_to_list (data store)).*1 →
  Cacher_CleanBucket json_Encode json_Decode bucketName sched st = (r, st') →
  ∃ store',
    stores st'.1 !! bucketName = Some store' ∧
    (r, st'.2) = saveToFile store' fs1 ∧
    (∀ k now item, (k, now) ∈ sched → data store !! k = Some item →
                   data store' !! k = if expired now item then None else Some item) ∧
    (∀ k, data store !! k = None → data store' !! k = None).
Proof.
  intros Hget Hperm Hclean. rewrite CleanBucket_is_update in Hclean.
  apply update_and_save_state in Hclean
    as [(err & _ & Hfail)|(s & c2 & fs2 & Hget' & Hc & Hsave)].
  { rewrite Hget in Hfail. done. }
  rewrite Hget in Hget'. injection Hget' as <- <- <-.
  assert (NoDup sched.*1) as Hnd by (rewrite Hperm; apply NoDup_fst_map_to_list).
  exists (with_data store (clean_loop sched (data store))).
  split; [rewrite Hc; apply lookup_insert_eq|]. split; [done|]. split.
  - intros k now item Hin Hk. cbn [data with_data].
    by apply (clean_loop_spec sched (data store) k Hnd).
  - intros k Hk. cbn [data with_data].
    by apply (clean_loop_spec sched (data store) k Hnd).
Qed.

(** ** [GetAll] *)

Lemma visit_collect (l : list (string * T)) (acc : gmap string T) :
  (visit (λ key value data, (true, <[key := value]> data)) l acc).1 = None.
Proof.
  revert acc. induction l as [|[k v] l IH]; intros acc; [done|].
  cbn [visit]. specialize (IH (<[k := v]> acc)).
  destruct (visit _ l _) as [stop acc']. simpl in *. by rewrite IH.
Qed.

(** The loop of [Range] under the visitor of [GetAll]: a live entry on the
    walk is collected, decoded; nothing else is. *)
Lemma range_loop_collect_spec sched (d : gmap string (cacheItem any))
    (acc : gmap string T) d' acc' k :
  NoDup sched.*1 →
  range_loop json_Marshal zero json_Unmarshal
    (λ key value data, (true, <[key := value]> data)) sched d acc = (None, d', acc') →
  (∀ now item, (k, now) ∈ sched → d !! k = Some item →
               if expired now item then acc' !! k = acc !! k
               else ∃ v, decode item = inr v ∧ acc' !! k = Some v) ∧
  (k ∉ sched.*1 → acc' !! k = acc !! k) ∧
  (d !! k = None → acc' !! k = acc !! k).
Proof.
  revert d acc. induction sched as [|[k0 now0] sched IH]; intros d acc Hnd.
  { intros [= <- <-]. split; [elem_cons|]. done. }
  rewrite fmap_cons in Hnd. apply NoDup_cons in Hnd as [Hk0 Hnd]. cbn [fst] in Hk0.
  assert (∀ now, (k, now) ∈ sched → k ≠ k0) as Hother.
  { intros now Hin ->. apply Hk0. apply list_elem_of_fmap. by exists (k0, now). }
  cbn [range_loop].
  destruct (d !! k0) as [item0|] eqn:Hd0; [destruct (expired now0 item0) eqn:Hexp|].
  - intros Hloop. destruct (IH (delete k0 d) acc Hnd Hloop) as (Hin & Hout & Hnone).
    split; [|split].
    + intros now item [[= -> ->]|Hsched]%elem_of_cons Hk.
      * rewrite Hd0 in Hk. injection Hk as <-. rewrite Hexp.
        apply Hnone, lookup_delete_eq.
      * apply Hin; [done|]. rewrite lookup_delete_ne; [done|].
        intros Heq. by apply (Hother now Hsched).
    + rewrite fmap_cons. intros [Hne Hk]%not_elem_of_cons. by apply Hout.
    + intros Hk. apply Hnone. destruct (decide (k0 = k)) as [->|Hne];
        [apply lookup_delete_eq|by rewrite lookup_delete_ne].
  - destruct (decode item0) as [err|v0] eqn:Hdec; [done|].
    intros Hloop. destruct (IH d (<[k0 := v0]> acc) Hnd Hloop) as (Hin & Hout & Hnone).
    split; [|split].
    + intros now item [[= -> ->]|Hsched]%elem_of_cons Hk.
      * rewrite Hd0 in Hk. injection Hk as <-. rewrite Hexp.
        exists v0. split; [done|]. rewrite Hout by done. apply lookup_insert_eq.
      * specialize (Hin now item Hsched Hk). destruct (expired now item); [|done].
        rewrite Hin. apply lookup_insert_ne. intros ->. by apply (Hother now Hsched).
    + rewrite fmap_cons. intros [Hne Hk]%not_elem_of_cons. cbn [fst] in Hne.
      rewrite Hout by done. by apply lookup_insert_ne.
    + intros Hk. rewrite Hnone by done. apply lookup_insert_ne. congruence.
  - intros Hloop. destruct (IH d acc Hnd Hloop) as (Hin & Hout & Hnone).
    split; [|split].
    + intros now item [[= -> ->]|Hsched]%elem_of_cons Hk; [congruence|by apply Hin].
    + rewrite fmap_cons. intros [Hne Hk]%not_elem_of_cons. by apply Hout.
    + done.
Qed.

(** X15.  [GetAll] on a bucket whose live entries decode: it has [Range]
    walk the bucket, which evicts the entries found expired and persists
    the map, and then persists the map a second time.  It returns a nil map
    with the error when the first persist fails; otherwise it returns the
    map of the live entries, each under its key and decoded, together with
    the result of the second persist.  The map holds no expired entry and
    no key that the bucket does not hold. *)
Theorem getAll_returns_live_entries bucketName sched st store c1 fs1 :
  getStore bucketName st = (inr store, (c1, fs1)) →
  sched.*1 ≡ₚ (map_to_list (data store)).*1 →
  live_decoding (data store) sched →
  let d := data store in
  let store' := with_data store (evict d sched d) in
  let c' := with_stores c1 (<[bucketName := store']> (stores c1)) in
  ∃ m : gmap string T,
    GetAll json_Marshal json_Encode json_Decode zero json_Unmarshal bucketName sched st =
    match saveToFile store' fs1 with
    | (Some err, fs2) => ((None, Some err), (c', fs2))
    | (None, fs2) =>
        ((Some m, (saveToFile store' fs2).1), (c', (saveToFile store' fs2).2))
    end ∧
    (∀ k now item, (k, now) ∈ sched → d !! k = Some item →
                   if expired now item then m !! k = None
                   else ∃ v, decode item = inr v ∧ m !! k = Some v) ∧
    (∀ k, d !! k = None → m !! k = None).
Proof.
  intros Hget Hperm Hdec d store' c'. destruct st as [c fs].
  assert (NoDup sched.*1) as Hnd by (rewrite Hperm; apply NoDup_fst_map_to_list).
  pose proof (range_loop_spec (λ key value (data : gmap string T), (true, <[key := value]> data))
                sched d d ∅ Hnd (λ _ _, eq_refl) Hdec) as Hloop.
  rewrite visit_collect in Hloop.
  set (m := (visit (λ key value (data : gmap string T), (true, <[key := value]> data))
                   (live_list d sched) ∅).2) in Hloop.
  exists m. split; [|split].
  - unfold GetAll, bind at 1. rewrite Hget.
    apply getStore_registered in Hget as (Hs & _). unfold bind at 1.
    rewrite Range_run, (getStore_hit _ _ _ _ Hs). fold d. rewrite Hloop. cbv zeta.
    fold store' c'.
    destruct (saveToFile store' fs1) as [[err|] fs2]; [done|].
    unfold bind, deref, on_fs. subst c'. cbn [stores with_stores].
    rewrite lookup_insert_eq. cbn [default from_option id].
    by destruct (saveToFile store' fs2).
  - intros k now item Hin Hk.
    destruct (range_loop_collect_spec sched d ∅ _ m k Hnd Hloop) as (Hspec & _ & _).
    specialize (Hspec now item Hin Hk). destruct (expired now item); [|done].
    by rewrite Hspec.
  - intros k Hk.
    destruct (range_loop_collect_spec sched d ∅ _ m k Hnd Hloop) as (_ & _ & Hnone).
    by rewrite Hnone.
Qed.

(** ** A bucket that cannot be loaded *)

Lemma getStore_failed name c fs err st1 :
  getStore name (c, fs) = (inl err, st1) →
  st1 = (c, fs) ∧ stores c !! name = None ∧
  ∃ e, err = Errorf "filecache: failed to open cache file" e ∨
       err = Errorf "filecache: failed to decode cache data" e.
Proof.
  unfold Cacher_getStore. destruct (stores c !! name) as [s|]; [done|].
  unfold CacheStore_loadFromFile.
  destruct (os_Open _ _) as [e|file].
  - destruct (os_IsNotExist e); [done|]. intros [= <- <-]. eauto.
  - destruct (read_all _ _ _) as [e|bytes]; [intros [= <- <-]; eauto|].
    destruct (json_Decode bytes) as [e|m]; [|done]. intros [= <- <-]. eauto.
Qed.


(** ** Reading what another cacher has written *)

(** X17.  An entry that [Set] has persisted is read back by a cacher created
    later on the same directory, whatever its extension: when the bytes
    written for the bucket decode to the map they encode and the file can
    be read, the first [Get] of the new cacher loads the bucket from its
    file and returns the value, until the ttl has run out; the bucket it
    has registered is the one the first cacher held. *)
Theorem set_survives_restart bucketName now ttl key value (v : T)
    (c : Cacher any) fs st' e :
  stores c !! bucketName = None →
  Cacher_Set json_Encode json_Decode bucketName now ttl key value (c, fs) = (None, st') →
  round_trips json_Marshal json_Unmarshal value v →
  let path := filepath_Join (dir c) (bucketName +:+ ".cache") in
  fault st'.2 SysOpen path = false →
  fault st'.2 SysRead path = false →
  (∀ cs bytes, stores st'.1 !! bucketName = Some cs →
               json_Encode (data cs) = inr bytes → json_Decode bytes = inr (data cs)) →
  let c2 : Cacher any := {| dir := dir c; stores := ∅; ext := e |} in
  ∀ now' out,
    now' - now ≤ ttl →
    ∃ c3, Get bucketName now' key out (c2, st'.2) = ((true, None, v), (c3, st'.2)) ∧
          stores c3 !! bucketName = stores st'.1 !! bucketName.
Proof.
  intros Hnew Hset (bytes & Hm & Hu) path Hopen Hread Hcodec c2 now' out Hnow.
  rewrite Set_is_update in Hset.
  apply update_and_save_state in Hset
    as [(err & ? & _)|(store & c1 & fs1 & Hget & Hc & Hsave)]; [done|].
  set (store' := with_data store
                   (<[key := {| Value := value; Expiration := ToPtr (time_Add now ttl) |}]>
                      (data store))) in *.
  assert (stores st'.1 !! bucketName = Some store') as Hs
    by (rewrite Hc; apply lookup_insert_eq).
  assert (filePath store' = path) as Hpath by apply (getStore_path _ _ _ _ _ Hnew Hget).
  assert (persisted store' st'.2) as Hpers by (by eapply saveToFile_persisted).
  pose proof (getStore_loads_persisted bucketName c2 st'.2 store' (lookup_empty _) Hpath
                Hpers) as Hload.
  rewrite Hpath in Hload. specialize (Hload Hopen Hread (λ bytes, Hcodec store' bytes Hs)).
  exists (with_stores c2 (<[bucketName := store']> (stores c2))). split.
  - rewrite Get_run, Hload. subst store'. cbn [data with_data].
    rewrite lookup_insert_eq.
    assert (expired now' {| Value := value; Expiration := ToPtr (time_Add now ttl) |} = false)
      as -> by (unfold expired, time_After, time_Add; simpl; apply Z.ltb_ge; lia).
    cbn [Value]. by rewrite Hm, Hu.
  - cbn [stores with_stores]. by rewrite lookup_insert_eq, Hs.
Qed.

(** ** What an operation on a bucket leaves alone *)

Lemma saveToFile_fault cs fs : fault (saveToFile cs fs).2 = fault fs.
Proof.
  unfold CacheStore_saveToFile, os_Create, write_all.
  destruct (fault fs SysCreate _); [done|].
  destruct (put_file _ _ _); [done|].
  destruct (json_Encode _); [done|]. cbn [with_root fault].
  destruct (fault fs SysWrite _); [done|]. by destruct (put_file _ _ _).
Qed.

Lemma elsewhere_refl bucketName (st : State any) : elsewhere_untouched bucketName st st.
Proof. unfold elsewhere_untouched. auto. Qed.

Lemma elsewhere_getStore bucketName c fs r c1 fs1 :
  getStore bucketName (c, fs) = (r, (c1, fs1)) →
  elsewhere_untouched bucketName (c, fs) (c1, fs1).
Proof.
  destruct r as [err|store].
  - intros Hget. apply getStore_failed in Hget as ([= -> ->] & _). apply elsewhere_refl.
  - intros Hget. apply getStore_registered in Hget as (_ & -> & Hdir & Hext & Hother).
    unfold elsewhere_untouched. cbn [fst snd]. auto.
Qed.

(** The state after the store of the bucket has been given the map [d], and
    persisted not at all, once or twice. *)
Lemma elsewhere_resolved bucketName c fs store c1 fs1 d fs' :
  getStore bucketName (c, fs) = (inr store, (c1, fs1)) →
  fs' = fs1 ∨ fs' = (saveToFile (with_data store d) fs1).2 ∨
  fs' = (saveToFile (with_data store d) (saveToFile (with_data store d) fs1).2).2 →
  elsewhere_untouched bucketName (c, fs)
    (with_stores c1 (<[bucketName := with_data store d]> (stores c1)), fs').
Proof.
  intros Hget Hfs. apply getStore_registered in Hget as (_ & -> & Hdir & Hext & Hother).
  unfold elsewhere_untouched. cbn [fst snd dir ext stores with_stores].
  split; [done|]. split; [done|]. split; [|split].
  - intros other Hne. rewrite lookup_insert_ne by done. by apply Hother.
  - destruct Hfs as [->|[->| ->]]; by rewrite ?saveToFile_fault.
  - intros q content Hq Hfree.
    assert (q ≠ path_components (filePath (with_data store d))) as Hne
      by (apply Hfree, lookup_insert_eq).
    destruct Hfs as [->|[->| ->]]; [done| |]; repeat apply saveToFile_other; done.
Qed.

(** X18.  An operation on a bucket leaves the rest alone, whatever it
    returns: the cacher keeps its directory and extension, the other
    buckets of the registry are as they were, and every regular file but
    the backing file of the bucket is there afterwards with its content. *)
Theorem operations_leave_the_rest_alone bucketName (st : State any) :
  let rest_alone (st' : State any) := elsewhere_untouched bucketName st st' in
  (∀ now ttl key value,
     rest_alone (Cacher_Set json_Encode json_Decode bucketName now ttl key value st).2) ∧
  (∀ key value,
     rest_alone (Cacher_SetFrozen json_Encode json_Decode bucketName key value st).2) ∧
  (∀ key, rest_alone (Cacher_Delete json_Encode json_Decode bucketName key st).2) ∧
  rest_alone (Cacher_EmptyBucket json_Encode json_Decode bucketName st).2 ∧
  (∀ sched,
     rest_alone (Cacher_CleanBucket json_Encode json_Decode bucketName sched st).2) ∧
  (∀ now key out, rest_alone (Get bucketName now key out st).2) ∧
  (∀ key out, rest_alone (GetFrozen bucketName key out st).2) ∧
  (∀ order cond,
     rest_alone (DeleteIf json_Marshal json_Encode json_Decode zero json_Unmarshal
                          bucketName order cond st).2) ∧
  (∀ A (f : string → T → A → bool * A) sched acc,
     rest_alone (Range json_Marshal json_Encode json_Decode zero json_Unmarshal f
                       bucketName sched acc st).2) ∧
  (∀ sched,
     rest_alone (GetAll json_Marshal json_Encode json_Decode zero json_Unmarshal
                        bucketName sched st).2).
Proof.
  intros rest_alone. subst rest_alone. destruct st as [c fs].
  assert (∀ g, elsewhere_untouched bucketName (c, fs) (upd_save bucketName g (c, fs)).2)
    as Hupd.
  { intros g. rewrite update_and_save_run.
    destruct (getStore bucketName (c, fs)) as [[err|store] [c1 fs1]] eqn:Hget.
    - by eapply elsewhere_getStore.
    - cbv zeta. destruct (saveToFile _ fs1) as [r fs'] eqn:Hsave. cbn [snd].
      apply (elsewhere_resolved _ _ _ _ _ _ _ _ Hget). right; left. by rewrite Hsave. }
  split; [|split; [|split; [|split; [|split; [|split; [|split; [|split; [|split]]]]]]]].
  - intros. rewrite Set_is_update. apply Hupd.
  - intros. rewrite SetFrozen_is_update. apply Hupd.
  - intros. rewrite Delete_is_update. apply Hupd.
  - rewrite EmptyBucket_is_update. apply Hupd.
  - intros. rewrite CleanBucket_is_update. apply Hupd.
  - intros now key out. rewrite Get_run.
    destruct (getStore bucketName (c, fs)) as [[err|store] [c1 fs1]] eqn:Hget.
    { by eapply elsewhere_getStore. }
    destruct (data store !! key) as [item|]; [|by eapply elsewhere_getStore].
    destruct (expired now item).
    + cbv zeta. cbn [snd]. apply (elsewhere_resolved _ _ _ _ _ _ _ _ Hget). auto.
    + destruct (json_Marshal (Value item)); by eapply elsewhere_getStore.
  - intros key out. rewrite GetFrozen_run.
    destruct (getStore bucketName (c, fs)) as [[err|store] [c1 fs1]] eqn:Hget.
    { by eapply elsewhere_getStore. }
    destruct (data store !! key) as [item|]; [|by eapply elsewhere_getStore].
    destruct (json_Marshal (Value item)); by eapply elsewhere_getStore.
  - intros order cond. rewrite DeleteIf_run.
    destruct (getStore bucketName (c, fs)) as [[err|store] [c1 fs1]] eqn:Hget.
    { by eapply elsewhere_getStore. }
    destruct (deleteIf_loop _ _ _ _ _ _) as [[err|] d]; cbv zeta.
    + apply (elsewhere_resolved _ _ _ _ _ _ _ _ Hget). auto.
    + destruct (saveToFile _ fs1) as [r fs'] eqn:Hsave. cbn [snd].
      apply (elsewhere_resolved _ _ _ _ _ _ _ _ Hget). right; left. by rewrite Hsave.
  - intros A f sched acc. rewrite Range_run.
    destruct (getStore bucketName (c, fs)) as [[err|store] [c1 fs1]] eqn:Hget.
    { by eapply elsewhere_getStore. }
    destruct (range_loop _ _ _ _ _ _ _) as [[[err|] d] acc']; cbv zeta.
    + apply (elsewhere_resolved _ _ _ _ _ _ _ _ Hget). auto.
    + destruct (saveToFile _ fs1) as [r fs'] eqn:Hsave. cbn [snd].
      apply (elsewhere_resolved _ _ _ _ _ _ _ _ Hget). right; left. by rewrite Hsave.
  - intros sched. unfold GetAll, bind at 1.
    destruct (getStore bucketName (c, fs)) as [[err|store] [c1 fs1]] eqn:Hget.
    { by eapply elsewhere_getStore. }
    pose proof Hget as Hreg. apply getStore_registered in Hreg as (Hs & _).
    unfold bind at 1. rewrite Range_run, (getStore_hit _ _ _ _ Hs).
    destruct (range_loop _ _ _ _ _ _ _) as [[[err|] d] acc']; cbv zeta.
    { apply (elsewhere_resolved _ _ _ _ _ _ _ _ Hget). auto. }
    destruct (saveToFile _ fs1) as [[err|] fs2] eqn:Hsave1.
    { cbn [snd]. apply (elsewhere_resolved _ _ _ _ _ _ _ _ Hget). right; left.
      by rewrite Hsave1. }
    unfold bind, deref, on_fs. cbn [stores with_stores]. rewrite lookup_insert_eq.
    cbn [default from_option id]. destruct (saveToFile _ fs2) as [r' fs3] eqn:Hsave2.
    cbn [snd]. apply (elsewhere_resolved _ _ _ _ _ _ _ _ Hget). right; right.
    rewrite Hsave1. cbn [snd]. by rewrite Hsave2.
Qed.

(** ** [DeleteIf] on an entry that does not decode *)

(** The loop of [DeleteIf] over a first part of the walk whose entries
    decode. *)
Lemma deleteIf_loop_prefix cond pre rest (d : gmap string (cacheItem any)) :
  NoDup pre →
  (∀ k item, k ∈ pre → d !! k = Some item → ∃ out, decode item = inr out) →
  ∃ d1, deleteIf_loop json_Marshal zero json_Unmarshal cond (pre ++ rest) d =
        deleteIf_loop json_Marshal zero json_Unmarshal cond rest d1 ∧
        ∀ k, (k ∈ pre →
              d1 !! k = match d !! k with
                        | Some item => if matching cond k item then None else Some item
                        | None => None
                        end) ∧
             (k ∉ pre → d1 !! k = d !! k).
Proof.
  intros Hnd. revert d.
  induction Hnd as [|key pre Hnotin Hnd IH]; intros d Hdec; cbn [app deleteIf_loop].
  - exists d. split; [done|]. intros k. split; [elem_cons|done].
  - assert (∀ d' : gmap string (cacheItem any), (∀ k, k ≠ key → d' !! k = d !! k) →
                  ∀ k item, k ∈ pre → d' !! k = Some item → ∃ out, decode item = inr out)
      as Hdec'.
    { intros d' Hd' k item Hk Hitem. apply (Hdec k item); [by apply elem_of_cons; right|].
      rewrite <-Hd'; [done|]. by intros ->. }
    destruct (d !! key) as [item|] eqn:Hkey.
    + destruct (Hdec key item) as [out Hout]; [by apply elem_of_cons; left|done|].
      rewrite Hout.
      assert (matching cond key item = cond key out) as Hm
        by (unfold matches; by rewrite Hout).
      destruct (cond key out) eqn:Hc.
      * destruct (IH (delete key d)) as (d1 & -> & Hd1).
        { apply Hdec'. intros k Hne. by rewrite lookup_delete_ne. }
        exists d1. split; [done|]. intros k.
        destruct (Hd1 k) as [Hin Hout']. destruct (decide (k = key)) as [->|Hne].
        -- split; [|elem_cons]. intros _.
           by rewrite Hout', lookup_delete_eq, Hkey, Hm.
        -- rewrite lookup_delete_ne in Hin, Hout' by done.
           split; intros; [apply Hin|apply Hout']; elem_cons.
      * destruct (IH d) as (d1 & -> & Hd1); [by apply Hdec'|].
        exists d1. split; [done|]. intros k.
        destruct (Hd1 k) as [Hin Hout']. destruct (decide (k = key)) as [->|Hne].
        -- split; [|elem_cons]. intros _. by rewrite Hout', Hkey, Hm.
        -- split; intros; [apply Hin|apply Hout']; elem_cons.
    + destruct (IH d) as (d1 & -> & Hd1); [by apply Hdec'|].
      exists d1. split; [done|]. intros k.
      destruct (Hd1 k) as [Hin Hout']. destruct (decide (k = key)) as [->|Hne].
      -- split; [|elem_cons]. intros _. by rewrite Hout', Hkey.
      -- split; intros; [apply Hin|apply Hout']; elem_cons.
Qed.

(** X19.  [DeleteIf] does not complete when the walk meets an entry whose
    payload does not decode into the type of the caller: it returns the
    error at once and does not persist.  The file system is as it was, yet
    in memory the entries walked before that the predicate holds of are
    deleted; the entry that failed and the entries not yet walked are all
    kept. *)
Theorem deleteIf_stops_at_undecodable bucketName pre key post cond
    st store c1 fs1 item err :
  getStore bucketName st = (inr store, (c1, fs1)) →
  NoDup pre → key ∉ pre →
  (∀ k it, k ∈ pre → data store !! k = Some it → ∃ out, decode it = inr out) →
  data store !! key = Some item →
  decode item = inl err →
  ∃ d1,
    DeleteIf json_Marshal json_Encode json_Decode zero json_Unmarshal
             bucketName (pre ++ key :: post) cond st =
    (Some err, (with_stores c1 (<[bucketName := with_data store d1]> (stores c1)), fs1)) ∧
    fs1 = st.2 ∧
    (∀ k it, k ∈ pre → data store !! k = Some it →
             d1 !! k = if matching cond k it then None else Some it) ∧
    (∀ k, k ∉ pre → d1 !! k = data store !! k).
Proof.
  intros Hget Hnd Hkey Hdec Hitem Herr. destruct st as [c fs].
  destruct (deleteIf_loop_prefix cond pre (key :: post) (data store) Hnd Hdec)
    as (d1 & Hloop & Hd1).
  exists d1. split; [|split; [|split]].
  - rewrite DeleteIf_run, Hget, Hloop. cbn [deleteIf_loop].
    destruct (Hd1 key) as [_ Hout]. by rewrite (Hout Hkey), Hitem, Herr.
  - by apply getStore_registered in Hget as (_ & -> & _).
  - intros k it Hk Hit. destruct (Hd1 k) as [Hin _]. by rewrite (Hin Hk), Hit.
  - intros k Hk. destruct (Hd1 k) as [_ Hout]. by apply Hout.
Qed.

(** Under the visitor of [GetAll], which never stops, the loop of [Range]
    ends with an error when a live entry on the walk does not decode. *)
Lemma range_loop_collect_fails sched (d : gmap string (cacheItem any))
    (acc : gmap string T) k now item err :
  NoDup sched.*1 →
  (k, now) ∈ sched → d !! k = Some item →
  expired now item = false → decode item = inl err →
  ∃ err' d' acc' k' item',
    range_loop json_Marshal zero json_Unmarshal
      (λ key value data, (true, <[key := value]> data)) sched d acc =
    (Some err', d', acc') ∧
    d !! k' = Some item' ∧ decode item' = inl err'.
Proof.
  revert d acc. induction sched as [|[k0 now0] sched IH]; intros d acc Hnd Hin Hk Hexp Hdec.
  { by apply elem_of_nil in Hin. }
  rewrite fmap_cons in Hnd. apply NoDup_cons in Hnd as [Hk0 Hnd]. cbn [fst] in Hk0.
  cbn [range_loop]. apply elem_of_cons in Hin as [[= <- <-]|Hin].
  { rewrite Hk, Hexp, Hdec. by exists err, d, acc, k, item. }
  assert (k ≠ k0) as Hne.
  { intros ->. apply Hk0. apply list_elem_of_fmap. by exists (k0, now). }
  destruct (d !! k0) as [item0|] eqn:Hd0; [destruct (expired now0 item0)|].
  - destruct (IH (delete k0 d) acc Hnd Hin) as (err' & d' & acc' & k' & item' & -> & Hk' & He');
      [by rewrite lookup_delete_ne|done|done|].
    apply lookup_delete_Some in Hk' as [_ Hk']. by exists err', d', acc', k', item'.
  - destruct (decode item0) as [err0|v0] eqn:Hdec0.
    + by exists err0, d, acc, k0, item0.
    + by apply IH.
  - by apply IH.
Qed.

(** X20.  One live entry that does not decode into the type of the caller
    makes [GetAll] fail as a whole: it returns a nil map with the decoding
    error of an entry of the bucket, and writes nothing to the file
    system. *)
Theorem getAll_fails_on_undecodable_entry bucketName sched st store c1 fs1
    k now item err :
  getStore bucketName st = (inr store, (c1, fs1)) →
  NoDup sched.*1 →
  (k, now) ∈ sched →
  data store !! k = Some item →
  expired now item = false →
  decode item = inl err →
  ∃ err' k' item' st',
    GetAll json_Marshal json_Encode json_Decode zero json_Unmarshal bucketName sched st =
    ((None, Some err'), st') ∧
    data store !! k' = Some item' ∧ decode item' = inl err' ∧
    st'.2 = st.2.
Proof.
  intros Hget Hnd Hin Hk Hexp Hdec. destruct st as [c fs].
  destruct (range_loop_collect_fails sched (data store) ∅ k now item err
              Hnd Hin Hk Hexp Hdec) as (err' & d' & acc' & k' & item' & Hloop & Hk' & He').
  exists err', k', item'. eexists. split; [|split; [done|split; [done|]]].
  - unfold GetAll, bind at 1. rewrite Hget.
    pose proof Hget as Hreg. apply getStore_registered in Hreg as (Hs & _).
    unfold bind at 1. rewrite Range_run, (getStore_hit _ _ _ _ Hs), Hloop. reflexivity.
  - cbn [snd]. by apply getStore_registered in Hget as (_ & -> & _).
Qed.

End TypedProperties.
End Properties.

(** ** Examples on the small instance *)

Module Examples.
Import Example.

(** C1, as stated, fails on [Get]: at instant 11 the entry has expired,
    [Get] deletes it from the map and returns no error, although the
    persist failed and the backing file does not hold the new map. *)
Lemma get_eviction_drops_persist_failure :
  let evicted := {| filePath := "d/b.cache"; data := ∅ |} in
  Cacher_Get Marshal Encode Decode Unmarshal "b" 11 "k" "" (loaded, no_dir)
  = ((false, None, ""),
     ({| dir := "d"; stores := {[ "b" := evicted ]}; ext := ".cache" |}, no_dir)) ∧
  CacheStore_saveToFile Encode evicted no_dir
  = (Some (Errorf "filecache: failed to create cache file"
                  (PathError SysCreate "d/b.cache" ENOENT)), no_dir) ∧
  ¬ persisted_bucket Encode "b"
      ({| dir := "d"; stores := {[ "b" := evicted ]}; ext := ".cache" |}, no_dir).
Proof.
  split; [by vm_compute|]. split; [by vm_compute|].
  intros (cs & Hcs & bytes & _ & Hfile).
  simpl in Hcs. rewrite lookup_singleton_eq in Hcs. injection Hcs as <-.
  by vm_compute in Hfile.
Qed.

(** A call of [Set] that returns no error leaves the map on disk. *)
Lemma mutations_persist_or_fail_witness :
  let c : Cacher RawMessage := {| dir := "d"; stores := ∅; ext := ".cache" |} in
  let cs := {| filePath := "d/b.cache"; data := {[ "k" := item "1" (Some 5) ]} |} in
  persisted_bucket Encode "b"
    ({| dir := "d"; stores := {[ "b" := cs ]}; ext := ".cache" |},
     {| tree := Dir [("d", Dir [("b.cache", File "k 1;")])]; fault := no_fault |}).
Proof.
  intros c cs.
  refine (proj2 (proj1 (mutations_persist_or_fail Marshal Encode Decode "" Unmarshal
                          "b" (c, fs0) _ None) 0 5 "k" "1" _) eq_refl).
  vm_compute. reflexivity.
Defined.

Lemma set_runs :
  Cacher_Set Encode Decode "b" 0 5 "k" "1" (c0, fs0) = (None, after_set).
Proof. by vm_compute. Qed.

Lemma setFrozen_runs :
  Cacher_SetFrozen Encode Decode "b" "k" "1" (c0, fs0) = (None, after_setFrozen).
Proof. by vm_compute. Qed.

(** C3, as stated, fails where the elapsed time equals the ttl: the entry
    set at instant 0 with ttl 5 is still returned at instant 5. *)
Lemma get_at_expiration_instant_finds :
  Cacher_Set Encode Decode "b" 0 5 "k" "1" (c0, fs0) = (None, after_set) ∧
  5 - 0 >= 5 ∧
  Cacher_Get Marshal Encode Decode Unmarshal "b" 5 "k" "" after_set
  = ((true, None, "1"), after_set).
Proof. split; [by vm_compute|]. split; [lia|by vm_compute]. Qed.

Lemma ttl_expiry_witness :
  Cacher_Get Marshal Encode Decode Unmarshal "b" 3 "k" "" (after_set.1, fs0)
  = ((true, None, "1"), (after_set.1, fs0)).
Proof.
  refine (proj1 (ttl_expiry Marshal Encode Decode "" Unmarshal
                   "b" 0 5 "k" "1" "1" (c0, fs0) after_set _ _) 3 fs0 "" _).
  - exists "1". split; reflexivity.
  - vm_compute. reflexivity.
  - lia.
Defined.

Lemma set_then_get_round_trip_witness :
  Cacher_Get Marshal Encode Decode Unmarshal "b" 1 "k" "" (after_set.1, fs0)
  = ((true, None, "1"), (after_set.1, fs0)).
Proof.
  apply (set_then_get_round_trip Marshal Encode Decode Unmarshal
           "b" 0 5 "k" "1" "1" (c0, fs0) after_set 1 fs0 "").
  - lia.
  - lia.
  - exists "1". split; reflexivity.
  - vm_compute. reflexivity.
Defined.

Lemma frozen_never_expires_witness :
  Cacher_Get Marshal Encode Decode Unmarshal "b" 1000000 "k" ""
             (after_setFrozen.1, fs0)
  = ((true, None, "1"), (after_setFrozen.1, fs0)).
Proof.
  refine (proj1 (proj2 (frozen_never_expires Marshal Encode Decode "" Unmarshal
                          "b" "k" "1" "1" (c0, fs0) after_setFrozen _ _))
            1000000 fs0 "").
  - exists "1". split; reflexivity.
  - vm_compute. reflexivity.
Defined.

(** The entry of [loaded] expired at instant 10; at instant 11 [GetFrozen]
    still returns it. *)
Lemma getFrozen_ignores_expiration_witness :
  Cacher_GetFrozen Marshal Decode Unmarshal "b" "k" "" (loaded, fs0)
  = ((true, None, "1"), (loaded, fs0)).
Proof.
  refine (proj1 (getFrozen_ignores_expiration Marshal Decode Unmarshal
                   "b" "k" "" (loaded, fs0)
                   {| filePath := "d/b.cache"; data := {[ "k" := item "1" (Some 10) ]} |}
                   (loaded, fs0) 11 10 "1" "1" _ _ _ _)).
  - vm_compute. reflexivity.
  - vm_compute. reflexivity.
  - lia.
  - exists "1". split; reflexivity.
Defined.

(** C7, as stated, fails when an entry does not decode.  The predicate
    "the value is 1" holds of the numbers ["a"] and ["z"]; the walk deletes
    ["a"], meets the text ["m"], which is no number, and [DeleteIf] returns
    the error of [Unmarshal]: the entry ["z"], which matches, is still in
    the map, and nothing has been persisted. *)
Lemma deleteIf_error_leaves_matching_entry :
  let cond := λ (_ : string) (out : RawMessage), String.eqb out "1" in
  let left := {| filePath := "d/b.cache";
                 data := {[ "m" := item "one" None; "z" := item "1" None ]} |} in
  DeleteIf Marshal Encode Decode "" Unmarshal_number "b" ["a"; "m"; "z"] cond
           (numbers_and_text, fs0)
  = (Some (JSONError "cannot unmarshal string into a number"),
     ({| dir := "d"; stores := {[ "b" := left ]}; ext := ".cache" |}, fs0)) ∧
  data left !! "z" = Some (item "1" None) ∧
  matches Marshal "" Unmarshal_number cond "z" (item "1" None) = true ∧
  ¬ persisted_bucket Encode "b"
      ({| dir := "d"; stores := {[ "b" := left ]}; ext := ".cache" |}, fs0).
Proof.
  split; [by vm_compute|]. split; [by vm_compute|]. split; [by vm_compute|].
  intros (cs & Hcs & bytes & _ & Hfile).
  simpl in Hcs. rewrite lookup_singleton_eq in Hcs. injection Hcs as <-.
  by vm_compute in Hfile.
Qed.

(** [DeleteIf] with the predicate "the value is 1" deletes the expired
    entry ["k"], which matches, and keeps the frozen one. *)
Lemma deleteIf_removes_exactly_matching_witness :
  DeleteIf Marshal Encode Decode "" Unmarshal "b" ["k"; "f"]
           (λ _ out, String.eqb out "1") (loaded2, fs0)
  = (None, only_frozen).
Proof.
  refine (eq_trans
            (proj1 (deleteIf_removes_exactly_matching Marshal Encode Decode "" Unmarshal
                      "b" ["k"; "f"] (λ _ out, String.eqb out "1") (loaded2, fs0)
                      {| filePath := "d/b.cache"; data := two_entries |}
                      loaded2 fs0 _ _ _)) _).
  - vm_compute. reflexivity.
  - vm_compute. reflexivity.
  - intros k it _. eexists. reflexivity.
  - vm_compute. reflexivity.
Defined.



(** C2.  A cacher created by [NewCacherWithExt] with the extension
    [".json"] keeps it in its [ext] field, yet the store [getStore]
    resolves for the bucket ["b"] has the backing file ["d/b.cache"], not
    ["d/b.json"]: [getStore] appends the literal [".cache"]. *)
Lemma getStore_ignores_configured_ext :
  let '(c, _, fs) := @NewCacherWithExt RawMessage "d" ".json" fs0 in
  ext c = ".json" ∧
  ∃ store st',
    Cacher_getStore Decode "b" (c, fs) = (inr store, st') ∧
    filePath store = "d/b.cache" ∧
    filePath store ≠ filepath_Join (dir c) ("b" +:+ ext c).
Proof.
  simpl. split; [done|]. eexists _, _. split; [by vm_compute|]. by split.
Qed.

(** C9, as stated, fails when the cache directory has a subdirectory: the
    files directly in ["d"] take 2 bytes, and [GetTotalSize] returns 7,
    having descended into ["d/sub"]. *)
Lemma getTotalSize_counts_nested_files :
  lookup_path (path_components (dir c0)) (tree nested) = Some cache_dir ∧
  direct_files_size cache_dir = 2 ∧
  Cacher_GetTotalSize (c0, nested) = ((7, None), (c0, nested)).
Proof. split; [by vm_compute|]. split; by vm_compute. Qed.

Lemma cache_dir_wf : wf_node cache_dir.
Proof.
  repeat split; try by apply (bool_decide_unpack _).
Qed.

Lemma getTotalSize_sums_tree_witness :
  (Cacher_GetTotalSize (c0, nested)).1 = (tree_size cache_dir, None).
Proof.
  refine (proj1 (proj2 (proj2 getTotalSize_sums_tree c0 nested cache_dir _ _ _ _)) _).
  - discriminate.
  - intros sc p. reflexivity.
  - vm_compute. reflexivity.
  - apply cache_dir_wf.
  - vm_compute. reflexivity.
Defined.

(** [RemoveAllBy] with the filter "is b.cache" deletes that file only and
    drops the loaded bucket from the registry. *)
Lemma removeAllBy_flat_directory :
  Cacher_RemoveAllBy default_Ext only_b (loaded, mixed) =
  (None,
   ({| dir := "d"; stores := ∅; ext := ".cache" |},
    {| tree := Dir [("d", Dir [("a.cache", File "1"); ("notes.txt", File "333");
                               ("sub", Dir [("f", File "4444")])])];
       fault := no_fault |})).
Proof.
  refine (proj1 (proj2 (removeAllBy_deletes_and_clears default_Ext) only_b loaded mixed
                   [("a.cache", File "1"); ("b.cache", File "22");
                    ("notes.txt", File "333"); ("sub", Dir [("f", File "4444")])]
                   _ _ _ _ _)).
  - discriminate.
  - intros sc p. reflexivity.
  - vm_compute. reflexivity.
  - repeat split; try by apply (bool_decide_unpack _).
  - intros x sub Hin.
    repeat (apply elem_of_cons in Hin as [Hin|Hin]; [try discriminate Hin|]).
    + injection Hin as -> ->. repeat split.
    + by apply elem_of_nil in Hin.
Defined.

(** When a removal fails, the walk stops with that error, which
    [RemoveAllBy] returns; the registry is emptied all the same. *)
Lemma removeAllBy_error_still_clears :
  let failing := {| tree := Dir [("d", mixed_dir)];
                    fault := λ sc _, match sc with SysRemove => true | _ => false end |} in
  Cacher_RemoveAllBy default_Ext only_b (loaded, failing) =
  (Some (Errorf "filecache: failed to remove file"
                (PathError SysRemove "d/b.cache" EIO)),
   ({| dir := "d"; stores := ∅; ext := ".cache" |}, failing)).
Proof. by vm_compute. Qed.

(** C6.  The walk of [RemoveAllBy] descends into subdirectories, and at a
    cache file met there, whose name has the suffix and passes the filter,
    the function removes [filepath.Join(c.dir, info.Name())], the entry of
    that name in the cache directory, not the file met.  On [nested_twin]
    the removal succeeds on the empty directory ["d/x.cache"]: no error is
    returned, a directory has been deleted, and the cache file
    ["d/y/x.cache"] stays.  On [nested_only] there is no such entry: the
    removal fails, the error is returned and the file ["d/sub/x.cache"]
    stays.  The registry is emptied in both cases.  ([Ext] has the value
    it starts with.) *)
Lemma removeAllBy_misses_nested_file :
  removable default_Ext every_file ("x.cache", File "1") = true ∧
  removable default_Ext every_file ("x.cache", Dir []) = false ∧
  Cacher_RemoveAllBy default_Ext every_file (loaded, nested_twin) =
  (None,
   ({| dir := "d"; stores := ∅; ext := ".cache" |},
    {| tree := Dir [("d", Dir [("y", Dir [("x.cache", File "1")])])];
       fault := no_fault |})) ∧
  Cacher_RemoveAllBy default_Ext every_file (loaded, nested_only) =
  (Some (Errorf "filecache: failed to remove file"
                (PathError SysRemove "d/x.cache" ENOENT)),
   ({| dir := "d"; stores := ∅; ext := ".cache" |}, nested_only)).
Proof. repeat (split; [by vm_compute|]). by vm_compute. Qed.

(** [Close] on a cacher with one loaded bucket writes its file. *)
Lemma close_persists_every_store_witness :
  persisted Encode {| filePath := "d/b.cache"; data := {[ "k" := item "1" (Some 10) ]} |}
            (Cacher_Close Encode ["b"] (loaded, fs0)).2.2.
Proof.
  refine (proj1 (proj2 (close_persists_every_store Encode ["b"] loaded fs0 _)) _ _ "b" _ _).
  - vm_compute. reflexivity.
  - vm_compute. reflexivity.
  - intros n1 n2 s1 s2 Hne H1 H2. unfold loaded in H1, H2. cbn [stores] in H1, H2.
    apply lookup_singleton_Some in H1 as [<- _].
    apply lookup_singleton_Some in H2 as [<- _]. done.
  - vm_compute. reflexivity.
Defined.

(** After [RemoveBucket], with [Ext] at the value it starts with, the file
    of the bucket is gone, and the bucket starts empty again. *)
Lemma removeBucket_forgets_bucket_witness :
  lookup_path (path_components (filepath_Join "d" ("b" +:+ default_Ext)))
              (tree (Cacher_RemoveBucket default_Ext "b" after_set).2.2) = None ∧
  (Cacher_getStore Decode "b" (Cacher_RemoveBucket default_Ext "b" after_set).2).1 =
  inr {| filePath := filepath_Join "d" ("b" +:+ default_Ext); data := ∅ |}.
Proof.
  destruct (proj2 (proj2 (proj2 (proj2
              (removeBucket_forgets_bucket default_Ext Decode "b" after_set.1 after_set.2))))
              [("b.cache", File "k 1;")]) as [Hgone Hnext].
  - repeat split; try by apply (bool_decide_unpack _).
  - vm_compute. reflexivity.
  - vm_compute. reflexivity.
  - right. split; [by exists "k 1;"|reflexivity].
  - split; [exact Hgone|]. apply Hnext; reflexivity.
Defined.

(** [RemoveAllBy] with the filter "is b.cache" leaves ["d/a.cache"]. *)
Lemma removeAllBy_spares_other_files_witness :
  lookup_path ["d"; "a.cache"]
              (tree (Cacher_RemoveAllBy default_Ext only_b (loaded, mixed)).2.2) =
  Some (File "1").
Proof.
  apply (removeAllBy_spares_other_files default_Ext only_b loaded mixed
           ["d"; "a.cache"] "1").
  - vm_compute. reflexivity.
  - intros name _ Hb. unfold only_b in Hb. apply String.eqb_eq in Hb as ->.
    vm_compute. intros [=].
Defined.

(** Without the cache directory, [GetTotalSize] returns an error, not 0
    alone. *)
Lemma unreadable_directory_is_reported_witness :
  Cacher_GetTotalSize (c0, no_dir) =
  ((0, Some (Errorf "filecache: failed to walk the cache directory"
                    (PathError SysLstat "d" ENOENT))), (c0, no_dir)).
Proof.
  refine (proj1 (unreadable_directory_is_reported default_Ext every_file c0 no_dir
                   (PathError SysLstat "d" ENOENT) _)).
  vm_compute. reflexivity.
Defined.

(** [Set] of the payload ["{"], which cannot be encoded, fails and leaves
    the file of the bucket empty; it held the entry ["k"]. *)
Lemma failed_encode_empties_file_witness :
  ∃ fs',
    (Cacher_Set Encode_checked Decode "b" 0 5 "j" "{" after_set).1 =
    Some (Errorf "filecache: failed to encode cache data"
                 (JSONError "unexpected end of JSON input")) ∧
    (Cacher_Set Encode_checked Decode "b" 0 5 "j" "{" after_set).2.2 = fs' ∧
    lookup_path ["d"; "b.cache"] (tree fs') = Some (File "").
Proof.
  destruct (failed_encode_empties_file Encode_checked Decode "b" 0 5 "j" "{"
              after_set.1 after_set.2
              {| filePath := "d/b.cache"; data := {[ "k" := item "1" (Some 5) ]} |}
              "k 1;" (JSONError "unexpected end of JSON input"))
    as (fs' & Hset & Hfile).
  - vm_compute. reflexivity.
  - vm_compute. reflexivity.
  - reflexivity.
  - vm_compute. reflexivity.
  - exists fs'. split; [exact (f_equal fst Hset)|].
    split; [exact (f_equal (λ r, r.2.2) Hset)|exact Hfile].
Defined.

(** [NewCacherWithExt] creates the directory that is missing. *)
Lemma newCacher_creates_directory_witness :
  ∃ es, lookup_path (path_components "d")
                    (tree (@NewCacherWithExt RawMessage "d" ".cache" no_dir).2) =
        Some (Dir es).
Proof.
  refine (proj2 (proj2 (proj2 (proj2
            (@newCacher_creates_directory RawMessage default_Ext "d" ".cache" no_dir))))
            eq_refl _).
  intros q content _. by destruct q.
Defined.


(** Without the cache directory [Set] fails to persist, and the entry is
    returned by [Get] all the same. *)
Lemma set_is_kept_when_persist_fails_witness :
  (Cacher_Set Encode Decode "b" 0 5 "k" "1" (c0, no_dir)).1 =
  Some (Errorf "filecache: failed to create cache file"
               (PathError SysCreate "d/b.cache" ENOENT)) ∧
  Cacher_Get Marshal Encode Decode Unmarshal "b" 3 "k" ""
             ((Cacher_Set Encode Decode "b" 0 5 "k" "1" (c0, no_dir)).2.1, fs0)
  = ((true, None, "1"), ((Cacher_Set Encode Decode "b" 0 5 "k" "1" (c0, no_dir)).2.1, fs0)).
Proof.
  split; [by vm_compute|].
  refine (proj1 (proj2 (proj2
            (set_is_kept_when_persist_fails Marshal Encode Decode Unmarshal
               "b" 0 5 "k" "1" "1" (c0, no_dir)
               {| filePath := "d/b.cache"; data := ∅ |}
               {| dir := "d"; stores := {[ "b" := {| filePath := "d/b.cache"; data := ∅ |} ]};
                  ext := ".cache" |}
               no_dir
               (Cacher_Set Encode Decode "b" 0 5 "k" "1" (c0, no_dir)).1
               (Cacher_Set Encode Decode "b" 0 5 "k" "1" (c0, no_dir)).2 _ _ _)))
            3 fs0 "" _).
  - vm_compute. reflexivity.
  - exists "1". split; reflexivity.
  - vm_compute. reflexivity.
  - lia.
Defined.

(** After [Delete] of the key ["k"], [Get] does not find it. *)
Lemma delete_removes_the_key_only_witness :
  Cacher_Get Marshal Encode Decode Unmarshal "b" 0 "k" ""
             ((Cacher_Delete Encode Decode "b" "k" (loaded2, fs0)).2.1, fs0)
  = ((false, None, ""), ((Cacher_Delete Encode Decode "b" "k" (loaded2, fs0)).2.1, fs0)).
Proof.
  destruct (delete_removes_the_key_only Marshal Encode Decode Unmarshal
              "b" "k" (loaded2, fs0)
              {| filePath := "d/b.cache"; data := two_entries |} loaded2 fs0
              (Cacher_Delete Encode Decode "b" "k" (loaded2, fs0)).1
              (Cacher_Delete Encode Decode "b" "k" (loaded2, fs0)).2)
    as (store' & _ & _ & Hget & _).
  - vm_compute. reflexivity.
  - vm_compute. reflexivity.
  - apply Hget.
Defined.

(** After [EmptyBucket], [GetFrozen] does not find the frozen entry. *)
Lemma emptyBucket_leaves_no_entry_witness :
  Cacher_GetFrozen Marshal Decode Unmarshal "b" "f" ""
                   ((Cacher_EmptyBucket Encode Decode "b" (loaded2, fs0)).2.1, fs0)
  = ((false, None, ""), ((Cacher_EmptyBucket Encode Decode "b" (loaded2, fs0)).2.1, fs0)).
Proof.
  refine (proj1 (proj2 (proj2 (proj2
            (emptyBucket_leaves_no_entry Marshal Encode Decode "" Unmarshal
               "b" (loaded2, fs0)
               {| filePath := "d/b.cache"; data := two_entries |} loaded2 fs0
               (Cacher_EmptyBucket Encode Decode "b" (loaded2, fs0)).1
               (Cacher_EmptyBucket Encode Decode "b" (loaded2, fs0)).2 _ _))))
            "f" fs0 "").
  - vm_compute. reflexivity.
  - vm_compute. reflexivity.
Defined.

(** The entry of [loaded] expired at instant 10: after a [Get] at instant
    11, [GetFrozen] does not find it any more. *)
Lemma expired_get_evicts_for_getFrozen_witness :
  Cacher_GetFrozen Marshal Decode Unmarshal "b" "k" ""
    ((Cacher_Get Marshal Encode Decode Unmarshal "b" 11 "k" "" (loaded, fs0)).2.1, fs0)
  = ((false, None, ""),
     ((Cacher_Get Marshal Encode Decode Unmarshal "b" 11 "k" "" (loaded, fs0)).2.1, fs0)).
Proof.
  destruct (expired_get_evicts_for_getFrozen Marshal Encode Decode Unmarshal
              "b" 11 "k" "" (loaded, fs0)
              {| filePath := "d/b.cache"; data := {[ "k" := item "1" (Some 10) ]} |}
              loaded fs0 (item "1" (Some 10)))
    as (c2 & Hget & _ & Hfrozen & _).
  - vm_compute. reflexivity.
  - vm_compute. reflexivity.
  - vm_compute. reflexivity.
  - rewrite Hget. apply Hfrozen.
Defined.

(** [CleanBucket] at instant 20 deletes the entry that expired at instant
    10 and keeps the frozen one. *)
Lemma cleanBucket_removes_exactly_expired_witness :
  ∃ store',
    stores (Cacher_CleanBucket Encode Decode "b" [("k", 20); ("f", 20)]
                               (loaded2, fs0)).2.1 !! "b" = Some store' ∧
    data store' !! "k" = None ∧
    data store' !! "f" = Some (item "2" None).
Proof.
  destruct (cleanBucket_removes_exactly_expired Encode Decode
              "b" [("k", 20); ("f", 20)] (loaded2, fs0)
              {| filePath := "d/b.cache"; data := two_entries |} loaded2 fs0
              (Cacher_CleanBucket Encode Decode "b" [("k", 20); ("f", 20)] (loaded2, fs0)).1
              (Cacher_CleanBucket Encode Decode "b" [("k", 20); ("f", 20)] (loaded2, fs0)).2)
    as (store' & Hs & _ & Hin & _).
  - vm_compute. reflexivity.
  - vm_compute. reflexivity.
  - vm_compute. reflexivity.
  - exists store'. split; [exact Hs|]. split.
    + apply (Hin "k" 20 (item "1" (Some 10))); [constructor|vm_compute; reflexivity].
    + apply (Hin "f" 20 (item "2" None)); [do 2 constructor|vm_compute; reflexivity].
Defined.

(** [GetAll] at instant 20 returns the frozen entry and not the expired
    one. *)
Lemma getAll_returns_live_entries_witness :
  ∃ m : gmap string RawMessage,
    (GetAll Marshal Encode Decode "" Unmarshal "b" [("k", 20); ("f", 20)]
            (loaded2, fs0)).1.1 = Some m ∧
    m !! "k" = None ∧ m !! "f" = Some "2".
Proof.
  destruct (getAll_returns_live_entries Marshal Encode Decode "" Unmarshal
              "b" [("k", 20); ("f", 20)] (loaded2, fs0)
              {| filePath := "d/b.cache"; data := two_entries |} loaded2 fs0)
    as (m & Hrun & Hin & _).
  - vm_compute. reflexivity.
  - vm_compute. reflexivity.
  - intros k now it _ _ _. eexists. reflexivity.
  - exists m. split; [exact (f_equal (λ r, r.1.1) Hrun)|]. split.
    + apply (Hin "k" 20 (item "1" (Some 10))); [constructor|vm_compute; reflexivity].
    + destruct (Hin "f" 20 (item "2" None)) as (v & Hv & Hm);
        [do 2 constructor|vm_compute; reflexivity|].
      injection Hv as <-. exact Hm.
Defined.



(** A cacher created with the extension [".json"] on the directory in
    which [Set] has written the bucket reads the entry back. *)
Lemma set_survives_restart_witness :
  ∃ c3,
    Cacher_Get Marshal Encode Decode_k1 Unmarshal "b" 3 "k" ""
               ({| dir := "d"; stores := ∅; ext := ".json" |}, after_set.2)
    = ((true, None, "1"), (c3, after_set.2)) ∧
    stores c3 !! "b" = stores after_set.1 !! "b".
Proof.
  refine (set_survives_restart Marshal Encode Decode_k1 Unmarshal
            "b" 0 5 "k" "1" "1" c0 fs0 after_set ".json" _ _ _ _ _ _ 3 "" _).
  - reflexivity.
  - vm_compute. reflexivity.
  - exists "1". split; reflexivity.
  - reflexivity.
  - reflexivity.
  - intros cs bytes Hcs Henc. vm_compute in Hcs. injection Hcs as <-.
    vm_compute in Henc. injection Henc as <-. vm_compute. reflexivity.
  - lia.
Defined.

(** [Set] on the bucket ["b"] leaves the file of the bucket ["a"]. *)
Lemma operations_leave_the_rest_alone_witness :
  lookup_path ["d"; "a.cache"]
              (tree (Cacher_Set Encode Decode "b" 0 5 "k" "1" (loaded, two_buckets)).2.2) =
  Some (File "x 0;").
Proof.
  refine (proj2 (proj2 (proj2 (proj2
            (proj1 (operations_leave_the_rest_alone Marshal Encode Decode "" Unmarshal
                      "b" (loaded, two_buckets)) 0 5 "k" "1"))))
            ["d"; "a.cache"] "x 0;" _ _).
  - vm_compute. reflexivity.
  - intros cs Hcs. vm_compute in Hcs. injection Hcs as <-. vm_compute. intros [=].
Defined.

(** Nothing can be removed: [RemoveBucket] returns no error, and the next
    access finds the bucket with its entry. *)
Lemma removeBucket_failure_is_silent_witness :
  Cacher_RemoveBucket default_Ext "b" (after_set.1, no_removal) =
  (None, (with_stores after_set.1 (delete "b" (stores after_set.1)), no_removal)) ∧
  Cacher_getStore Decode_k1 "b"
    (with_stores after_set.1 (delete "b" (stores after_set.1)), no_removal) =
  (inr {| filePath := "d/b.cache"; data := {[ "k" := item "1" (Some 5) ]} |},
   (after_set.1, no_removal)).
Proof.
  destruct (removeBucket_failure_is_silent default_Ext Encode Decode_k1
              "b" after_set.1 no_removal
              {| filePath := "d/b.cache"; data := {[ "k" := item "1" (Some 5) ]} |}
              (PathError SysRemove "d/b.cache" EIO))
    as (Hrm & _ & Hget).
  - vm_compute. reflexivity.
  - vm_compute. reflexivity.
  - exists "k 1;". split; vm_compute; reflexivity.
  - vm_compute. reflexivity.
  - reflexivity.
  - reflexivity.
  - intros bytes Henc. vm_compute in Henc. injection Henc as <-. vm_compute. reflexivity.
  - split; [exact Hrm|exact Hget].
Defined.

(** The walk meets the number ["a"], which the predicate holds of, and then
    the text ["m"]: [DeleteIf] returns the error of [Unmarshal] and writes
    nothing. *)
Lemma deleteIf_stops_at_undecodable_witness :
  (DeleteIf Marshal Encode Decode "" Unmarshal_number "b" ["a"; "m"; "z"]
            (λ _ out, String.eqb out "1") (numbers_and_text, fs0)).1 =
  Some (JSONError "cannot unmarshal string into a number") ∧
  (DeleteIf Marshal Encode Decode "" Unmarshal_number "b" ["a"; "m"; "z"]
            (λ _ out, String.eqb out "1") (numbers_and_text, fs0)).2.2 = fs0.
Proof.
  destruct (deleteIf_stops_at_undecodable Marshal Encode Decode "" Unmarshal_number
              "b" ["a"] "m" ["z"] (λ _ out, String.eqb out "1") (numbers_and_text, fs0)
              {| filePath := "d/b.cache";
                 data := {[ "a" := item "1" None; "m" := item "one" None;
                            "z" := item "1" None ]} |}
              numbers_and_text fs0 (item "one" None)
              (JSONError "cannot unmarshal string into a number"))
    as (d1 & Hrun & _).
  - vm_compute. reflexivity.
  - apply NoDup_singleton.
  - intros Hin. apply list_elem_of_singleton in Hin. discriminate Hin.
  - intros k it Hk Hit. apply list_elem_of_singleton in Hk as ->.
    vm_compute in Hit. injection Hit as <-. eexists. vm_compute. reflexivity.
  - vm_compute. reflexivity.
  - vm_compute. reflexivity.
  - split; [exact (f_equal fst Hrun)|exact (f_equal (λ r, r.2.2) Hrun)].
Defined.

(** After the first [Set], the cache directory holds the four bytes of the
    bucket file. *)
Lemma total_size_after_first_set_witness :
  ∃ st',
    Cacher_Set Encode Decode "b" 0 5 "k" "1" (c0, fs0) = (None, st') ∧
    lookup_path (path_components (dir c0)) (tree st'.2) =
    Some (Dir [("b" +:+ ".cache", File "k 1;")]) ∧
    (Cacher_GetTotalSize st').1 = (wrap64 (Z.of_nat (String.length "k 1;")), None).
Proof.
  apply (total_size_after_first_set Encode Decode "b" 0 5 "k" "1" c0 fs0 "k 1;").
  - discriminate.
  - intros sc p. reflexivity.
  - vm_compute. reflexivity.
  - vm_compute. reflexivity.
  - reflexivity.
  - vm_compute. reflexivity.
Defined.

(** The text ["m"] is not a number: [GetAll] into numbers fails. *)
Lemma getAll_fails_on_undecodable_entry_witness :
  ∃ err' st',
    GetAll Marshal Encode Decode "" Unmarshal_number "b" [("a", 0); ("m", 0); ("z", 0)]
           (numbers_and_text, fs0) = ((None, Some err'), st') ∧
    st'.2 = fs0.
Proof.
  destruct (getAll_fails_on_undecodable_entry Marshal Encode Decode "" Unmarshal_number
              "b" [("a", 0); ("m", 0); ("z", 0)] (numbers_and_text, fs0)
              {| filePath := "d/b.cache";
                 data := {[ "a" := item "1" None; "m" := item "one" None;
                            "z" := item "1" None ]} |}
              numbers_and_text fs0 "m" 0 (item "one" None)
              (JSONError "cannot unmarshal string into a number"))
    as (err' & k' & item' & st' & Hrun & _ & _ & Hfs).
  - vm_compute. reflexivity.
  - by apply (bool_decide_unpack _).
  - do 2 constructor.
  - vm_compute. reflexivity.
  - reflexivity.
  - vm_compute. reflexivity.
  - by exists err', st'.
Defined.
End Examples.
